(** * Timestamp recognition and voting engine of PNG_timestamp_extract.py

    A shallow embedding of the text normalisation, the timestamp parser, the
    banner locator and the candidate selection of [PNG_timestamp_extract.py],
    together with the properties the specification states about them.

    Modelling conventions.
    - A Python [str] is a list of characters; a character is a code point
      below 256 ([ascii]).  On this alphabet [\d] is [0-9] and [\s] is the
      white space of [str.isspace].  The substitutions of the source that
      mention code points above 255 (em dash, en dash, the Unicode slashes
      of [_SLASH_LIKE]) never apply to such strings and appear as comments.
    - Python [int] is [Z].  The weights, Python [float]s, are modelled
      twice: as the rationals [Q] that the decimals of the source denote,
      for the properties that only compare weights, and in the module
      [Binary64] as the IEEE 754 doubles that the script computes with,
      each operation rounded, for the properties that depend on their sums.
    - An exception that the source does not catch is the outcome [Raise];
      [None] is [None].
    - [cv2] and [pytesseract] are outside the repository: an image that
      decoded is represented by what reading each (ROI, variant) pair gives,
      the text the recogniser returns or the exception that escapes. *)

From Stdlib Require Import Ascii String.
From Stdlib Require Import List Bool Arith ZArith NArith QArith Lia Lqa.
From Stdlib Require Import Permutation Sorted SpecFloat.
Import ListNotations.

Local Open Scope bool_scope.
Local Open Scope list_scope.
Local Open Scope nat_scope.

(** ** Strings and character classes *)

Definition str := list ascii.

Definition lit (s : string) : str := list_ascii_of_string s.

Definition code (c : ascii) : N := N_of_ascii c.

(** [\d] and [[0-9]]. *)
Definition is_digit (c : ascii) : bool :=
  (48 <=? code c)%N && (code c <=? 57)%N.

(** [\s], and the characters removed by [str.strip()]. *)
Definition is_space (c : ascii) : bool :=
  ((9 <=? code c)%N && (code c <=? 13)%N)
  || ((28 <=? code c)%N && (code c <=? 32)%N)
  || (code c =? 133)%N || (code c =? 160)%N.

(** [\D]. *)
Definition non_digit (c : ascii) : bool := negb (is_digit c).

(** A literal character. *)
Definition is_char (x c : ascii) : bool := Ascii.eqb c x.

(** [.] without DOTALL: anything but a line feed. *)
Definition any_char (c : ascii) : bool := negb (is_char "010" c).

(** A bracket class [[xyz]] of literal characters. *)
Definition one_of (l : str) (c : ascii) : bool := existsb (fun x => is_char x c) l.

(** [[:\s]]. *)
Definition colon_or_space (c : ascii) : bool := is_char ":" c || is_space c.

(** ** A backtracking matcher for the regular expressions of the script

    Every pattern of the script is a sequence of character classes with a
    repetition range, some of them inside a capturing group, possibly
    followed by the look-ahead [(?=[:\s]|$)] or by [$].  [m_seq] tries the
    repetition counts of each class in Python's priority order (longest
    first for a greedy quantifier, shortest first for a lazy one) and
    backtracks into earlier classes when the rest of the pattern fails. *)

Record atom := Atom {
  a_cls : ascii -> bool;
  a_lo : nat;
  a_hi : option nat;
  a_lazy : bool
}.

Definition one (p : ascii -> bool) : atom := Atom p 1 (Some 1) false.
Definition rep (p : ascii -> bool) (lo hi : nat) : atom := Atom p lo (Some hi) false.
Definition rep_lazy (p : ascii -> bool) (lo hi : nat) : atom := Atom p lo (Some hi) true.
Definition at_least (p : ascii -> bool) (lo : nat) : atom := Atom p lo None false.
Definition star (p : ascii -> bool) : atom := at_least p 0.

Inductive tok :=
| T (a : atom)                      (* a class outside any group *)
| G (body : list atom)              (* a capturing group *)
| Ahead (p : ascii -> bool)         (* (?=[p]|$) *)
| Eol.                              (* $ *)

Definition regex := list tok.

(** Length of the longest prefix of [s] whose characters satisfy [p]. *)
Fixpoint run_len (p : ascii -> bool) (s : str) : nat :=
  match s with
  | c :: s' => if p c then S (run_len p s') else 0
  | [] => 0
  end.

(** The repetition counts that the atom can take at the head of [s], in the
    order in which the backtracking matcher tries them. *)
Definition counts (a : atom) (s : str) : list nat :=
  let avail := run_len (a_cls a) s in
  let hi := match a_hi a with Some m => Nat.min m avail | None => avail end in
  let up := seq (a_lo a) (S hi - a_lo a) in
  if a_lazy a then up else rev up.

Fixpoint first_some {A B : Type} (f : A -> option B) (l : list A) : option B :=
  match l with
  | [] => None
  | x :: l' => match f x with Some y => Some y | None => first_some f l' end
  end.

(** [$] without MULTILINE: the end of the string, or just before a final
    line feed. *)
Definition at_eol (s : str) : bool :=
  match s with
  | [] => true
  | [c] => is_char "010" c
  | _ => false
  end.

Definition ahead (p : ascii -> bool) (s : str) : bool :=
  match s with
  | c :: _ => p c || at_eol s
  | [] => true
  end.

Section Matcher.
Context {R : Type}.

(** Match a sequence of atoms at the head of [s]; [k] receives the text
    they consumed and the rest of the string. *)
Fixpoint m_seq (atoms : list atom) (s : str) (k : str -> str -> option R)
  : option R :=
  match atoms with
  | [] => k [] s
  | a :: rest =>
      first_some
        (fun n => m_seq rest (skipn n s) (fun g s' => k (firstn n s ++ g) s'))
        (counts a s)
  end.

(** Match a pattern at the head of [s]; [caps] are the groups captured so
    far. *)
Fixpoint m_toks (ts : regex) (s : str) (caps : list str)
  (k : list str -> str -> option R) : option R :=
  match ts with
  | [] => k caps s
  | T a :: ts' => m_seq [a] s (fun _ s' => m_toks ts' s' caps k)
  | G body :: ts' => m_seq body s (fun g s' => m_toks ts' s' (caps ++ [g]) k)
  | Ahead p :: ts' => if ahead p s then m_toks ts' s caps k else None
  | Eol :: ts' => if at_eol s then m_toks ts' s caps k else None
  end.
End Matcher.

(** [re.match(pat, s)]: the captured groups and the end offset of the match. *)
Definition re_match (pat : regex) (s : str) : option (list str * nat) :=
  m_toks pat s [] (fun caps s' => Some (caps, length s - length s')).

(** [re.search(pat, s)] from offset [i]: start offset, end offset and groups
    of the leftmost match. *)
Fixpoint search_from (pat : regex) (s : str) (i : nat)
  : option (nat * nat * list str) :=
  match re_match pat s with
  | Some (caps, n) => Some (i, i + n, caps)
  | None =>
      match s with
      | [] => None
      | _ :: s' => search_from pat s' (S i)
      end
  end.

Definition re_search (pat : regex) (s : str) : option (nat * nat * list str) :=
  search_from pat s 0.

(** [re.sub(pat, repl, s)] for a pattern that consumes at least one
    character (all substituted patterns of the script do): [skip] counts the
    characters of the current match that are still to be dropped. *)
Fixpoint sub_go (pat : regex) (repl : list str -> str) (s : str) (skip : nat)
  : str :=
  match s with
  | [] => []
  | c :: s' =>
      match skip with
      | S k => sub_go pat repl s' k
      | O =>
          match re_match pat s with
          | Some (caps, S n) => repl caps ++ sub_go pat repl s' n
          | _ => c :: sub_go pat repl s' 0
          end
      end
  end.

Definition re_sub (pat : regex) (repl : list str -> str) (s : str) : str :=
  sub_go pat repl s 0.

(** [m.group(i)], groups numbered from 1. *)
Definition group (caps : list str) (i : nat) : str := nth (i - 1) caps [].

(** ** Outcomes: a returned value or an uncaught [ValueError] *)

Inductive outcome (A : Type) :=
| Return (a : A)
| Raise.
Arguments Return {A} a.
Arguments Raise {A}.

Definition bind {A B : Type} (m : outcome A) (f : A -> outcome B) : outcome B :=
  match m with
  | Return a => f a
  | Raise => Raise
  end.

Notation "x <- m ;; k" := (bind m (fun x => k))
  (at level 61, m at next level, right associativity).

(** [int(s)] for a string of decimal digits; anything else raises. *)
Definition digit_val (c : ascii) : Z := Z.of_N (code c) - 48.

Definition int_of (s : str) : outcome Z :=
  match s with
  | [] => Raise
  | _ =>
      if forallb is_digit s
      then Return (fold_left (fun acc c => 10 * acc + digit_val c)%Z s 0%Z)
      else Raise
  end.

(** ** Utilities (section 3 of the script) *)

(** [s.replace(old, new)] for one-character [old] and [new]. *)
Definition replace_char (old new : ascii) (s : str) : str :=
  map (fun c => if is_char old c then new else c) s.

Fixpoint lstrip (s : str) : str :=
  match s with
  | c :: s' => if is_space c then lstrip s' else s
  | [] => []
  end.

(** [s.strip()]. *)
Definition strip (s : str) : str := rev (lstrip (rev (lstrip s))).

(** [s.count(c)]. *)
Definition count_char (x : ascii) (s : str) : nat := length (filter (is_char x) s).

(** [s.isdigit()] on the strings that reach it (runs matched by [\d]). *)
Definition isdigit (s : str) : bool :=
  match s with
  | [] => false
  | _ => forallb is_digit s
  end.

(** [TRIPLET_FIELD = ([:\s])(\d{3})(?=[:\s]|$)] *)
Definition TRIPLET_FIELD : regex :=
  [G [one colon_or_space]; G [rep is_digit 3 3]; Ahead colon_or_space].

(** The inner function [_fix] of [repair_time_triplets]; [tri] holds the
    three digits of group 2. *)
Definition _fix (caps : list str) : str :=
  let tri := group caps 2 in
  let last2 := skipn (length tri - 2) tri in
  if match tri with c :: _ => one_of (lit "10") c | [] => false end
     && isdigit last2
     && match int_of last2 with
        | Return v => (0 <=? v)%Z && (v <=? 59)%Z
        | Raise => false
        end
  then group caps 1 ++ last2
  else group caps 1 ++ tri.

Definition repair_time_triplets (s : str) : str := re_sub TRIPLET_FIELD _fix s.

(** [SLASH_RE], restricted to the slash-like characters below 256. *)
Definition SLASH_RE : regex := [T (one (one_of (lit "/\")))].
(** [\s+], [:{2,}] and [-{2,}] *)
Definition WS_RUN : regex := [T (at_least is_space 1)].
Definition COLON_RUN : regex := [T (at_least (is_char ":") 2)].
Definition DASH_RUN : regex := [T (at_least (is_char "-") 2)].

Definition normalize_ocr (s : str) : str :=
  match s with
  | [] => []
  | _ =>
      let t := strip (replace_char "010" " " s) in
      let t := replace_char "O" "0" t in
      let t := replace_char "o" "0" t in
      let t := replace_char "I" "1" t in
      let t := replace_char "l" "1" t in
      let t := replace_char "S" "5" t in
      let t := replace_char "B" "8" t in
      (* .replace(em dash, '-').replace(en dash, '-'): code points above 255 *)
      let t := re_sub SLASH_RE (fun _ => []) t in
      let t := re_sub WS_RUN (fun _ => lit " ") t in
      let t := re_sub COLON_RUN (fun _ => lit ":") t in
      let t := re_sub DASH_RUN (fun _ => lit "-") t in
      t
  end.

(** ** Calendar dates: [datetime.datetime] *)

Record datetime := DT {
  year : Z; month : Z; day : Z; hour : Z; minute : Z; second : Z
}.

Definition parts := (Z * Z * Z * Z * Z * Z)%type.

Definition is_leap (y : Z) : bool :=
  ((y mod 4 =? 0) && (negb (y mod 100 =? 0) || (y mod 400 =? 0)))%Z.

Definition days_in_month (y m : Z) : Z :=
  if (m =? 2)%Z then (if is_leap y then 29 else 28)%Z
  else if ((m =? 4) || (m =? 6) || (m =? 9) || (m =? 11))%Z then 30%Z
  else 31%Z.

Definition valid_datetime (y M d h m s : Z) : bool :=
  ((1 <=? y) && (y <=? 9999) && (1 <=? M) && (M <=? 12)
   && (1 <=? d) && (d <=? days_in_month y M)
   && (0 <=? h) && (h <=? 23) && (0 <=? m) && (m <=? 59)
   && (0 <=? s) && (s <=? 59))%Z.

(** [dt.datetime(y, M, d, h, m, s)] inside [try ... except ValueError]:
    [None] when the constructor raises. *)
Definition mk_datetime (y M d h m s : Z) : option datetime :=
  if valid_datetime y M d h m s then Some (DT y M d h m s) else None.

Definition dt_eqb (a b : datetime) : bool :=
  ((year a =? year b) && (month a =? month b) && (day a =? day b)
   && (hour a =? hour b) && (minute a =? minute b)
   && (second a =? second b))%Z.

Definition dchar (k : Z) : ascii := ascii_of_N (Z.to_N (48 + k)).

Definition two (n : Z) : str := [dchar (n / 10); dchar (n mod 10)].
Definition four (n : Z) : str := two (n / 100) ++ two (n mod 100).

(** [d.strftime("%Y-%m-%d %H:%M:%S")] *)
Definition strftime (d : datetime) : str :=
  four (year d) ++ lit "-" ++ two (month d) ++ lit "-" ++ two (day d)
  ++ lit " " ++ two (hour d) ++ lit ":" ++ two (minute d) ++ lit ":"
  ++ two (second d).

(** ** Parsing helpers (section 4 of the script) *)

Definition D2 : list atom := [rep is_digit 2 2].
Definition YEAR : list atom := [one (is_char "2"); one (is_char "0"); rep is_digit 2 2].

(** [FLEX_PAT] *)
Definition FLEX_PAT : regex :=
  [G YEAR; T (rep non_digit 0 4); G D2; T (rep non_digit 0 4); G D2;
   T (rep non_digit 0 6); G [rep is_digit 1 2]; T (rep non_digit 0 4); G D2;
   T (rep non_digit 0 4); G D2].

(** [DATE_THEN_TIME_1OR2H] *)
Definition DATE_THEN_TIME_1OR2H : regex :=
  [G YEAR; T (rep non_digit 0 5); G D2; T (rep non_digit 0 5); G D2;
   T (rep_lazy any_char 0 12); G [rep is_digit 1 2]; T (rep non_digit 0 3);
   G D2; T (rep non_digit 0 3); G D2].

(** [TS_PATTERNS] *)
Definition TS_PATTERNS : list regex :=
  [ [G YEAR; T (one (is_char "-")); G D2; T (one (is_char "-")); G D2;
     T (one (one_of (lit " T"))); G D2; T (one (is_char ":")); G D2;
     T (one (is_char ":")); G D2];
    [G YEAR; G D2; G D2; T (rep (one_of (lit " T")) 0 1); G D2; G D2; G D2];
    [G YEAR; T (one (is_char "-")); G D2; T (one (is_char "-")); G D2;
     T (rep any_char 0 3); G D2; T (rep any_char 0 3); G D2;
     T (rep any_char 0 3); G D2] ].

(** [(20\d{2})\D{0,4}(\d{2})\D{0,4}(\d{2})] of stage (0) *)
Definition DATE_ANCHOR : regex :=
  [G YEAR; T (rep non_digit 0 4); G D2; T (rep non_digit 0 4); G D2].

(** [(\d{1,2})\s*:\s*(\d{2})\s*:\s*(\d{2})] of stage (0) *)
Definition COLON_TIME : regex :=
  [G [rep is_digit 1 2]; T (star is_space); T (one (is_char ":"));
   T (star is_space); G D2; T (star is_space); T (one (is_char ":"));
   T (star is_space); G D2].

(** [^\s*(\d)\D?(\d)\s*$]; it is used with [re.match], which anchors [^]. *)
Definition PAIRIFY : regex :=
  [T (star is_space); G [one is_digit]; T (rep non_digit 0 1);
   G [one is_digit]; T (star is_space); Eol].

(** [(20\d{2})] and [(\d\D?\d)] of [_grab_fields_loose] *)
Definition YEAR_ONLY : regex := [G YEAR].
Definition PAIR : regex := [G [one is_digit; rep non_digit 0 1; one is_digit]].

Definition _pairify (two_digit_maybe_split : str) : outcome Z :=
  match re_match PAIRIFY two_digit_maybe_split with
  | None => Raise
  | Some (caps, _) => int_of (group caps 1 ++ group caps 2)
  end.

(** The [try: dt.datetime(...) ... except ValueError] blocks of the parser. *)
Definition try_datetime (y M d h m s : Z) : option (datetime * parts) :=
  match mk_datetime y M d h m s with
  | Some dtobj => Some (dtobj, (y, M, d, h, m, s))
  | None => None
  end.

(** [y, M, d, h, m_, s_ = map(int, m.groups())] followed by the [try] block. *)
Definition fields_of_groups (caps : list str) : outcome (option (datetime * parts)) :=
  y <- int_of (group caps 1) ;;
  M <- int_of (group caps 2) ;;
  d <- int_of (group caps 3) ;;
  h <- int_of (group caps 4) ;;
  m <- int_of (group caps 5) ;;
  s <- int_of (group caps 6) ;;
  Return (try_datetime y M d h m s).

(** The inner function [next_pair] of [_grab_fields_loose]. *)
Definition next_pair (t : str) (start_idx : nat) : outcome (option (Z * nat)) :=
  match re_search PAIR (skipn start_idx t) with
  | None => Return None
  | Some (_, e, caps) =>
      val <- _pairify (group caps 1) ;;
      Return (Some (val, start_idx + e))
  end.

(** The loop [for _ in range(5)] collecting [fields]. *)
Fixpoint grab_pairs (t : str) (n : nat) (idx : nat) : outcome (option (list Z)) :=
  match n with
  | O => Return (Some [])
  | S n' =>
      r <- next_pair t idx ;;
      match r with
      | None => Return None
      | Some (val, idx') =>
          rs <- grab_pairs t n' idx' ;;
          Return (option_map (cons val) rs)
      end
  end.

Definition _grab_fields_loose (t : str) : outcome (option (datetime * parts)) :=
  match re_search YEAR_ONLY t with
  | None => Return None
  | Some (_, i, caps) =>
      y <- int_of (group caps 1) ;;
      fields <- grab_pairs t 5 i ;;
      match fields with
      | Some [M; d; h; m; s] => Return (try_datetime y M d h m s)
      | _ => Return None
      end
  end.

(** Stage (0): anchor on the date, then a colonised time in the rest. *)
Definition parse_anchored (t : str) : outcome (option (datetime * parts)) :=
  match re_search DATE_ANCHOR t with
  | None => Return None
  | Some (_, e, dm) =>
      y <- int_of (group dm 1) ;;
      M <- int_of (group dm 2) ;;
      d <- int_of (group dm 3) ;;
      match re_search COLON_TIME (skipn e t) with
      | None => Return None
      | Some (_, _, mtime) =>
          h <- int_of (group mtime 1) ;;
          m <- int_of (group mtime 2) ;;
          s <- int_of (group mtime 3) ;;
          Return (try_datetime y M d h m s)
      end
  end.

(** Stages (1) and (3), and each pattern of stage (4): one search. *)
Definition parse_with (pat : regex) (t : str) : outcome (option (datetime * parts)) :=
  match re_search pat t with
  | None => Return None
  | Some (_, _, caps) => fields_of_groups caps
  end.

(** Try the next stage when the previous one returned nothing. *)
Notation "a 'orelse' b" :=
  (match a with
   | Return None => b
   | r => r
   end) (at level 62, right associativity, only parsing).

Fixpoint parse_strict (pats : list regex) (t : str) : outcome (option (datetime * parts)) :=
  match pats with
  | [] => Return None
  | pat :: pats' => parse_with pat t orelse parse_strict pats' t
  end.

Definition parse_timestamp_flex (raw : str) : outcome (option (datetime * parts)) :=
  match raw with
  | [] => Return None
  | _ =>
      let t := normalize_ocr raw in
      let t := repair_time_triplets t in
      parse_anchored t
      orelse parse_with DATE_THEN_TIME_1OR2H t
      orelse _grab_fields_loose t
      orelse parse_with FLEX_PAT t
      orelse parse_strict TS_PATTERNS t
  end.

(** ** Banner location (section 5 of the script) *)

(** A grayscale image: its rows of pixel intensities. *)
Definition gray_image := list (list Z).

(** The generator [moving_groups]: the maximal runs of consecutive indices. *)
Fixpoint groups_from (start prev : Z) (idxs : list Z) : list (Z * Z) :=
  match idxs with
  | [] => [(start, prev)]
  | i :: idxs' =>
      if (i =? prev + 1)%Z then groups_from start i idxs'
      else (start, prev) :: groups_from i i idxs'
  end.

Definition moving_groups (idxs : list Z) : list (Z * Z) :=
  match idxs with
  | [] => []
  | i0 :: idxs' => groups_from i0 i0 idxs'
  end.

(** [row.mean() < 60]: the mean of a row is its sum over its length. *)
Definition row_is_dark (row : list Z) : bool :=
  let n := Z.of_nat (length row) in
  ((0 <? n) && (fold_right Z.add 0 row <? 60 * n))%Z.

(** [np.where(row_means < 60)[0].tolist()], rows numbered from [i]. *)
Fixpoint dark_rows (rows : gray_image) (i : Z) : list Z :=
  match rows with
  | [] => []
  | r :: rows' =>
      if row_is_dark r then i :: dark_rows rows' (i + 1)%Z
      else dark_rows rows' (i + 1)%Z
  end.

(** The test of the loop body: the run starts at row 5 or above it and has
    at least ten rows. *)
Definition qualifies (g : Z * Z) : bool :=
  ((fst g <=? 5) && (10 <=? snd g - fst g + 1))%Z.

Definition better_run (best : option (Z * Z)) (g : Z * Z) : option (Z * Z) :=
  if qualifies g then
    match best with
    | None => Some g
    | Some b => if (snd b - fst b <? snd g - fst g)%Z then Some g else best
    end
  else best.

(** [int(h * 0.25)] is [h / 4] and [int(h * 0.09)] is [9 * h / 100] for a
    row count [h] (the double nearest to 0.09 is close enough to it that the
    product rounds to the same integer part). *)
Definition find_top_black_banner (gray : gray_image) : Z * Z :=
  let h := Z.of_nat (length gray) in
  let top := firstn (Z.to_nat (h / 4)) gray in
  let idxs := dark_rows top 0 in
  let best := fold_left better_run (moving_groups idxs) None in
  let '(y0, y1) :=
    match best with
    | None => (0, Z.max 16 (9 * h / 100))
    | Some b => b
    end%Z in
  (Z.max 0 (y0 - 2), Z.min h (y1 + 2))%Z.

(** ** Weights and selection (section 6 of the script) *)

Fixpoint str_eqb (a b : str) : bool :=
  match a, b with
  | [], [] => true
  | x :: a', y :: b' => Ascii.eqb x y && str_eqb a' b'
  | _, _ => false
  end.

(** [a < b] on Python strings: lexicographic on code points. *)
Fixpoint str_ltb (a b : str) : bool :=
  match a, b with
  | _, [] => false
  | [], _ :: _ => true
  | x :: a', y :: b' =>
      if (code x <? code y)%N then true
      else if (code x =? code y)%N then str_ltb a' b'
      else false
  end.

Definition Qltb (x y : Q) : bool := negb (Qle_bool y x).

(** [d.get(key, default)] on a dictionary literal. *)
Fixpoint dict_get (d : list (str * Q)) (key : str) (default : Q) : Q :=
  match d with
  | [] => default
  | (k, v) :: d' => if str_eqb k key then v else dict_get d' key default
  end.

Definition ROI_WEIGHT : list (str * Q) :=
  [(lit "left70", 32 # 10); (lit "full", 14 # 10);
   (lit "mid60", - (10 # 10)); (lit "right60", - (15 # 10))]%Q.

Definition VARIANT_WEIGHT : list (str * Q) :=
  [(lit "cubic|morph_inv", 36 # 10);
   (lit "cubic|blur_otsu_inv", 24 # 10);
   (lit "cubic|otsu_inv", 12 # 10);
   (lit "cubic|adapt_inv", 8 # 10);
   (lit "nearest|otsu_inv", - (10 # 10));
   (lit "nearest|adapt_inv", - (12 # 10))]%Q.

Definition is_some {A : Type} (o : option A) : bool :=
  match o with Some _ => true | None => false end.

(** [:[0-9]{3}(?=[:\s]|$)] and [:[0-9]{2}\s*:\s*[0-9]{2}] *)
Definition RESIDUAL_TRIPLET : regex :=
  [T (one (is_char ":")); T (rep is_digit 3 3); Ahead colon_or_space].
Definition TIME_TAIL : regex :=
  [T (one (is_char ":")); T (rep is_digit 2 2); T (star is_space);
   T (one (is_char ":")); T (star is_space); T (rep is_digit 2 2)].

Definition rough_layout_bonus (raw : str) : Q :=
  let t := normalize_ocr raw in
  let c := count_char ":" t in
  let bonus := 0%Q in
  let bonus := if (2 <=? c) && (c <=? 3) then (bonus + (4 # 10))%Q else bonus in
  let bonus := if is_some (re_search RESIDUAL_TRIPLET t) then (bonus - (6 # 10))%Q else bonus in
  let bonus := if is_some (re_search TIME_TAIL t) then (bonus + (2 # 10))%Q else bonus in
  bonus.

Definition candidate_weight (roi_tag var_tag raw : str) : Q :=
  let base := (dict_get ROI_WEIGHT roi_tag 0 + dict_get VARIANT_WEIGHT var_tag 0)%Q in
  (base + rough_layout_bonus raw)%Q.

(** A candidate: the dictionary built in [collect_candidates_from_roi]
    (its ["img"] entry only serves the debug output). *)
Record Candidate := Cand {
  c_dt : datetime;
  c_canon : str;
  c_parts : parts;
  c_raw : str;
  c_roi : str;
  c_var : str;
  c_w : Q
}.

Definition PREFERRED_ROIS : list str := [lit "left70"; lit "full"].
Definition PREFERRED_VARS : list str := [lit "cubic|morph_inv"; lit "cubic|blur_otsu_inv"].

(** [x in S] for a set of strings. *)
Definition str_mem (x : str) (S : list str) : bool := existsb (str_eqb x) S.

(** [sorted(l, key=...)]: Python's sort is stable and only compares with
    [<]; [ltb a b] is [key(a) < key(b)].  Insertion from the right puts an
    element before the later elements that are not smaller. *)
Section Sorted.
Context {A : Type} (ltb : A -> A -> bool).

Fixpoint insert_sorted (x : A) (l : list A) : list A :=
  match l with
  | [] => [x]
  | y :: l' => if ltb y x then y :: insert_sorted x l' else x :: l
  end.

Definition sorted (l : list A) : list A := fold_right insert_sorted [] l.
End Sorted.

(** [tally[k] += w] on a [defaultdict(float)]; dictionaries keep the
    insertion order of their keys. *)
Section Tally.
Context {K : Type} (eqb : K -> K -> bool).

Fixpoint tally_add (k : K) (w : Q) (tally : list (K * Q)) : list (K * Q) :=
  match tally with
  | [] => [(k, 0 + w)%Q]
  | (k', s) :: tally' =>
      if eqb k' k then (k', (s + w)%Q) :: tally'
      else (k', s) :: tally_add k w tally'
  end.

(** The loop [for k, w in ...: if w > 0: tally[k] += w]. *)
Definition tally_positive (kws : list (K * Q)) : list (K * Q) :=
  fold_left (fun tally kw => if Qltb 0 (snd kw) then tally_add (fst kw) (snd kw) tally else tally)
            kws [].

(** The sort key [(-kv[1], kv[0])], compared as Python compares tuples. *)
Definition by_weight_then_key (key_ltb : K -> K -> bool) (a b : K * Q) : bool :=
  Qltb (- snd a) (- snd b) || (Qeq_bool (- snd a) (- snd b) && key_ltb (fst a) (fst b)).
End Tally.

Definition weighted_mode (values : list Z) (weights : list Q) : option Z :=
  let tally := tally_positive Z.eqb (combine values weights) in
  match sorted (by_weight_then_key Z.ltb) tally with
  | [] => None
  | kv :: _ => Some (fst kv)
  end.

Definition ABSENT : Q := - (1000000000 # 1).

Definition choose_elite_candidate (all_cands : list Candidate) (elite_margin : Q)
  : option Candidate :=
  match sorted (fun a b => Qltb (c_w b) (c_w a)) all_cands with
  | [] => None
  | top :: ranked' =>
      let nxt := match ranked' with c :: _ => c_w c | [] => ABSENT end in
      let preferred := str_mem (c_roi top) PREFERRED_ROIS && str_mem (c_var top) PREFERRED_VARS in
      if preferred && Qle_bool (nxt + elite_margin) (c_w top) then Some top else None
  end.

(** [sorted(xs, ...)[0]] raises on an empty list. *)
Definition first_of {A : Type} (l : list A) : outcome A :=
  match l with
  | [] => Raise
  | x :: _ => Return x
  end.

Definition choose_by_weighted_whole_string (all_cands : list Candidate)
  : outcome (option datetime * option Candidate) :=
  let by_key := tally_positive str_eqb (map (fun c => (c_canon c, c_w c)) all_cands) in
  match by_key with
  | [] => Return (None, None)
  | _ =>
      best <- first_of (sorted (by_weight_then_key str_ltb) by_key) ;;
      let best_key := fst best in
      let reps := filter (fun c => str_eqb (c_canon c) best_key) all_cands in
      rep <- first_of (sorted (fun a b : Candidate =>
                                 Qltb (- c_w a) (- c_w b)
                                 || (Qeq_bool (- c_w a) (- c_w b) && str_ltb (c_roi a) (c_roi b)))
                              reps) ;;
      Return (Some (c_dt rep), Some rep)
  end.

Definition fld1 (p : parts) : Z := let '(y, _, _, _, _, _) := p in y.
Definition fld2 (p : parts) : Z := let '(_, M, _, _, _, _) := p in M.
Definition fld3 (p : parts) : Z := let '(_, _, d, _, _, _) := p in d.
Definition fld4 (p : parts) : Z := let '(_, _, _, h, _, _) := p in h.
Definition fld5 (p : parts) : Z := let '(_, _, _, _, m, _) := p in m.
Definition fld6 (p : parts) : Z := let '(_, _, _, _, _, s) := p in s.

(** The six columns of [zip( *parts_list)]. *)
Definition columns : list (parts -> Z) := [fld1; fld2; fld3; fld4; fld5; fld6].

(** The loop [for col in fields] that fills [voted]; [None] is its early
    [return None, None]. *)
Fixpoint vote (cols : list (parts -> Z)) (all_cands : list Candidate) : option (list Z) :=
  match cols with
  | [] => Some []
  | col :: cols' =>
      match weighted_mode (map (fun c => col (c_parts c)) all_cands) (map c_w all_cands) with
      | None => None
      | Some v => option_map (cons v) (vote cols' all_cands)
      end
  end.

(** The loop that picks the representative. *)
Definition pick_rep (consensus : datetime) (all_cands : list Candidate) : option Candidate :=
  snd (fold_left
         (fun (acc : Q * option Candidate) c =>
            let score := if dt_eqb (c_dt c) consensus then c_w c else (c_w c - (5 # 10))%Q in
            if Qltb (fst acc) score then (score, Some c) else acc)
         all_cands (ABSENT, None)).

Definition choose_by_weighted_fields (all_cands : list Candidate)
  : outcome (option datetime * option Candidate) :=
  (* zip( *parts_list) of an empty list has no columns *)
  match vote (match all_cands with [] => [] | _ => columns end) all_cands with
  | None => Return (None, None)
  | Some [y; M; d; h; mm; ss] =>
      match mk_datetime y M d h mm ss with
      | None => choose_by_weighted_whole_string all_cands
      | Some consensus => Return (Some consensus, pick_rep consensus all_cands)
      end
  | Some _ => Raise     (* y, M, d, h, mm, ss = voted *)
  end.

(** ** The OCR pipeline (section 7 of the script) *)

(** A decoded image, as far as the pipeline observes it: what reading the
    variant [vtag] of the region [roi_tag] gives.  It is the text that
    [pytesseract.image_to_string] returns, or [Raise] when an exception
    escapes: from [cv2.resize] in [variant_images], which refuses the empty
    crop that [band[:, : int(W * 0.70)]] is for an image one pixel wide, or
    from the recogniser.  The source catches neither. *)
Definition image := str -> str -> outcome str.

(** An image every pair of which is read, with the text [f roi_tag vtag]. *)
Definition reads (f : str -> str -> str) : image := fun r v => Return (f r v).

Definition ROIS : list str := [lit "full"; lit "left70"; lit "mid60"; lit "right60"].

(** The tags of [variant_images], in the order in which it yields them. *)
Definition VARIANTS : list str :=
  [lit "cubic|otsu_inv"; lit "cubic|blur_otsu_inv"; lit "cubic|morph_inv";
   lit "cubic|adapt_inv"; lit "nearest|otsu_inv"; lit "nearest|adapt_inv"].

Fixpoint collect_variants (img : image) (roi_tag : str) (vtags : list str)
  : outcome (list Candidate) :=
  match vtags with
  | [] => Return []
  | vtag :: vtags' =>
      text <- img roi_tag vtag ;;
      let raw := replace_char "010" " " (strip text) in
      r <- parse_timestamp_flex raw ;;
      cand <- collect_variants img roi_tag vtags' ;;
      match r with
      | Some (dtobj, parts) =>
          Return (Cand dtobj (strftime dtobj) parts raw roi_tag vtag
                       (candidate_weight roi_tag vtag raw) :: cand)
      | None => Return cand
      end
  end.

Definition collect_candidates_from_roi (img : image) (roi_tag : str)
  : outcome (list Candidate) :=
  collect_variants img roi_tag VARIANTS.

Fixpoint collect_all (img : image) (rois : list str) : outcome (list Candidate) :=
  match rois with
  | [] => Return []
  | rtag :: rois' =>
      cs <- collect_candidates_from_roi img rtag ;;
      rest <- collect_all img rois' ;;
      Return (cs ++ rest)
  end.

(** [max(all_cands, key=lambda c: c["w"])]: the first maximal element. *)
Definition max_by_w (all_cands : list Candidate) : outcome Candidate :=
  match all_cands with
  | [] => Raise
  | c :: cs => Return (fold_left (fun best x => if Qltb (c_w best) (c_w x) then x else best) cs c)
  end.

(** The selection at the end of [process_image], from [if not all_cands]. *)
Definition select (all_cands : list Candidate) (elite_margin : Q)
  : outcome (option datetime * str) :=
  match all_cands with
  | [] => Return (None, [])
  | _ =>
      match choose_elite_candidate all_cands elite_margin with
      | Some elite => Return (Some (c_dt elite), c_raw elite)
      | None =>
          r <- choose_by_weighted_fields all_cands ;;
          match r with
          | (None, _) =>
              rep <- max_by_w all_cands ;;
              Return (Some (c_dt rep), c_raw rep)
          | (Some dt_obj, rep) =>
              Return (Some dt_obj, match rep with Some c => c_raw c | None => [] end)
          end
      end
  end.

(** [process_image] without [save_debug]: [decoded] is [None] when
    [cv2.imread] returns [None]. *)
Definition process_image (decoded : option image) (elite_margin : Q)
  : outcome (option datetime * str) :=
  match decoded with
  | None => Return (None, [])
  | Some img =>
      all_cands <- collect_all img ROIS ;;
      select all_cands elite_margin
  end.

(** [process_image] with [save_debug] set.  [written] is what the block
    under the first [if save_debug] does (the directory, the candidate log
    and the band image), which runs once the candidates are collected,
    before the test [if not all_cands]; [written_best] is what writing the
    image of the winner does.  Either is [Raise] when a call in it raises:
    the source catches nothing.  The debug files do not influence the
    result otherwise. *)
Definition select_save_debug (all_cands : list Candidate)
  (written_best : outcome unit) (elite_margin : Q)
  : outcome (option datetime * str) :=
  match all_cands with
  | [] => Return (None, [])
  | _ =>
      match choose_elite_candidate all_cands elite_margin with
      | Some elite =>
          _ <- written_best ;;
          Return (Some (c_dt elite), c_raw elite)
      | None =>
          r <- choose_by_weighted_fields all_cands ;;
          match r with
          | (None, _) =>
              rep <- max_by_w all_cands ;;
              _ <- written_best ;;
              Return (Some (c_dt rep), c_raw rep)
          | (Some dt_obj, Some rep) =>
              _ <- written_best ;;
              Return (Some dt_obj, c_raw rep)
          | (Some dt_obj, None) => Return (Some dt_obj, [])
          end
      end
  end.

Definition process_image_save_debug (decoded : option image)
  (written written_best : outcome unit) (elite_margin : Q)
  : outcome (option datetime * str) :=
  match decoded with
  | None => Return (None, [])
  | Some img =>
      all_cands <- collect_all img ROIS ;;
      _ <- written ;;
      select_save_debug all_cands written_best elite_margin
  end.

(** ** Predicates used in the statements *)

Definition atom_ok (a : atom) (g : str) : Prop :=
  forallb (a_cls a) g = true
  /\ a_lo a <= length g
  /\ match a_hi a with Some m => length g <= m | None => True end.

Inductive seq_ok : list atom -> str -> Prop :=
| seq_ok_nil : seq_ok [] []
| seq_ok_cons a rest g1 g2 :
    atom_ok a g1 -> seq_ok rest g2 -> seq_ok (a :: rest) (g1 ++ g2).

(** The bodies of the capturing groups of a pattern, in order. *)
Fixpoint groups_of (ts : regex) : list (list atom) :=
  match ts with
  | [] => []
  | G body :: ts' => body :: groups_of ts'
  | _ :: ts' => groups_of ts'
  end.

Definition digit_atoms (body : list atom) : Prop :=
  Forall (fun a => forall c, a_cls a c = true -> is_digit c = true) body.

Definition digit_group (body : list atom) : Prop :=
  digit_atoms body /\ exists a rest, body = a :: rest /\ 1 <= a_lo a.

Definition six_digit_groups (pat : regex) : Prop :=
  length (groups_of pat) = 6 /\ Forall digit_group (groups_of pat).

(** The cleaned text of one (ROI, variant) pair, as [collect_candidates_from_roi]
    passes it to the parser, when the pair is read. *)
Definition ocr_text (img : image) (roi_tag vtag : str) : outcome str :=
  text <- img roi_tag vtag ;;
  Return (replace_char "010" " " (strip text)).

(** Every (ROI, variant) pair of the image is read without an exception. *)
Definition readable (img : image) : Prop :=
  forall r v, In r ROIS -> In v VARIANTS -> img r v <> Raise.

(** No (ROI, variant) pair of the image yields a parsed candidate. *)
Definition unparsed (img : image) : Prop :=
  forall r v, In r ROIS -> In v VARIANTS ->
    forall raw x, ocr_text img r v = Return raw ->
                  parse_timestamp_flex raw <> Return (Some x).

Definition garbage_image : image := reads (fun _ _ => lit "8:8 -- 17").

(** An image one pixel wide: the full band is read, with no text, and the
    crop for [left70], which comes next, is empty, so that [cv2.resize]
    raises on it. *)
Definition narrow_image : image := fun r _ =>
  if str_eqb r (lit "full") then Return [] else Raise.

(** [t] comes first when [pre ++ t :: post] is sorted: it is strictly before
    everything to its left in the input, and nothing to its right is
    strictly before it. *)
Definition comes_first {A : Type} (ltb : A -> A -> bool)
  (pre : list A) (t : A) (post : list A) : Prop :=
  (forall x, In x pre -> ltb t x = true)
  /\ (forall x, In x post -> ltb x t = false).

(** Membership of a candidate's tags in the preferred sets. *)
Definition preferred (c : Candidate) : Prop :=
  In (c_roi c) PREFERRED_ROIS /\ In (c_var c) PREFERRED_VARS.

(** The order of [sorted(all_cands, key=lambda c: c["w"], reverse=True)]. *)
Definition heavier_first (a b : Candidate) : bool := Qltb (c_w b) (c_w a).

(** ** Sample inputs used by the examples *)

(** A candidate as [collect_candidates_from_roi] builds it, from the fields
    of a timestamp, the tags, the raw text and a weight. *)
Definition sample_cand (y M d h m s : Z) (roi var raw : string) (w : Q) : Candidate :=
  Cand (DT y M d h m s) (strftime (DT y M d h m s)) (y, M, d, h, m, s)
       (lit raw) (lit roi) (lit var) w.

Definition elite_a : Candidate :=
  sample_cand 2024 8 1 6 31 27 "left70" "cubic|morph_inv" "2024-08-01 06:31:27" (74 # 10).
Definition elite_b : Candidate :=
  sample_cand 2024 8 1 6 31 21 "full" "cubic|otsu_inv" "2024-08-01 06:31:21" (32 # 10).

(** An image whose only readable texts come from the two weakest
    (ROI, variant) pairs. *)
Definition weak_image : image := reads (fun r v =>
  if str_eqb r (lit "mid60") && str_eqb v (lit "nearest|otsu_inv")
  then lit "2024-08-01 06:31:27"
  else if str_eqb r (lit "right60") && str_eqb v (lit "nearest|adapt_inv")
  then lit "2024-08-01 06:31:21"
  else lit "").

Definition weak_cands : list Candidate :=
  Eval vm_compute in
    match collect_all weak_image ROIS with
    | Return cs => cs
    | Raise => []
    end.

(** The runs of dark rows that [find_top_black_banner] examines: those of
    the top quarter of the image. *)
Definition banner_runs (gray : gray_image) : list (Z * Z) :=
  let h := Z.of_nat (length gray) in
  moving_groups (dark_rows (firstn (Z.to_nat (h / 4)) gray) 0).

(** The top 9% of [h] rows, at least 16 rows. *)
Definition fallback_rows (h : Z) : Z := Z.max 16 (9 * h / 100).

(** A bright image of 200 rows. *)
Definition bright_image : gray_image := repeat [255%Z; 255%Z] 200.

(** The weight summed for the value [v]: only the strictly positive weights
    of the entries that carry [v] count. *)
Fixpoint summed_weight (v : Z) (values : list Z) (weights : list Q) : Q :=
  match values, weights with
  | x :: values', w :: weights' =>
      if (x =? v)%Z && Qltb 0 w
      then (w + summed_weight v values' weights')%Q
      else summed_weight v values' weights'
  | _, _ => 0%Q
  end.

(** The value stored for a key of a tally, 0 for an absent key. *)
Fixpoint tally_get {K : Type} (eqb : K -> K -> bool) (k : K) (tally : list (K * Q)) : Q :=
  match tally with
  | [] => 0%Q
  | (k', s) :: tally' => if eqb k' k then s else tally_get eqb k tally'
  end.

(** What the loop of [tally_positive] adds for the key [k]. *)
Fixpoint gain {K : Type} (eqb : K -> K -> bool) (k : K) (kws : list (K * Q)) : Q :=
  match kws with
  | [] => 0%Q
  | kw :: kws' =>
      if eqb (fst kw) k && Qltb 0 (snd kw)
      then (snd kw + gain eqb k kws')%Q
      else gain eqb k kws'
  end.

(** The timestamp of a parse result is the one built from its fields. *)
Definition consistent (r : datetime * parts) : Prop :=
  let '(y, M, d, h, m, s) := snd r in
  valid_datetime y M d h m s = true /\ fst r = DT y M d h m s.

(** The accessors of a timestamp, in the order of [columns]. *)
Definition accessors : list (datetime -> Z) := [year; month; day; hour; minute; second].



(** What [repair_time_triplets] may do to a string: copy a character, or
    drop the first digit of a three-digit run that follows a colon or a
    white-space character and is followed by one or by the end of the
    string, when that digit is 0 or 1 and the other two make a number from
    0 to 59. *)
Inductive repaired : str -> str -> Prop :=
| repaired_nil : repaired [] []
| repaired_keep c s t : repaired s t -> repaired (c :: s) (c :: t)
| repaired_fix b d1 d2 d3 s t :
    colon_or_space b = true ->
    d1 = "0"%char \/ d1 = "1"%char ->
    is_digit d2 = true -> is_digit d3 = true ->
    (0 <= 10 * digit_val d2 + digit_val d3 <= 59)%Z ->
    ahead colon_or_space s = true ->
    repaired s t ->
    repaired (b :: d1 :: d2 :: d3 :: s) (b :: d2 :: d3 :: t).

(** ** Normal forms of [normalize_ocr] *)

(** Replace every maximal run of [p]-characters by the single character
    [r], leaving a lone [p]-character as [r] too: what [re.sub] does for
    [\s+], and for [:{2,}] and [-{2,}] whose only [p]-character is [r]. *)
Fixpoint squeeze (p : ascii -> bool) (r : ascii) (s : str) : str :=
  match s with
  | [] => []
  | c :: s' =>
      if p c then
        match s' with
        | c' :: _ => if p c' then squeeze p r s' else r :: squeeze p r s'
        | [] => [r]
        end
      else c :: squeeze p r s'
  end.

(** No two adjacent characters of [s] both satisfy [p]. *)
Fixpoint noadj (p : ascii -> bool) (s : str) : Prop :=
  match s with
  | a :: s' =>
      match s' with
      | b :: _ => p a && p b = false
      | [] => True
      end /\ noadj p s'
  | [] => True
  end.

(** Neither the first nor the last character is white space. *)
Definition ends_ok (s : str) : Prop :=
  is_space (hd "x"%char s) = false /\ is_space (last s "x"%char) = false.

(** The six letter-to-digit substitutions of [normalize_ocr], on one
    character. *)
Definition confusable (c : ascii) : ascii :=
  fold_left (fun c '(old, new) => if is_char old c then new else c)
            [("O", "0"); ("o", "0"); ("I", "1"); ("l", "1"); ("S", "5"); ("B", "8")]%char
            c.

Definition is_slash (c : ascii) : bool := one_of (lit "/\") c.
Definition is_letter (c : ascii) : bool := one_of (lit "OoIlSB") c.

(** The strings that [normalize_ocr] leaves unchanged. *)
Definition normal_form (s : str) : Prop :=
  Forall (fun c => is_slash c = false) s
  /\ Forall (fun c => is_letter c = false) s
  /\ Forall (fun c => is_space c = true -> c = " "%char) s
  /\ noadj is_space s /\ noadj (is_char ":") s /\ noadj (is_char "-") s
  /\ ends_ok s.

(** ** A run of the matcher without backtracking

    [greedy_toks] takes for every class the first repetition count that the
    matcher tries and never comes back to it.  When it succeeds the
    backtracking matcher returns the same match. *)

Fixpoint greedy_seq (atoms : list atom) (s : str) : option (str * str) :=
  match atoms with
  | [] => Some ([], s)
  | a :: rest =>
      match counts a s with
      | [] => None
      | n :: _ =>
          match greedy_seq rest (skipn n s) with
          | Some (g, s') => Some (firstn n s ++ g, s')
          | None => None
          end
      end
  end.

Fixpoint greedy_toks (ts : regex) (s : str) (caps : list str) : option (list str * str) :=
  match ts with
  | [] => Some (caps, s)
  | T a :: ts' =>
      match greedy_seq [a] s with
      | Some (_, s') => greedy_toks ts' s' caps
      | None => None
      end
  | G body :: ts' =>
      match greedy_seq body s with
      | Some (g, s') => greedy_toks ts' s' (caps ++ [g])
      | None => None
      end
  | Ahead p :: ts' => if ahead p s then greedy_toks ts' s caps else None
  | Eol :: ts' => if at_eol s then greedy_toks ts' s caps else None
  end.

(** The non-empty suffixes of a string. *)
Fixpoint tails (s : str) : list str :=
  match s with
  | [] => []
  | _ :: s' => s :: tails s'
  end.

(** The string [20ab-cd-ef gh:ij:kl] for twelve characters. *)
Definition canonical (y3 y4 mo1 mo2 dy1 dy2 hr1 hr2 mi1 mi2 sc1 sc2 : ascii) : str :=
  ["2"; "0"; y3; y4; "-"; mo1; mo2; "-"; dy1; dy2; " ";
   hr1; hr2; ":"; mi1; mi2; ":"; sc1; sc2]%char.

(** ** Weights as binary64 numbers

    Python's [float] is the IEEE 754 binary64 format, and [SpecFloat] gives
    its values and its operations, each rounded to the nearest double with
    ties to even.  This module repeats the weight tables, the weight of a
    candidate, the collection, the per-field vote and the whole-string
    fallback with these numbers, the doubles that the script holds, where
    the definitions on [Q] above compute with the decimals that the source
    writes. *)
Module Binary64.

Definition float := spec_float.
Definition prec : Z := 53%Z.
Definition emax : Z := 1024%Z.

(** [0.0], [x + y], [x - y], [-x], [x < y] and [x == y] *)
Definition zero : float := S754_zero false.
Definition add (x y : float) : float := SFadd prec emax x y.
Definition sub (x y : float) : float := SFsub prec emax x y.
Definition neg (x : float) : float := SFopp x.
Definition ltb (x y : float) : bool := SFltb x y.
Definition eqb (x y : float) : bool := SFeqb x y.

(** The literal with one decimal that the source writes for [k/10]: the
    double nearest to [k/10]. *)
Definition tenths (k : Z) : float :=
  SFdiv prec emax (binary_normalize prec emax k 0 false)
                  (binary_normalize prec emax 10 0 false).

(** The number that a double stands for ([0] for an infinity or a NaN). *)
Definition exact (x : float) : Q :=
  match x with
  | S754_finite s m e => (inject_Z (cond_Zopp s (Zpos m)) * Qpower 2 e)%Q
  | _ => 0%Q
  end.

Fixpoint dict_get (d : list (str * float)) (key : str) (default : float) : float :=
  match d with
  | [] => default
  | (k, v) :: d' => if str_eqb k key then v else dict_get d' key default
  end.

Definition ROI_WEIGHT : list (str * float) :=
  [(lit "left70", tenths 32); (lit "full", tenths 14);
   (lit "mid60", neg (tenths 10)); (lit "right60", neg (tenths 15))].

Definition VARIANT_WEIGHT : list (str * float) :=
  [(lit "cubic|morph_inv", tenths 36);
   (lit "cubic|blur_otsu_inv", tenths 24);
   (lit "cubic|otsu_inv", tenths 12);
   (lit "cubic|adapt_inv", tenths 8);
   (lit "nearest|otsu_inv", neg (tenths 10));
   (lit "nearest|adapt_inv", neg (tenths 12))].

Definition rough_layout_bonus (raw : str) : float :=
  let t := normalize_ocr raw in
  let c := count_char ":" t in
  let bonus := zero in
  let bonus := if (2 <=? c) && (c <=? 3) then add bonus (tenths 4) else bonus in
  let bonus := if is_some (re_search RESIDUAL_TRIPLET t) then sub bonus (tenths 6) else bonus in
  let bonus := if is_some (re_search TIME_TAIL t) then add bonus (tenths 2) else bonus in
  bonus.

Definition candidate_weight (roi_tag var_tag raw : str) : float :=
  let base := add (dict_get ROI_WEIGHT roi_tag zero) (dict_get VARIANT_WEIGHT var_tag zero) in
  add base (rough_layout_bonus raw).

Record Candidate := Cand {
  c_dt : datetime;
  c_canon : str;
  c_parts : parts;
  c_raw : str;
  c_roi : str;
  c_var : str;
  c_w : float
}.

Fixpoint collect_variants (img : image) (roi_tag : str) (vtags : list str)
  : outcome (list Candidate) :=
  match vtags with
  | [] => Return []
  | vtag :: vtags' =>
      text <- img roi_tag vtag ;;
      let raw := replace_char "010" " " (strip text) in
      r <- parse_timestamp_flex raw ;;
      cand <- collect_variants img roi_tag vtags' ;;
      match r with
      | Some (dtobj, parts) =>
          Return (Cand dtobj (strftime dtobj) parts raw roi_tag vtag
                       (candidate_weight roi_tag vtag raw) :: cand)
      | None => Return cand
      end
  end.

Definition collect_candidates_from_roi (img : image) (roi_tag : str)
  : outcome (list Candidate) :=
  collect_variants img roi_tag VARIANTS.

Fixpoint collect_all (img : image) (rois : list str) : outcome (list Candidate) :=
  match rois with
  | [] => Return []
  | rtag :: rois' =>
      cs <- collect_candidates_from_roi img rtag ;;
      rest <- collect_all img rois' ;;
      Return (cs ++ rest)
  end.

(** [tally[k] += w] on a [defaultdict(float)]: a new key starts from the
    default [0.0]. *)
Section Tally.
Context {K : Type} (key_eqb : K -> K -> bool).

Fixpoint tally_add (k : K) (w : float) (tally : list (K * float)) : list (K * float) :=
  match tally with
  | [] => [(k, add zero w)]
  | (k', s) :: tally' =>
      if key_eqb k' k then (k', add s w) :: tally'
      else (k', s) :: tally_add k w tally'
  end.

(** The loop [for k, w in ...: if w > 0: tally[k] += w]. *)
Definition tally_positive (kws : list (K * float)) : list (K * float) :=
  fold_left (fun tally kw => if ltb zero (snd kw) then tally_add (fst kw) (snd kw) tally else tally)
            kws [].

(** The sort key [(-kv[1], kv[0])]: Python compares two tuples at their
    first components that are not [==]. *)
Definition by_weight_then_key (key_ltb : K -> K -> bool) (a b : K * float) : bool :=
  if eqb (neg (snd a)) (neg (snd b)) then key_ltb (fst a) (fst b)
  else ltb (neg (snd a)) (neg (snd b)).

(** What the loop of [tally_positive] leaves under the key [k], when it
    starts with [acc] there: the strictly positive weights given for [k],
    added one after the other, in the order of the list. *)
Fixpoint accumulated (k : K) (kws : list (K * float)) (acc : float) : float :=
  match kws with
  | [] => acc
  | kw :: kws' =>
      accumulated k kws'
        (if key_eqb (fst kw) k && ltb zero (snd kw) then add acc (snd kw) else acc)
  end.

(** The value stored for a key of a tally, [0.0] for an absent key. *)
Fixpoint tally_get (k : K) (tally : list (K * float)) : float :=
  match tally with
  | [] => zero
  | (k', s) :: tally' => if key_eqb k' k then s else tally_get k tally'
  end.
End Tally.

Definition weighted_mode (values : list Z) (weights : list float) : option Z :=
  let tally := tally_positive Z.eqb (combine values weights) in
  match sorted (by_weight_then_key Z.ltb) tally with
  | [] => None
  | kv :: _ => Some (fst kv)
  end.

(** The loop [for col in fields] of [choose_by_weighted_fields]. *)
Fixpoint vote (cols : list (parts -> Z)) (all_cands : list Candidate) : option (list Z) :=
  match cols with
  | [] => Some []
  | col :: cols' =>
      match weighted_mode (map (fun c => col (c_parts c)) all_cands) (map c_w all_cands) with
      | None => None
      | Some v => option_map (cons v) (vote cols' all_cands)
      end
  end.

(** The sum that [weighted_mode] holds for the value [v] when it sorts:
    the strictly positive weights of the entries that carry [v], added to
    [0.0] one after the other, each addition rounded. *)
Definition summed_weight (v : Z) (values : list Z) (weights : list float) : float :=
  accumulated Z.eqb v (combine values weights) zero.

(** The same weights added as numbers, without rounding. *)
Fixpoint exact_sum (v : Z) (values : list Z) (weights : list float) : Q :=
  match values, weights with
  | x :: values', w :: weights' =>
      if (x =? v)%Z && ltb zero w
      then (exact w + exact_sum v values' weights')%Q
      else exact_sum v values' weights'
  | _, _ => 0%Q
  end.

(** [v] wins the weighted vote on the field [col]: a candidate of strictly
    positive weight carries it, the sum of no value is greater than its
    sum, and a value with positive support and an equal sum is not
    smaller. *)
Definition field_winner (all_cands : list Candidate) (col : parts -> Z) (v : Z) : Prop :=
  let values := map (fun c => col (c_parts c)) all_cands in
  let weights := map c_w all_cands in
  (exists c, In c all_cands /\ col (c_parts c) = v /\ ltb zero (c_w c) = true)
  /\ (forall v', ltb (summed_weight v values weights) (summed_weight v' values weights) = false)
  /\ (forall c', In c' all_cands -> ltb zero (c_w c') = true ->
        eqb (summed_weight (col (c_parts c')) values weights)
            (summed_weight v values weights) = true ->
        (v <= col (c_parts c'))%Z).

(** The whole-string fallback. *)
Definition choose_by_weighted_whole_string (all_cands : list Candidate)
  : outcome (option datetime * option Candidate) :=
  let by_key := tally_positive str_eqb (map (fun c => (c_canon c, c_w c)) all_cands) in
  match by_key with
  | [] => Return (None, None)
  | _ =>
      best <- first_of (sorted (by_weight_then_key str_ltb) by_key) ;;
      let best_key := fst best in
      let reps := filter (fun c => str_eqb (c_canon c) best_key) all_cands in
      rep <- first_of (sorted (fun a b : Candidate =>
                                 by_weight_then_key str_ltb (c_roi a, c_w a) (c_roi b, c_w b))
                              reps) ;;
      Return (Some (c_dt rep), Some rep)
  end.

(** The sum that the whole-string fallback holds for the canonical string
    [k] when it sorts. *)
Definition canon_weight (k : str) (all_cands : list Candidate) : float :=
  accumulated str_eqb k (map (fun c => (c_canon c, c_w c)) all_cands) zero.

Definition is_nan (x : float) : bool :=
  match x with S754_nan => true | _ => false end.

Definition is_finite (x : float) : bool :=
  match x with S754_zero _ | S754_finite _ _ _ => true | _ => false end.

(** Zero, the positive doubles and the positive infinity. *)
Definition nonneg (x : float) : bool :=
  match x with
  | S754_zero false | S754_finite false _ _ | S754_infinity false => true
  | _ => false
  end.

(** The place of a double in the order of the doubles, read off its
    representation: class, then exponent, then mantissa. *)
Definition rank (x : float) : Z * Z * Z :=
  match x with
  | S754_infinity true => (-2, 0, 0)%Z
  | S754_finite true m e => (-1, - e, Zneg m)%Z
  | S754_finite false m e => (1, e, Zpos m)%Z
  | S754_infinity false => (2, 0, 0)%Z
  | _ => (0, 0, 0)%Z
  end.

Definition rank_ltb (a b : Z * Z * Z) : bool :=
  let '(a1, a2, a3) := a in
  let '(b1, b2, b3) := b in
  ((a1 <? b1) || ((a1 =? b1) && ((a2 <? b2) || ((a2 =? b2) && (a3 <? b3)))))%Z.

Definition rank_eqb (a b : Z * Z * Z) : bool :=
  let '(a1, a2, a3) := a in
  let '(b1, b2, b3) := b in
  ((a1 =? b1) && (a2 =? b2) && (a3 =? b3))%Z.

(** The order of [by_weight_then_key] on doubles that are not NaN. *)
Definition by_rank_then_key {K : Type} (key_ltb : K -> K -> bool) (a b : K * float) : bool :=
  if rank_eqb (rank (snd a)) (rank (snd b)) then key_ltb (fst a) (fst b)
  else rank_ltb (rank (snd b)) (rank (snd a)).

(** Three readings of one image: the sums for the seconds 27 and 28 are
    the same double, but not the same number. *)
Definition rounding_image : image := reads (fun r v =>
  if str_eqb r (lit "mid60") && str_eqb v (lit "cubic|morph_inv")
  then lit "2024-08-01 06:31:27"
  else if str_eqb v (lit "cubic|adapt_inv") && (str_eqb r (lit "full") || str_eqb r (lit "mid60"))
  then lit "2024-08-01 06:31:28"
  else lit "").

Definition rounding_cands : list Candidate :=
  Eval vm_compute in
    match collect_all rounding_image ROIS with
    | Return cs => cs
    | Raise => []
    end.

(** Two readings whose weights are both 3.2 in decimals, and two different
    doubles. *)
Definition tie_image : image := reads (fun r v =>
  if str_eqb r (lit "full") && str_eqb v (lit "cubic|otsu_inv")
  then lit "2024-08-01 06:31:27"
  else if str_eqb r (lit "mid60") && str_eqb v (lit "cubic|morph_inv")
  then lit "2024-08-01 06:31:28"
  else lit "").

Definition tie_cands : list Candidate :=
  Eval vm_compute in
    match collect_all tie_image ROIS with
    | Return cs => cs
    | Raise => []
    end.

End Binary64.

(** The candidates of [Binary64.tie_image] with decimal weights. *)
Definition decimal_tie_cands : list Candidate :=
  Eval vm_compute in
    match collect_all Binary64.tie_image ROIS with
    | Return cs => cs
    | Raise => []
    end.

(** ** Predicates used in the further properties *)

(** The year of a parse result lies in the century the patterns accept. *)
Definition in_century (r : datetime * parts) : Prop :=
  (2000 <= fld1 (snd r) <= 2099)%Z.

(** What every output of [normalize_ocr] looks like: no slash, none of the
    six confusable letters, no white space but single blanks, and no two
    colons or two dashes in a row. *)
Definition tidy (s : str) : Prop :=
  Forall (fun c => is_slash c = false /\ is_letter c = false
                   /\ (is_space c = true -> c = " "%char)) s
  /\ noadj is_space s /\ noadj (is_char ":") s /\ noadj (is_char "-") s.

(** [n] digits and then a colon, a white-space character or the end of the
    string: what [TRIPLET_FIELD] asks of the text after its first
    character, for [n = 3]. *)
Fixpoint digits_then_sep (n : nat) (s : str) : bool :=
  match n with
  | O => ahead colon_or_space s
  | S m =>
      match s with
      | c :: s' => is_digit c && digits_then_sep m s'
      | [] => false
      end
  end.

(** The indices of a run [(start, prev)]: [start, start + 1, ..., prev]. *)
Definition span (g : Z * Z) : list Z :=
  map (fun k => fst g + Z.of_nat k)%Z (seq 0 (Z.to_nat (snd g - fst g + 1))).

(** No run of the list is continued by the run that follows it. *)
Fixpoint separate (gs : list (Z * Z)) : Prop :=
  match gs with
  | g :: tl =>
      match tl with
      | g' :: _ => fst g' <> (snd g + 1)%Z
      | [] => True
      end /\ separate tl
  | [] => True
  end.

(** The run [g'] lies below the run [g], with at least one row between. *)
Definition run_before (g g' : Z * Z) : Prop := (snd g + 1 < fst g')%Z.

(** An image of 80 rows whose first twelve rows are black. *)
Definition banner_image : gray_image :=
  repeat [0%Z; 0%Z] 12 ++ repeat [255%Z; 255%Z] 68.

(** The score of a candidate in the loop that picks the representative of a
    consensus: its weight, less 0.5 when its timestamp is not the
    consensus. *)
Definition rep_score (consensus : datetime) (c : Candidate) : Q :=
  if dt_eqb (c_dt c) consensus then c_w c else (c_w c - (5 # 10))%Q.

(** An image on which every region and variant reads the same text. *)
Definition steady_image : image := reads (fun _ _ => lit "2024-08-01 06:31:27").

Definition steady_cands : list Candidate :=
  Eval vm_compute in
    match collect_all steady_image ROIS with
    | Return cs => cs
    | Raise => []
    end.

(** A candidate as [collect_candidates_from_roi] builds it from the image
    [img]: its tags name a region and a variant, its raw text is the OCR
    text of that pair, its timestamp and fields are the parse of that text,
    and its canonical string and weight are computed from them. *)
Definition candidate_of (img : image) (c : Candidate) : Prop :=
  In (c_roi c) ROIS /\ In (c_var c) VARIANTS
  /\ ocr_text img (c_roi c) (c_var c) = Return (c_raw c)
  /\ parse_timestamp_flex (c_raw c) = Return (Some (c_dt c, c_parts c))
  /\ c_canon c = strftime (c_dt c)
  /\ c_w c = candidate_weight (c_roi c) (c_var c) (c_raw c).

(** [key(a) < key(b)] for a sort key [(-f(x), g(x))], as Python compares
    tuples: the sort keys of the whole-string fallback have this shape. *)
Definition by_key_pair {A K : Type} (f : A -> Q) (g : A -> K)
  (key_ltb : K -> K -> bool) (a b : A) : bool :=
  Qltb (- f a) (- f b) || (Qeq_bool (- f a) (- f b) && key_ltb (g a) (g b)).

(** The layout bonus for the three tests of [rough_layout_bonus], in
    decimals and in binary64. *)
Definition bonus_of (a b c : bool) : Q * Binary64.float :=
  (let bonus := 0%Q in
   let bonus := if a then (bonus + (4 # 10))%Q else bonus in
   let bonus := if b then (bonus - (6 # 10))%Q else bonus in
   let bonus := if c then (bonus + (2 # 10))%Q else bonus in
   bonus,
   let bonus := Binary64.zero in
   let bonus := if a then Binary64.add bonus (Binary64.tenths 4) else bonus in
   let bonus := if b then Binary64.sub bonus (Binary64.tenths 6) else bonus in
   let bonus := if c then Binary64.add bonus (Binary64.tenths 2) else bonus in
   bonus).

(** What the two tables and the bonus can give, and every weight that
    comes of them, each in decimals and in binary64. *)
Definition roi_cases : list (Q * Binary64.float) :=
  combine (map snd ROI_WEIGHT ++ [0%Q]) (map snd Binary64.ROI_WEIGHT ++ [Binary64.zero]).

Definition variant_cases : list (Q * Binary64.float) :=
  combine (map snd VARIANT_WEIGHT ++ [0%Q])
          (map snd Binary64.VARIANT_WEIGHT ++ [Binary64.zero]).

Definition bonus_cases : list (Q * Binary64.float) :=
  [bonus_of false false false; bonus_of false false true;
   bonus_of false true false; bonus_of false true true;
   bonus_of true false false; bonus_of true false true;
   bonus_of true true false; bonus_of true true true].

Definition weight_of (r v b : Q * Binary64.float) : Q * Binary64.float :=
  ((fst r + fst v + fst b)%Q, Binary64.add (Binary64.add (snd r) (snd v)) (snd b)).

Definition weight_cases : list (Q * Binary64.float) :=
  flat_map (fun r => flat_map (fun v => map (weight_of r v) bonus_cases) variant_cases)
           roi_cases.

(** A decimal weight between -3.3 and 7.4 and a finite double within
    1.1e-15 of it. *)
Definition close_weights (qw : Q * Binary64.float) : bool :=
  Qle_bool (- (33 # 10)) (fst qw) && Qle_bool (fst qw) (74 # 10)
  && Binary64.is_finite (snd qw)
  && Qle_bool (- (11 # 10000000000000000)) (Binary64.exact (snd qw) - fst qw)
  && Qle_bool (Binary64.exact (snd qw) - fst qw) (11 # 10000000000000000).

(** A double above 0.0 that stands for 3.1999999999999997 at least. *)
Definition heavy_weight (qw : Q * Binary64.float) : bool :=
  Binary64.ltb Binary64.zero (snd qw)
  && Qle_bool (31999999999999997 # 10000000000000000) (Binary64.exact (snd qw)).

(** [u] is [l] with some of its elements left out. *)
Inductive subseq {A : Type} : list A -> list A -> Prop :=
| subseq_nil : subseq [] []
| subseq_skip x u l : subseq u l -> subseq u (x :: l)
| subseq_take x u l : subseq u l -> subseq (x :: u) (x :: l).

(** The six fields of a parse result, and the number of digits that the
    patterns allow for each: four for the year, one or two for the hour,
    two for the others. *)
Definition fields (p : parts) : list Z :=
  [fld1 p; fld2 p; fld3 p; fld4 p; fld5 p; fld6 p].

Definition field_widths : list (nat * nat) :=
  [(4, 4); (2, 2); (2, 2); (1, 2); (2, 2); (2, 2)].

(** The fields [p] are read from the digits [digits]: there are six digit
    strings that stand in [digits] in this order (other digits may stand
    before, between and after them), of the widths above, of which the
    fields are the values. *)
Definition read_from (digits : str) (p : parts) : Prop :=
  exists gs : list str,
    subseq (concat gs) digits
    /\ Forall2 (fun g v => int_of g = Return v) gs (fields p)
    /\ Forall2 (fun g (w : nat * nat) => fst w <= length g <= snd w) gs field_widths.



(** Four readings of one image, three of them for the second 28, and its
    candidates with the last two in the other order. *)
Definition order_image : image := reads (fun r v =>
  if str_eqb r (lit "full") && str_eqb v (lit "cubic|morph_inv")
  then lit "2024-08-01 06:31:27"
  else if (str_eqb r (lit "full") && str_eqb v (lit "nearest|adapt_inv"))
          || (str_eqb r (lit "left70") && str_eqb v (lit "nearest|otsu_inv"))
          || (str_eqb r (lit "mid60") && str_eqb v (lit "cubic|blur_otsu_inv"))
  then lit "2024-08-01 06:31:28"
  else lit "").

Definition order_cands : list Binary64.Candidate :=
  Eval vm_compute in
    match Binary64.collect_all order_image ROIS with
    | Return cs => cs
    | Raise => []
    end.

Definition reordered_cands : list Binary64.Candidate :=
  Eval vm_compute in
    match order_cands with
    | [a; b; c; d] => [a; b; d; c]
    | cs => cs
    end.

(** * Properties *)

(** ** The matcher only returns what the pattern describes *)

Lemma first_some_Some {A B : Type} (f : A -> option B) l r :
  first_some f l = Some r -> exists x, In x l /\ f x = Some r.
Proof.
  induction l as [|x l IH]; simpl; [discriminate|].
  destruct (f x) eqn:E.
  - intros [= <-]. exists x. auto.
  - intros H. destruct (IH H) as (y & Hy & Hf). exists y. auto.
Qed.

Lemma run_len_le p s : run_len p s <= length s.
Proof. induction s as [|c s IH]; simpl; [lia|]. destruct (p c); simpl; lia. Qed.

Lemma run_len_firstn p s n :
  n <= run_len p s -> forallb p (firstn n s) = true.
Proof.
  revert n. induction s as [|c s IH]; intros [|n]; simpl; auto.
  destruct (p c); simpl; [|lia]. intros H. apply IH. lia.
Qed.

Lemma counts_spec a s n :
  In n (counts a s) ->
  atom_ok a (firstn n s) /\ n <= length s.
Proof.
  unfold counts, atom_ok. intros H.
  assert (Hin : In n (seq (a_lo a)
                        (S (match a_hi a with
                            | Some m => Nat.min m (run_len (a_cls a) s)
                            | None => run_len (a_cls a) s
                            end) - a_lo a))).
  { destruct (a_lazy a); [exact H | now apply in_rev]. }
  clear H. apply in_seq in Hin.
  pose proof (run_len_le (a_cls a) s) as Hle.
  assert (Hn : n <= run_len (a_cls a) s) by (destruct (a_hi a); lia).
  split; [|lia].
  rewrite length_firstn, Nat.min_l by lia.
  repeat split; [now apply run_len_firstn | lia | destruct (a_hi a); lia].
Qed.

Lemma m_seq_sound {R : Type} atoms : forall s (k : str -> str -> option R) r,
  m_seq atoms s k = Some r ->
  exists g s', s = g ++ s' /\ seq_ok atoms g /\ k g s' = Some r.
Proof.
  induction atoms as [|a rest IH]; simpl; intros s k r H.
  - exists [], s. repeat split; [constructor | exact H].
  - apply first_some_Some in H. destruct H as (n & Hn & H).
    apply counts_spec in Hn. destruct Hn as [Hok _].
    apply IH in H. destruct H as (g & s' & Hs & Hg & Hk).
    exists (firstn n s ++ g), s'. repeat split.
    + rewrite <- app_assoc, <- Hs. symmetry. apply firstn_skipn.
    + now constructor.
    + exact Hk.
Qed.

Lemma m_toks_sound {R : Type} ts : forall s caps (k : list str -> str -> option R) r,
  m_toks ts s caps k = Some r ->
  exists caps' g s',
    s = g ++ s' /\ Forall2 seq_ok (groups_of ts) caps'
    /\ k (caps ++ caps') s' = Some r.
Proof.
  induction ts as [|t ts IH]; intros s caps k r H.
  - exists [], [], s. rewrite app_nil_r. repeat split; [constructor | exact H].
  - destruct t as [a | body | p | ]; cbn [m_toks groups_of] in *.
    + apply m_seq_sound in H. destruct H as (g & s1 & Hs & _ & H).
      apply IH in H. destruct H as (caps' & g' & s' & Hs1 & Hc & Hk).
      exists caps', (g ++ g'), s'. rewrite <- app_assoc, <- Hs1. auto.
    + apply m_seq_sound in H. destruct H as (g & s1 & Hs & Hg & H).
      apply IH in H. destruct H as (caps' & g' & s' & Hs1 & Hc & Hk).
      exists (g :: caps'), (g ++ g'), s'. rewrite <- app_assoc, <- Hs1.
      repeat split; [exact Hs | now constructor |].
      rewrite <- app_assoc in Hk. exact Hk.
    + destruct (ahead p s); [|discriminate]. apply IH in H.
      destruct H as (caps' & g' & s' & Hs1 & Hc & Hk). exists caps', g', s'. auto.
    + destruct (at_eol s); [|discriminate]. apply IH in H.
      destruct H as (caps' & g' & s' & Hs1 & Hc & Hk). exists caps', g', s'. auto.
Qed.

Lemma re_match_sound pat s caps n :
  re_match pat s = Some (caps, n) ->
  Forall2 seq_ok (groups_of pat) caps /\ n <= length s.
Proof.
  unfold re_match. intros H. apply m_toks_sound in H.
  destruct H as (caps' & g & s' & Hs & Hc & [= <- <-]). simpl.
  split; [exact Hc | lia].
Qed.

Lemma search_from_sound pat : forall s i b e caps,
  search_from pat s i = Some (b, e, caps) ->
  Forall2 seq_ok (groups_of pat) caps.
Proof.
  induction s as [|c s IH]; simpl; intros i b e caps.
  - destruct (re_match pat []) as [[caps0 n]|] eqn:E; [|discriminate].
    intros [= <- <- <-]. now apply re_match_sound in E.
  - destruct (re_match pat (c :: s)) as [[caps0 n]|] eqn:E.
    + intros [= <- <- <-]. now apply re_match_sound in E.
    + apply IH.
Qed.

Lemma re_search_sound pat s b e caps :
  re_search pat s = Some (b, e, caps) ->
  Forall2 seq_ok (groups_of pat) caps.
Proof. apply search_from_sound. Qed.

(** Groups made of digit classes capture non-empty digit strings, on which
    [int] does not raise. *)

Lemma seq_ok_digits body g :
  digit_atoms body -> seq_ok body g -> forallb is_digit g = true.
Proof.
  intros Hb Hg. induction Hg as [|a rest g1 g2 Ha Hg IH]; [reflexivity|].
  inversion Hb as [|? ? Hc Hrest]; subst.
  rewrite forallb_app, IH by assumption. rewrite andb_true_r.
  destruct Ha as [Ha _]. rewrite forallb_forall in Ha |- *.
  intros c Hin. apply Hc, Ha, Hin.
Qed.

Lemma seq_ok_length_pos a rest g :
  1 <= a_lo a -> seq_ok (a :: rest) g -> g <> [].
Proof.
  intros Hlo Hg. inversion Hg as [|? ? g1 g2 Ha Hr]; subst.
  destruct Ha as (_ & Hlen & _). destruct g1; simpl in *; [lia | discriminate].
Qed.

Lemma int_of_digits g :
  forallb is_digit g = true -> g <> [] -> exists z, int_of g = Return z.
Proof.
  intros Hd Hne. unfold int_of. destruct g; [congruence|]. rewrite Hd. eauto.
Qed.

Lemma is_char_eq x c : is_char x c = true -> c = x.
Proof. unfold is_char. apply Ascii.eqb_eq. Qed.

Lemma digit_atoms_YEAR : digit_atoms YEAR.
Proof.
  repeat constructor; simpl; intros c H; try exact H;
    apply is_char_eq in H; subst; reflexivity.
Qed.

Lemma digit_atoms_D2 : digit_atoms D2.
Proof. repeat constructor; simpl; intros c H; exact H. Qed.

Lemma digit_atoms_hour : digit_atoms [rep is_digit 1 2].
Proof. repeat constructor; simpl; intros c H; exact H. Qed.

Lemma int_of_group body g :
  digit_atoms body ->
  (exists a rest, body = a :: rest /\ 1 <= a_lo a) ->
  seq_ok body g -> exists z, int_of g = Return z.
Proof.
  intros Hb (a & rest & -> & Hlo) Hg. apply int_of_digits.
  - eapply seq_ok_digits; eauto.
  - eapply seq_ok_length_pos; eauto.
Qed.

(** ** Evaluating the matcher on strings with unknown digits *)

Lemma digit_cases c :
  is_digit c = true ->
  In c (lit "0123456789").
Proof.
  destruct c as [[] [] [] [] [] [] [] []]; intros H; try discriminate H;
    vm_compute; tauto.
Qed.

Lemma digit_not_space c : is_digit c = true -> is_space c = false.
Proof.
  intros H. apply digit_cases in H. simpl in H.
  repeat (destruct H as [<- | H]; [reflexivity|]). destruct H.
Qed.

Lemma digit_not_char x c :
  is_digit c = true -> is_digit x = false -> is_char x c = false.
Proof.
  intros Hc Hx. unfold is_char. apply Ascii.eqb_neq. intros ->. congruence.
Qed.

Ltac closed_test t :=
  let v := eval vm_compute in t in
  match v with
  | true => change t with true
  | false => change t with false
  end.

Ltac test_step :=
  match goal with
  | H : is_digit ?c = _ |- context [is_digit ?c] => rewrite H
  | H : is_space ?c = _ |- context [is_space ?c] => rewrite H
  | H : is_char ?x ?c = _ |- context [is_char ?x ?c] => rewrite H
  | H : is_digit ?c = true |- context [is_space ?c] =>
      rewrite (digit_not_space c H)
  | H : is_digit ?c = true |- context [is_char ?x ?c] =>
      rewrite (digit_not_char x c H eq_refl)
  | |- context [is_digit ?c] => closed_test (is_digit c)
  | |- context [is_space ?c] => closed_test (is_space c)
  | |- context [is_char ?x ?c] => closed_test (is_char x c)
  end.

Ltac re_cbn :=
  cbn [re_match re_search search_from sub_go re_sub m_toks m_seq first_some
       counts run_len a_cls a_lo a_hi a_lazy one rep rep_lazy at_least star
       at_eol ahead non_digit any_char one_of colon_or_space existsb
       seq rev app Nat.min Nat.sub Nat.add skipn firstn length forallb
       negb andb orb fst snd group nth lit list_ascii_of_string];
  unfold non_digit, any_char, colon_or_space, one_of;
  cbn [existsb negb andb orb lit list_ascii_of_string].

Ltac re_eval := re_cbn; repeat (test_step; re_cbn).

(** [_pairify] does not raise on what [(\d\D?\d)] captures. *)
Lemma _pairify_returns g :
  seq_ok [one is_digit; rep non_digit 0 1; one is_digit] g ->
  exists z, _pairify g = Return z.
Proof.
  intros H.
  inversion H as [|? ? g1 r1 (H1 & L1 & U1) Hr1]; subst; clear H.
  inversion Hr1 as [|? ? g2 r2 (H2 & L2 & U2) Hr2]; subst; clear Hr1.
  inversion Hr2 as [|? ? g3 r3 (H3 & L3 & U3) Hr3]; subst; clear Hr2.
  inversion Hr3; subst; clear Hr3.
  simpl in *.
  destruct g1 as [|d1 [|? ?]]; simpl in *; try lia.
  destruct g3 as [|d2 [|? ?]]; simpl in *; try lia.
  rewrite andb_true_r in H1, H3.
  destruct g2 as [|x [|? ?]]; simpl in *; try lia.
  - unfold _pairify, PAIRIFY. re_eval. unfold int_of. re_eval. eauto.
  - rewrite andb_true_r in H2. apply negb_true_iff in H2.
    unfold _pairify, PAIRIFY.
    destruct (is_space x) eqn:Hx; re_eval; unfold int_of; re_eval; eauto.
Qed.

(** ** The parser never raises *)

Lemma digit_group_YEAR : digit_group YEAR.
Proof. split; [apply digit_atoms_YEAR | do 2 eexists; split; [reflexivity | simpl; lia]]. Qed.

Lemma digit_group_D2 : digit_group D2.
Proof. split; [apply digit_atoms_D2 | do 2 eexists; split; [reflexivity | simpl; lia]]. Qed.

Lemma digit_group_hour : digit_group [rep is_digit 1 2].
Proof. split; [apply digit_atoms_hour | do 2 eexists; split; [reflexivity | simpl; lia]]. Qed.

Create HintDb digits.
#[local] Hint Resolve digit_group_YEAR digit_group_D2 digit_group_hour : digits.

Lemma int_of_digit_group body g :
  digit_group body -> seq_ok body g -> exists z, int_of g = Return z.
Proof. intros [Hd He]. now apply int_of_group. Qed.

Lemma groups_int bodies caps :
  Forall digit_group bodies -> Forall2 seq_ok bodies caps ->
  Forall (fun g => exists z, int_of g = Return z) caps.
Proof.
  intros Hb Hc. induction Hc as [|body g bodies caps Hg Hc IH]; constructor.
  - inversion Hb; subst. eapply int_of_digit_group; eauto.
  - apply IH. now inversion Hb.
Qed.

Lemma fields_of_groups_returns bodies caps :
  length bodies = 6 -> Forall digit_group bodies ->
  Forall2 seq_ok bodies caps ->
  exists r, fields_of_groups caps = Return r.
Proof.
  intros Hlen Hb Hc. pose proof (groups_int _ _ Hb Hc) as Hi.
  apply Forall2_length in Hc. rewrite Hlen in Hc.
  destruct caps as [|g1 [|g2 [|g3 [|g4 [|g5 [|g6 [|? ?]]]]]]]; try discriminate Hc.
  repeat match goal with
         | H : Forall _ (_ :: _) |- _ => inversion H as [|? ? [? ?] ?]; subst; clear H
         end.
  unfold fields_of_groups, group. cbn [nth Nat.sub].
  repeat match goal with H : int_of _ = Return _ |- _ => rewrite H; clear H end.
  cbn [bind]. eauto.
Qed.

Lemma parse_with_returns pat t :
  six_digit_groups pat -> exists r, parse_with pat t = Return r.
Proof.
  intros [Hlen Hb]. unfold parse_with.
  destruct (re_search pat t) as [[[b e] caps]|] eqn:E; [|eauto].
  apply re_search_sound in E. eapply fields_of_groups_returns; eauto.
Qed.

Ltac six_groups :=
  split; [reflexivity | cbn [groups_of]; repeat apply Forall_cons; auto with digits].

Lemma six_FLEX_PAT : six_digit_groups FLEX_PAT.
Proof. unfold FLEX_PAT. six_groups. Qed.

Lemma six_DATE_THEN_TIME_1OR2H : six_digit_groups DATE_THEN_TIME_1OR2H.
Proof. unfold DATE_THEN_TIME_1OR2H. six_groups. Qed.

Lemma six_TS_PATTERNS : Forall six_digit_groups TS_PATTERNS.
Proof. unfold TS_PATTERNS. repeat apply Forall_cons; try apply Forall_nil; six_groups. Qed.

Lemma parse_strict_returns pats t :
  Forall six_digit_groups pats -> exists r, parse_strict pats t = Return r.
Proof.
  induction 1 as [|pat pats Hp Hps IH]; cbn [parse_strict]; [eauto|].
  destruct (parse_with_returns pat t Hp) as [r ->].
  destruct r; eauto.
Qed.

Lemma parse_anchored_returns t : exists r, parse_anchored t = Return r.
Proof.
  unfold parse_anchored.
  destruct (re_search DATE_ANCHOR t) as [[[b e] dm]|] eqn:E; [|eauto].
  apply re_search_sound in E. unfold DATE_ANCHOR in E. cbn [groups_of] in E.
  assert (Hd : Forall (fun g => exists z, int_of g = Return z) dm).
  { eapply groups_int; [|exact E]. repeat apply Forall_cons; auto with digits. }
  apply Forall2_length in E.
  destruct dm as [|g1 [|g2 [|g3 [|? ?]]]]; try discriminate E.
  repeat match goal with
         | H : Forall _ (_ :: _) |- _ => inversion H as [|? ? [? ?] ?]; subst; clear H
         end.
  unfold group at 1 2 3. cbn [nth Nat.sub].
  repeat match goal with H : int_of _ = Return _ |- _ => rewrite H; clear H end.
  cbn [bind].
  destruct (re_search COLON_TIME (skipn e t)) as [[[b' e'] mt]|] eqn:E'; [|eauto].
  apply re_search_sound in E'. unfold COLON_TIME in E'. cbn [groups_of] in E'.
  assert (Hd : Forall (fun g => exists z, int_of g = Return z) mt).
  { eapply groups_int; [|exact E']. repeat apply Forall_cons; auto with digits. }
  apply Forall2_length in E'.
  destruct mt as [|h1 [|h2 [|h3 [|? ?]]]]; try discriminate E'.
  repeat match goal with
         | H : Forall _ (_ :: _) |- _ => inversion H as [|? ? [? ?] ?]; subst; clear H
         end.
  unfold group. cbn [nth Nat.sub].
  repeat match goal with H : int_of _ = Return _ |- _ => rewrite H; clear H end.
  cbn [bind]. eauto.
Qed.

Lemma next_pair_returns t i : exists r, next_pair t i = Return r.
Proof.
  unfold next_pair.
  destruct (re_search PAIR (skipn i t)) as [[[b e] caps]|] eqn:E; [|eauto].
  apply re_search_sound in E. cbn in E.
  inversion E as [|? g ? caps' Hg Hrest]; subst. inversion Hrest; subst.
  unfold group. cbn [nth Nat.sub].
  destruct (_pairify_returns g Hg) as [z ->]. cbn [bind]. eauto.
Qed.

Lemma grab_pairs_returns t n : forall i, exists r, grab_pairs t n i = Return r.
Proof.
  induction n as [|n IH]; intros i; cbn [grab_pairs]; [eauto|].
  destruct (next_pair_returns t i) as [r ->]. cbn [bind].
  destruct r as [[val idx]|]; [|eauto].
  destruct (IH idx) as [rs ->]. cbn [bind]. eauto.
Qed.

Lemma _grab_fields_loose_returns t : exists r, _grab_fields_loose t = Return r.
Proof.
  unfold _grab_fields_loose.
  destruct (re_search YEAR_ONLY t) as [[[b e] caps]|] eqn:E; [|eauto].
  apply re_search_sound in E. unfold YEAR_ONLY in E. cbn [groups_of] in E.
  inversion E as [|? g ? caps' Hg Hrest]; subst. inversion Hrest; subst.
  unfold group. cbn [nth Nat.sub].
  destruct (int_of_digit_group _ _ digit_group_YEAR Hg) as [y ->]. cbn [bind].
  destruct (grab_pairs_returns t 5 e) as [fs ->]. cbn [bind].
  destruct fs as [[|M [|d [|h [|m [|s [|? ?]]]]]]|]; eauto.
Qed.

Lemma parse_timestamp_flex_returns raw :
  exists r, parse_timestamp_flex raw = Return r.
Proof.
  unfold parse_timestamp_flex. destruct raw as [|c raw]; [eauto|].
  set (t := repair_time_triplets (normalize_ocr (c :: raw))).
  destruct (parse_anchored_returns t) as [r0 ->].
  destruct r0; [eauto|].
  destruct (parse_with_returns DATE_THEN_TIME_1OR2H t six_DATE_THEN_TIME_1OR2H) as [r1 ->].
  destruct r1; [eauto|].
  destruct (_grab_fields_loose_returns t) as [r2 ->].
  destruct r2; [eauto|].
  destruct (parse_with_returns FLEX_PAT t six_FLEX_PAT) as [r3 ->].
  destruct r3; [eauto|].
  apply parse_strict_returns, six_TS_PATTERNS.
Qed.

(** ** Candidates collected from an image *)

Lemma collect_variants_nil img r vtags :
  (forall v, In v vtags -> img r v <> Raise) ->
  (forall v, In v vtags -> forall raw x,
       ocr_text img r v = Return raw -> parse_timestamp_flex raw <> Return (Some x)) ->
  collect_variants img r vtags = Return [].
Proof.
  induction vtags as [|v vtags IH]; intros Hr H; cbn [collect_variants]; [reflexivity|].
  destruct (img r v) as [text|] eqn:Et; [|destruct (Hr v (or_introl eq_refl) Et)].
  cbn [bind].
  destruct (parse_timestamp_flex_returns (replace_char "010" " " (strip text))) as [x Hx].
  rewrite Hx. cbn [bind].
  rewrite IH by (intros; first [apply Hr | eapply H; eauto]; now right). cbn [bind].
  destruct x as [[d p]|]; [|reflexivity].
  exfalso. eapply (H v); [now left | | exact Hx]. unfold ocr_text. now rewrite Et.
Qed.

Lemma collect_all_nil img rois :
  (forall r v, In r rois -> In v VARIANTS -> img r v <> Raise) ->
  (forall r v, In r rois -> In v VARIANTS -> forall raw x,
       ocr_text img r v = Return raw -> parse_timestamp_flex raw <> Return (Some x)) ->
  collect_all img rois = Return [].
Proof.
  induction rois as [|r rois IH]; intros Hr H; cbn [collect_all]; [reflexivity|].
  unfold collect_candidates_from_roi.
  rewrite collect_variants_nil;
    [|intros; apply Hr; [now left | assumption]
     |intros v Hv; apply H; [now left | assumption]].
  cbn [bind].
  rewrite IH;
    [|intros; apply Hr; [now right | assumption]
     |intros r' v Hr' Hv; apply H; [now right | assumption]].
  reflexivity.
Qed.

Lemma collect_variants_returns img r vtags :
  (forall v, In v vtags -> img r v <> Raise) ->
  exists cs, collect_variants img r vtags = Return cs.
Proof.
  induction vtags as [|v vtags IH]; intros Hr; cbn [collect_variants]; [eauto|].
  destruct (img r v) as [text|] eqn:Et; [|destruct (Hr v (or_introl eq_refl) Et)].
  cbn [bind].
  destruct (parse_timestamp_flex_returns (replace_char "010" " " (strip text))) as [x ->].
  destruct IH as [cs ->]; [intros; apply Hr; now right|].
  cbn [bind]. destruct x as [[d p]|]; eauto.
Qed.

Lemma collect_all_returns img rois :
  (forall r v, In r rois -> In v VARIANTS -> img r v <> Raise) ->
  exists cs, collect_all img rois = Return cs.
Proof.
  induction rois as [|r rois IH]; intros Hr; cbn [collect_all]; [eauto|].
  unfold collect_candidates_from_roi.
  destruct (collect_variants_returns img r VARIANTS) as [cs' ->];
    [intros; apply Hr; [now left | assumption]|].
  destruct IH as [cs ->]; [intros; apply Hr; [now right | assumption]|].
  cbn [bind]. eauto.
Qed.

(** An exception on one pair is an exception of the whole collection. *)
Lemma collect_variants_raises img r vtags v :
  In v vtags -> img r v = Raise -> collect_variants img r vtags = Raise.
Proof.
  induction vtags as [|v' vtags IH]; intros Hv Hx; [destruct Hv|].
  cbn [collect_variants]. destruct Hv as [-> | Hv].
  - now rewrite Hx.
  - destruct (img r v') as [text|]; [|reflexivity]. cbn [bind].
    destruct (parse_timestamp_flex_returns (replace_char "010" " " (strip text))) as [x ->].
    cbn [bind]. now rewrite (IH Hv Hx).
Qed.

Lemma collect_all_raises img rois r v :
  In r rois -> In v VARIANTS -> img r v = Raise -> collect_all img rois = Raise.
Proof.
  induction rois as [|r' rois IH]; intros Hr Hv Hx; [destruct Hr|].
  cbn [collect_all]. unfold collect_candidates_from_roi. destruct Hr as [-> | Hr].
  - now rewrite (collect_variants_raises img r VARIANTS v Hv Hx).
  - destruct (collect_variants img r' VARIANTS) as [cs|]; [|reflexivity]. cbn [bind].
    now rewrite (IH Hr Hv Hx).
Qed.

(** Either every pair of an image is read, or the read of one raises. *)
Lemma reads_or_raises (img : image) (rois vtags : list str) :
  (forall r v, In r rois -> In v vtags -> img r v <> Raise)
  \/ exists r v, In r rois /\ In v vtags /\ img r v = Raise.
Proof.
  induction rois as [|r rois IH]; [left; intros r v []|].
  assert (Hr : (forall v, In v vtags -> img r v <> Raise)
               \/ exists v, In v vtags /\ img r v = Raise).
  { clear IH. induction vtags as [|v vtags IHv]; [left; intros v []|].
    destruct (img r v) as [text|] eqn:E; [|right; exists v; split; [now left | exact E]].
    destruct IHv as [H | (v' & Hv' & E')].
    - left. intros v' [<- | Hv']; [rewrite E; discriminate | now apply H].
    - right. exists v'. split; [now right | exact E']. }
  destruct Hr as [Hr | (v & Hv & E)]; [|right; exists r, v; split; [now left | now split]].
  destruct IH as [H | (r' & v' & Hr' & Hv' & E')].
  - left. intros r' v' [<- | Hr'] Hv'; [now apply Hr | now apply H].
  - right. exists r', v'. split; [now right | now split].
Qed.

(** C7 (as amended).  An image that fails to decode makes [process_image]
    return no timestamp and the empty representative text, with or without
    debug output.  So does an image that decodes when every (ROI, variant)
    pair is read without an exception and none of the texts parses,
    provided the candidate log and the band image, where debug output is
    asked for, are written without an exception. *)
Theorem process_image_unrecognized (decoded : option image) (elite_margin : Q)
  (written written_best : outcome unit) :
  (decoded = None
   \/ exists img, decoded = Some img /\ readable img /\ unparsed img) ->
  process_image decoded elite_margin = Return (None, [])
  /\ (decoded = None \/ written = Return tt ->
      process_image_save_debug decoded written written_best elite_margin
      = Return (None, [])).
Proof.
  intros [-> | (img & -> & Hr & H)]; [split; reflexivity|].
  unfold process_image, process_image_save_debug.
  rewrite (collect_all_nil img ROIS Hr H). cbn [bind]. split; [reflexivity|].
  intros [E | ->]; [discriminate E | reflexivity].
Qed.

Lemma process_image_unrecognized_witness :
  process_image (Some garbage_image) (8 # 10) = Return (None, [])
  /\ (Some garbage_image = None \/ Return tt = Return tt ->
      process_image_save_debug (Some garbage_image) (Return tt) Raise (8 # 10)
      = Return (None, [])).
Proof.
  apply (process_image_unrecognized (Some garbage_image) (8 # 10) (Return tt) Raise).
  right. exists garbage_image.
  split; [reflexivity|]. split.
  - intros r v _ _. discriminate.
  - intros r v _ _ raw x E. vm_compute in E. injection E as <-.
    vm_compute. discriminate.
Defined.

(** C7 as stated fails: no (ROI, variant) pair of [narrow_image] yields a
    parsed candidate, and [process_image] raises on it: the exception of
    [cv2.resize] on the empty [left70] crop is not caught. *)
Lemma process_image_propagates_exception :
  unparsed narrow_image
  /\ process_image (Some narrow_image) (8 # 10) = Raise.
Proof.
  split; [|reflexivity].
  intros r v _ _ raw x E. unfold ocr_text, narrow_image in E.
  destruct (str_eqb r (lit "full")); [|discriminate E].
  cbn [bind] in E. injection E as <-. vm_compute. discriminate.
Qed.

(** ** Comparisons on rational weights *)

Lemma Qltb_lt x y : Qltb x y = true <-> (x < y)%Q.
Proof.
  unfold Qltb. rewrite negb_true_iff. split; intros H.
  - apply Qnot_le_lt. intros Hle. apply Qle_bool_iff in Hle. congruence.
  - destruct (Qle_bool y x) eqn:E; [|reflexivity].
    apply Qle_bool_iff in E. exfalso. eapply Qlt_not_le; eauto.
Qed.

Lemma Qltb_ge x y : Qltb x y = false <-> (y <= x)%Q.
Proof.
  unfold Qltb. rewrite negb_false_iff. apply Qle_bool_iff.
Qed.

(** ** Python's stable sort *)

Section SortedFacts.
Context {A : Type} (ltb : A -> A -> bool).
Hypothesis ltb_asym : forall a b, ltb a b = true -> ltb b a = false.
Hypothesis ltb_negtrans :
  forall a b c, ltb a b = false -> ltb b c = false -> ltb a c = false.

Lemma ltb_irrefl a : ltb a a = false.
Proof.
  destruct (ltb a a) eqn:E; [|reflexivity]. now rewrite (ltb_asym _ _ E) in E.
Qed.

Lemma insert_sorted_perm x l : Permutation (x :: l) (insert_sorted ltb x l).
Proof.
  induction l as [|y l IH]; simpl; [reflexivity|].
  destruct (ltb y x); [|reflexivity].
  etransitivity; [apply perm_swap|]. now constructor.
Qed.

Lemma sorted_perm l : Permutation l (sorted ltb l).
Proof.
  induction l as [|x l IH]; simpl; [reflexivity|].
  etransitivity; [|apply insert_sorted_perm]. now constructor.
Qed.

Lemma sorted_in l x : In x (sorted ltb l) <-> In x l.
Proof.
  split; apply Permutation_in;
    [symmetry|]; apply sorted_perm.
Qed.

Lemma insert_sorted_ordered x l :
  StronglySorted (fun a b => ltb b a = false) l ->
  StronglySorted (fun a b => ltb b a = false) (insert_sorted ltb x l).
Proof.
  induction 1 as [|y l Hl IH Hy]; simpl.
  - repeat constructor.
  - destruct (ltb y x) eqn:E.
    + constructor; [exact IH|].
      rewrite Forall_forall in *. intros z Hz.
      apply (Permutation_in _ (Permutation_sym (insert_sorted_perm x l))) in Hz.
      destruct Hz as [<- | Hz]; [now apply ltb_asym | now apply Hy].
    + constructor; [now constructor|].
      constructor; [exact E|].
      rewrite Forall_forall in *. intros z Hz.
      eapply ltb_negtrans; [apply Hy, Hz | exact E].
Qed.

Lemma sorted_ordered l :
  StronglySorted (fun a b => ltb b a = false) (sorted ltb l).
Proof.
  induction l as [|x l IH]; simpl; [constructor | now apply insert_sorted_ordered].
Qed.

Lemma sorted_first pre t post :
  comes_first ltb pre t post ->
  exists r, sorted ltb (pre ++ t :: post) = t :: r.
Proof.
  intros [Hpre Hpost]. induction pre as [|x pre IH]; simpl.
  - destruct (sorted ltb post) as [|h r] eqn:E; simpl; [eauto|].
    assert (Hh : In h post) by (apply sorted_in; rewrite E; now left).
    rewrite (Hpost h Hh). eauto.
  - destruct IH as [r ->]; [intros; apply Hpre; now right|].
    simpl. rewrite (Hpre x) by now left. eauto.
Qed.

Lemma comes_first_exists l :
  l <> [] -> exists pre t post, l = pre ++ t :: post /\ comes_first ltb pre t post.
Proof.
  induction l as [|x l IH]; [congruence|]. intros _.
  destruct l as [|y l].
  - exists [], x, []. split; [reflexivity|]. split; intros ? [].
  - destruct IH as (pre & t & post & Hl & Hpre & Hpost); [discriminate|].
    destruct (ltb t x) eqn:E.
    + exists (x :: pre), t, post. rewrite Hl. split; [reflexivity|].
      split; [|exact Hpost]. intros z [<- | Hz]; auto.
    + exists [], x, (y :: l). split; [reflexivity|].
      split; [intros ? []|]. intros z Hz. rewrite Hl in Hz.
      apply in_app_or in Hz.
      eapply ltb_negtrans; [|exact E].
      destruct Hz as [Hz | [<- | Hz]].
      * apply ltb_asym, Hpre, Hz.
      * apply ltb_irrefl.
      * now apply Hpost.
Qed.

Lemma sorted_head l h r :
  sorted ltb l = h :: r ->
  exists pre post,
    l = pre ++ h :: post /\ comes_first ltb pre h post
    /\ Permutation (pre ++ post) r.
Proof.
  intros E.
  destruct (comes_first_exists l) as (pre & t & post & Hl & Hf).
  { intros ->. discriminate E. }
  destruct (sorted_first pre t post Hf) as [r' Hr'].
  rewrite <- Hl, E in Hr'. injection Hr' as -> ->.
  exists pre, post. repeat split; try apply Hf; [exact Hl|].
  pose proof (sorted_perm l) as P. rewrite E, Hl in P.
  symmetry. eapply Permutation_cons_app_inv. symmetry. exact P.
Qed.

Lemma sorted_head_min l h r :
  sorted ltb l = h :: r -> In h l /\ forall x, In x l -> ltb x h = false.
Proof.
  intros E. destruct (sorted_head l h r E) as (pre & post & -> & [Hpre Hpost] & _).
  split; [apply in_elt|]. intros x Hx. apply in_app_or in Hx.
  destruct Hx as [Hx | [<- | Hx]].
  - apply ltb_asym, Hpre, Hx.
  - apply ltb_irrefl.
  - now apply Hpost.
Qed.

Lemma sorted_second_min l h c r x :
  sorted ltb l = h :: c :: r -> In x (c :: r) -> ltb x c = false.
Proof.
  intros E Hx. pose proof (sorted_ordered l) as S. rewrite E in S.
  inversion S as [|? ? S' _]; subst. inversion S' as [|? ? _ Hc]; subst.
  destruct Hx as [<- | Hx].
  - apply ltb_irrefl.
  - rewrite Forall_forall in Hc. now apply Hc.
Qed.
End SortedFacts.

(** ** The elite shortcut *)

Lemma str_eqb_eq a b : str_eqb a b = true <-> a = b.
Proof.
  revert b. induction a as [|x a IH]; intros [|y b]; simpl; split; try congruence.
  - rewrite andb_true_iff, Ascii.eqb_eq, IH. intros [-> ->]. reflexivity.
  - intros [= -> ->]. rewrite Ascii.eqb_refl. simpl. now apply IH.
Qed.

Lemma str_mem_In x S : str_mem x S = true <-> In x S.
Proof.
  unfold str_mem. rewrite existsb_exists. split.
  - intros (y & Hy & E). apply str_eqb_eq in E. now subst.
  - intros H. exists x. split; [exact H | now apply str_eqb_eq].
Qed.

Lemma heavier_first_asym a b :
  heavier_first a b = true -> heavier_first b a = false.
Proof.
  unfold heavier_first. rewrite Qltb_lt, Qltb_ge. apply Qlt_le_weak.
Qed.

Lemma heavier_first_negtrans a b c :
  heavier_first a b = false -> heavier_first b c = false ->
  heavier_first a c = false.
Proof.
  unfold heavier_first. rewrite !Qltb_ge. intros H1 H2. eapply Qle_trans; eauto.
Qed.

Lemma choose_elite_candidate_unfold all_cands elite_margin :
  choose_elite_candidate all_cands elite_margin =
  match sorted heavier_first all_cands with
  | [] => None
  | top :: ranked' =>
      let nxt := match ranked' with c :: _ => c_w c | [] => ABSENT end in
      if str_mem (c_roi top) PREFERRED_ROIS && str_mem (c_var top) PREFERRED_VARS
         && Qle_bool (nxt + elite_margin) (c_w top)
      then Some top else None
  end.
Proof. reflexivity. Qed.

Lemma ranked_head all_cands top ranked' :
  sorted heavier_first all_cands = top :: ranked' ->
  exists pre post,
    all_cands = pre ++ top :: post
    /\ (forall x, In x pre -> (c_w x < c_w top)%Q)
    /\ (forall x, In x post -> (c_w x <= c_w top)%Q)
    /\ Permutation (pre ++ post) ranked'.
Proof.
  intros E.
  destruct (sorted_head heavier_first heavier_first_asym heavier_first_negtrans _ _ _ E)
    as (pre & post & Hl & [Hpre Hpost] & P).
  exists pre, post. repeat split; auto.
  - intros x Hx. apply Qltb_lt. apply (Hpre x Hx).
  - intros x Hx. specialize (Hpost x Hx). unfold heavier_first in Hpost.
    now apply Qltb_ge in Hpost.
Qed.


Lemma elite_is_leader all_cands elite_margin top :
  choose_elite_candidate all_cands elite_margin = Some top ->
  exists pre post,
    all_cands = pre ++ top :: post
    /\ (forall x, In x pre -> (c_w x < c_w top)%Q)
    /\ (forall x, In x post -> (c_w x <= c_w top)%Q)
    /\ preferred top
    /\ (forall x, In x (pre ++ post) -> (c_w x + elite_margin <= c_w top)%Q)
    /\ (pre ++ post = [] -> (ABSENT + elite_margin <= c_w top)%Q).
Proof.
  rewrite choose_elite_candidate_unfold.
  destruct (sorted heavier_first all_cands) as [|t ranked'] eqn:E; [discriminate|].
  cbv zeta.
  destruct (str_mem (c_roi t) PREFERRED_ROIS) eqn:Hr; [|discriminate].
  destruct (str_mem (c_var t) PREFERRED_VARS) eqn:Hv; [|discriminate].
  cbn [andb].
  destruct (Qle_bool _ _) eqn:Hm; [|discriminate].
  intros [= <-]. apply Qle_bool_iff in Hm.
  destruct (ranked_head _ _ _ E) as (pre & post & Hl & Hpre & Hpost & P).
  exists pre, post. repeat split; auto.
  - now apply str_mem_In.
  - now apply str_mem_In.
  - intros x Hx. apply (Permutation_in _ P) in Hx.
    destruct ranked' as [|c r]; [destruct Hx|].
    pose proof (sorted_second_min heavier_first heavier_first_asym
                  heavier_first_negtrans _ _ _ _ x E Hx) as Hc.
    unfold heavier_first in Hc. apply Qltb_ge in Hc. lra.
  - intros Hnil. rewrite Hnil in P. apply Permutation_nil in P. subst ranked'.
    exact Hm.
Qed.




(** C10 (as amended).  For a list with one candidate whose tags are in the
    preferred sets, the elite shortcut returns that candidate exactly when
    its weight is at least -1e9 plus the margin: the absent runner-up
    counts as weight -1e9. *)
Theorem choose_elite_candidate_single (c : Candidate) (elite_margin : Q) :
  preferred c ->
  (choose_elite_candidate [c] elite_margin = Some c
   <-> (ABSENT + elite_margin <= c_w c)%Q).
Proof.
  intros [Hr Hv]. rewrite choose_elite_candidate_unfold. cbn [sorted fold_right insert_sorted].
  apply str_mem_In in Hr, Hv. rewrite Hr, Hv. cbn [andb].
  rewrite <- Qle_bool_iff. destruct (Qle_bool _ _); split; congruence.
Qed.

Lemma choose_elite_candidate_single_witness :
  choose_elite_candidate [elite_a] (8 # 10) = Some elite_a
  <-> (ABSENT + (8 # 10) <= c_w elite_a)%Q.
Proof.
  apply choose_elite_candidate_single.
  split; vm_compute; tauto.
Defined.

(** C10 as stated fails: with a margin of 2e9 a single preferred candidate
    of weight 7.4 is not returned. *)
Lemma choose_elite_candidate_single_margin :
  preferred elite_a
  /\ choose_elite_candidate [elite_a] (2000000000 # 1) = None.
Proof.
  split; [split; vm_compute; tauto | reflexivity].
Qed.

(** ** The absolute fallback *)

Lemma tally_positive_nonpos {K : Type} (eqb : K -> K -> bool) kws :
  (forall kw, In kw kws -> (snd kw <= 0)%Q) ->
  tally_positive eqb kws = [].
Proof.
  unfold tally_positive. generalize (@nil (K * Q)) as t.
  induction kws as [|kw kws IH]; intros t H; simpl; [reflexivity|].
  assert (E : Qltb 0 (snd kw) = false) by (apply Qltb_ge, H; now left).
  rewrite E. apply IH. intros; apply H; now right.
Qed.

Lemma in_combine_map {A B C : Type} (f : A -> B) (g : A -> C) l y z :
  In (y, z) (combine (map f l) (map g l)) -> exists x, In x l /\ y = f x /\ z = g x.
Proof.
  induction l as [|x l IH]; simpl; [tauto|].
  intros [[= <- <-] | H]; [eauto|].
  destruct (IH H) as (x' & Hx & E). eauto.
Qed.

Lemma weighted_mode_nonpos (col : parts -> Z) all_cands :
  (forall c, In c all_cands -> (c_w c <= 0)%Q) ->
  weighted_mode (map (fun c => col (c_parts c)) all_cands) (map c_w all_cands) = None.
Proof.
  intros H. unfold weighted_mode. rewrite tally_positive_nonpos; [reflexivity|].
  intros [v w] Hin. apply in_combine_map in Hin.
  destruct Hin as (c & Hc & _ & ->). now apply H.
Qed.

Lemma choose_by_weighted_fields_nonpos all_cands :
  all_cands <> [] ->
  (forall c, In c all_cands -> (c_w c <= 0)%Q) ->
  choose_by_weighted_fields all_cands = Return (None, None).
Proof.
  intros Hne H. unfold choose_by_weighted_fields.
  destruct all_cands as [|c cs]; [congruence|].
  unfold columns. cbn [vote]. now rewrite weighted_mode_nonpos.
Qed.

Lemma max_by_w_fold cs : forall best,
  let rep := fold_left (fun best x => if Qltb (c_w best) (c_w x) then x else best) cs best in
  In rep (best :: cs) /\ (c_w best <= c_w rep)%Q
  /\ forall x, In x cs -> (c_w x <= c_w rep)%Q.
Proof.
  induction cs as [|c cs IH]; intros best; cbn zeta; cbn [fold_left].
  - repeat split; [now left | apply Qle_refl | intros ? []].
  - specialize (IH (if Qltb (c_w best) (c_w c) then c else best)).
    cbn zeta in IH. destruct IH as (Hin & Hle & Hall).
    destruct (Qltb (c_w best) (c_w c)) eqn:E.
    + apply Qltb_lt in E. repeat split.
      * right. exact Hin.
      * lra.
      * intros x [<- | Hx]; auto.
    + apply Qltb_ge in E. repeat split.
      * destruct Hin as [<- | Hin]; [now left | right; now right].
      * exact Hle.
      * intros x [<- | Hx]; [lra | auto].
Qed.

Lemma max_by_w_spec all_cands :
  all_cands <> [] ->
  exists rep, max_by_w all_cands = Return rep /\ In rep all_cands
              /\ forall x, In x all_cands -> (c_w x <= c_w rep)%Q.
Proof.
  destruct all_cands as [|c cs]; [congruence|]. intros _.
  destruct (max_by_w_fold cs c) as (Hin & Hle & Hall).
  eexists. split; [reflexivity|]. split; [exact Hin|].
  intros x [<- | Hx]; auto.
Qed.

Lemma choose_elite_candidate_max all_cands elite_margin top :
  choose_elite_candidate all_cands elite_margin = Some top ->
  In top all_cands /\ forall x, In x all_cands -> (c_w x <= c_w top)%Q.
Proof.
  intros H. apply elite_is_leader in H.
  destruct H as (pre & post & -> & Hpre & Hpost & _).
  split; [apply in_elt|]. intros x Hx. apply in_app_or in Hx.
  destruct Hx as [Hx | [<- | Hx]]; [apply Qlt_le_weak | apply Qle_refl |]; auto.
Qed.

Lemma select_absolute_fallback all_cands elite_margin :
  all_cands <> [] ->
  (forall c, In c all_cands -> (c_w c <= 0)%Q) ->
  exists rep,
    In rep all_cands
    /\ (forall c, In c all_cands -> (c_w c <= c_w rep)%Q)
    /\ select all_cands elite_margin = Return (Some (c_dt rep), c_raw rep).
Proof.
  intros Hne Hw. unfold select.
  destruct all_cands as [|c0 cs] eqn:Hl; [congruence|]. rewrite <- Hl in *.
  destruct (choose_elite_candidate all_cands elite_margin) as [elite|] eqn:E.
  - apply choose_elite_candidate_max in E. destruct E as [Hin Hmax].
    exists elite. auto.
  - rewrite choose_by_weighted_fields_nonpos by assumption. cbn [bind].
    destruct (max_by_w_spec all_cands Hne) as (rep & -> & Hin & Hmax).
    cbn [bind]. exists rep. auto.
Qed.

(** C6.  When an image has at least one parsed candidate and every
    candidate's weight is zero or negative, [process_image] returns the
    timestamp and the raw text of a candidate of highest weight; in
    particular it returns a timestamp. *)
Theorem process_image_absolute_fallback (img : image) (elite_margin : Q)
  (all_cands : list Candidate) :
  collect_all img ROIS = Return all_cands ->
  all_cands <> [] ->
  (forall c, In c all_cands -> (c_w c <= 0)%Q) ->
  exists rep,
    In rep all_cands
    /\ (forall c, In c all_cands -> (c_w c <= c_w rep)%Q)
    /\ process_image (Some img) elite_margin = Return (Some (c_dt rep), c_raw rep).
Proof.
  intros Hc Hne Hw. unfold process_image. rewrite Hc. cbn [bind].
  now apply select_absolute_fallback.
Qed.

Lemma process_image_absolute_fallback_witness :
  exists rep,
    In rep weak_cands
    /\ (forall c, In c weak_cands -> (c_w c <= c_w rep)%Q)
    /\ process_image (Some weak_image) (8 # 10) = Return (Some (c_dt rep), c_raw rep).
Proof.
  apply process_image_absolute_fallback.
  - vm_compute. reflexivity.
  - discriminate.
  - intros c [<- | [<- | []]]; vm_compute; discriminate.
Defined.

(** ** The banner locator *)

Lemma better_run_none runs :
  (forall g, In g runs -> qualifies g = false) ->
  fold_left better_run runs None = None.
Proof.
  induction runs as [|g runs IH]; intros H; simpl; [reflexivity|].
  unfold better_run at 2. rewrite (H g) by now left.
  apply IH. intros; apply H; now right.
Qed.

(** C5 (as amended).  When no run of dark rows of the top quarter starts at
    row index 5 or above it and spans ten rows or more, the band returned
    is the top 9% of the rows (at least 16 rows) extended by the two rows
    of padding and clamped to the height of the image, and it is not empty
    for an image that has a row. *)
Theorem find_top_black_banner_fallback (gray : gray_image) :
  (forall g, In g (banner_runs gray) -> qualifies g = false) ->
  let h := Z.of_nat (length gray) in
  find_top_black_banner gray = (0, Z.min h (fallback_rows h + 2))%Z
  /\ (gray <> [] -> (fst (find_top_black_banner gray) < snd (find_top_black_banner gray))%Z).
Proof.
  intros H h. unfold banner_runs in H. fold h in H.
  assert (E : find_top_black_banner gray = (0, Z.min h (fallback_rows h + 2))%Z).
  { unfold find_top_black_banner. fold h. rewrite better_run_none by exact H.
    reflexivity. }
  split; [exact E|]. rewrite E. cbn [fst snd]. intros Hne.
  assert (0 < h)%Z by (subst h; destruct gray; [congruence | simpl; lia]).
  unfold fallback_rows. lia.
Qed.

Lemma find_top_black_banner_fallback_witness :
  find_top_black_banner bright_image = (0, 20)%Z.
Proof.
  apply (find_top_black_banner_fallback bright_image).
  intros g Hg. vm_compute in Hg. destruct Hg.
Defined.

(** C5 as stated fails: a bright image of 200 rows has no dark run at all,
    its top 9% is 18 rows, and the band returned has 20 rows. *)
Lemma find_top_black_banner_adds_padding :
  banner_runs bright_image = []
  /\ fallback_rows (Z.of_nat (length bright_image)) = 18%Z
  /\ find_top_black_banner bright_image <> (0, 18)%Z.
Proof.
  repeat split; vm_compute; congruence.
Qed.

(** ** Tallies *)

Section TallyFacts.
Context {K : Type} (eqb : K -> K -> bool).
Hypothesis eqb_eq : forall a b, eqb a b = true <-> a = b.

Lemma eqb_refl a : eqb a a = true.
Proof. now apply eqb_eq. Qed.

Lemma eqb_neq a b : a <> b -> eqb a b = false.
Proof.
  intros H. destruct (eqb a b) eqn:E; [|reflexivity]. apply eqb_eq in E. congruence.
Qed.

Lemma tally_add_get k w t k' :
  (tally_get eqb k' (tally_add eqb k w t)
   == if eqb k k' then tally_get eqb k' t + w else tally_get eqb k' t)%Q.
Proof.
  induction t as [|[k1 s] t IH]; simpl.
  - destruct (eqb k k'); lra.
  - destruct (eqb k1 k) eqn:E1; simpl.
    + apply eqb_eq in E1. subst k1.
      destruct (eqb k k'); lra.
    + destruct (eqb k1 k') eqn:E2.
      * apply eqb_eq in E2. subst k1.
        rewrite eqb_neq; [lra|]. intros ->. now rewrite eqb_refl in E1.
      * exact IH.
Qed.

Lemma tally_add_keys k w t x :
  In x (map fst (tally_add eqb k w t)) <-> x = k \/ In x (map fst t).
Proof.
  induction t as [|[k1 s] t IH]; simpl.
  - intuition.
  - destruct (eqb k1 k) eqn:E1; simpl.
    + apply eqb_eq in E1. subst k1. intuition.
    + rewrite IH. intuition.
Qed.

Lemma tally_add_NoDup k w t :
  NoDup (map fst t) -> NoDup (map fst (tally_add eqb k w t)).
Proof.
  induction t as [|[k1 s] t IH]; simpl; intros H.
  - repeat constructor. intros [].
  - inversion H as [|? ? Hn Hd]; subst.
    destruct (eqb k1 k) eqn:E1; simpl; [now constructor|].
    constructor; [|now apply IH].
    rewrite tally_add_keys. intros [-> | Hin]; [|contradiction].
    now rewrite eqb_refl in E1.
Qed.

Lemma tally_add_pos k w t :
  (0 < w)%Q -> Forall (fun kv => 0 < snd kv)%Q t ->
  Forall (fun kv => 0 < snd kv)%Q (tally_add eqb k w t).
Proof.
  intros Hw. induction 1 as [|[k1 s] t Hs Ht IH]; simpl.
  - repeat constructor. simpl. lra.
  - simpl in Hs. destruct (eqb k1 k); constructor; simpl; auto. lra.
Qed.

Lemma tally_in_get k s t :
  NoDup (map fst t) -> In (k, s) t -> tally_get eqb k t = s.
Proof.
  induction t as [|[k1 s1] t IH]; simpl; intros Hd Hin; [destruct Hin|].
  destruct Hin as [E | Hin].
  - injection E as -> ->. now rewrite eqb_refl.
  - inversion Hd as [|? ? Hn Hd']; subst.
    rewrite eqb_neq; [now apply IH|].
    intros ->. apply Hn. change k with (fst (k, s)). now apply in_map.
Qed.

Lemma tally_fold kws : forall t,
  NoDup (map fst t) -> Forall (fun kv => 0 < snd kv)%Q t ->
  let t' := fold_left (fun tally kw => if Qltb 0 (snd kw)
                                     then tally_add eqb (fst kw) (snd kw) tally
                                     else tally) kws t in
  NoDup (map fst t')
  /\ Forall (fun kv => 0 < snd kv)%Q t'
  /\ (forall k, tally_get eqb k t' == tally_get eqb k t + gain eqb k kws)%Q
  /\ (forall k, In k (map fst t') <->
                In k (map fst t) \/ exists w, In (k, w) kws /\ (0 < w)%Q).
Proof.
  induction kws as [|[k0 w0] kws IH]; intros t Hd Hp; cbn zeta; cbn [fold_left gain fst snd].
  - split; [exact Hd|]. split; [exact Hp|]. split.
    + intros k. lra.
    + intros k. split; [now left|].
      intros [H | (w & Hw & _)]; [exact H | destruct Hw].
  - destruct (Qltb 0 w0) eqn:Ew.
    + apply Qltb_lt in Ew.
      destruct (IH (tally_add eqb k0 w0 t)) as (Hd' & Hp' & Hg & Hk).
      { now apply tally_add_NoDup. }
      { now apply tally_add_pos. }
      split; [exact Hd'|]. split; [exact Hp'|]. split.
      * intros k. rewrite Hg, tally_add_get.
        rewrite andb_true_r. destruct (eqb k0 k); lra.
      * intros k. rewrite Hk, tally_add_keys. split.
        -- intros [[-> | H] | (w & H & Hw)].
           ++ right. exists w0. split; [now left | exact Ew].
           ++ now left.
           ++ right. exists w. split; [now right | exact Hw].
        -- intros [H | (w & [E | H] & Hw)].
           ++ left. now right.
           ++ injection E as -> ->. left. now left.
           ++ right. eauto.
    + destruct (IH t Hd Hp) as (Hd' & Hp' & Hg & Hk).
      split; [exact Hd'|]. split; [exact Hp'|]. split.
      * intros k. rewrite Hg. rewrite andb_false_r. lra.
      * intros k. rewrite Hk. split.
        -- intros [H | (w & H & Hw)]; [now left|]. right. exists w. split; [now right | exact Hw].
        -- intros [H | (w & [E | H] & Hw)]; [now left | | right; eauto].
           injection E as -> ->. apply Qltb_ge in Ew. lra.
Qed.

Lemma tally_positive_spec kws :
  let t := tally_positive eqb kws in
  NoDup (map fst t)
  /\ Forall (fun kv => 0 < snd kv)%Q t
  /\ (forall k, tally_get eqb k t == gain eqb k kws)%Q
  /\ (forall k, In k (map fst t) <-> exists w, In (k, w) kws /\ (0 < w)%Q).
Proof.
  destruct (tally_fold kws []) as (Hd & Hp & Hg & Hk); [constructor | constructor |].
  cbn zeta. unfold tally_positive.
  split; [exact Hd|]. split; [exact Hp|]. split.
  - intros k. rewrite Hg. simpl. lra.
  - intros k. rewrite Hk. split; [|now right].
    intros [H | H]; [destruct H | exact H].
Qed.

Lemma gain_no_support k kws :
  (forall w, In (k, w) kws -> ~ (0 < w)%Q) -> gain eqb k kws = 0%Q.
Proof.
  induction kws as [|[k0 w0] kws IH]; intros H; cbn [gain fst snd]; [reflexivity|].
  destruct (eqb k0 k) eqn:E; cbn [andb].
  - apply eqb_eq in E. subst k0.
    destruct (Qltb 0 w0) eqn:Ew.
    + apply Qltb_lt in Ew. exfalso. apply (H w0); [now left | exact Ew].
    + apply IH. intros w Hw. apply H. now right.
  - apply IH. intros w Hw. apply H. now right.
Qed.
End TallyFacts.

(** ** Weighted voting on one field *)

Lemma by_weight_then_key_true (a b : Z * Q) :
  by_weight_then_key Z.ltb a b = true
  <-> (snd b < snd a)%Q \/ ((snd a == snd b)%Q /\ (fst a < fst b)%Z).
Proof.
  unfold by_weight_then_key.
  rewrite orb_true_iff, andb_true_iff, Qltb_lt, Qeq_bool_iff, Z.ltb_lt.
  split; (intros [H | [H1 H2]]; [left; lra | right; split; [lra | exact H2]]).
Qed.

Lemma by_weight_then_key_false (a b : Z * Q) :
  by_weight_then_key Z.ltb a b = false
  <-> (snd a <= snd b)%Q /\ ((snd a == snd b)%Q -> (fst b <= fst a)%Z).
Proof.
  rewrite <- not_true_iff_false, by_weight_then_key_true. split.
  - intros H. split.
    + apply Qnot_lt_le. intros Hlt. apply H. now left.
    + intros He. apply Z.nlt_ge. intros Hlt. apply H. right. now split.
  - intros [Hle Hk] [Hlt | [He Hlt]]; [lra|]. specialize (Hk He). lia.
Qed.

Lemma by_weight_then_key_asym (a b : Z * Q) :
  by_weight_then_key Z.ltb a b = true -> by_weight_then_key Z.ltb b a = false.
Proof.
  rewrite by_weight_then_key_true, by_weight_then_key_false.
  intros [H | [He Hlt]]; split; try lra; intros; try lra; lia.
Qed.

Lemma by_weight_then_key_negtrans (a b c : Z * Q) :
  by_weight_then_key Z.ltb a b = false -> by_weight_then_key Z.ltb b c = false ->
  by_weight_then_key Z.ltb a c = false.
Proof.
  rewrite !by_weight_then_key_false. intros [H1 K1] [H2 K2]. split; [lra|].
  intros He. assert (snd a == snd b)%Q by lra. assert (snd b == snd c)%Q by lra.
  specialize (K1 H). specialize (K2 H0). lia.
Qed.

Lemma summed_weight_gain v values : forall weights,
  summed_weight v values weights = gain Z.eqb v (combine values weights).
Proof.
  induction values as [|x values IH]; intros [|w weights]; cbn; try reflexivity.
  now rewrite IH.
Qed.

Lemma weighted_mode_spec values weights v :
  weighted_mode values weights = Some v ->
  (exists w, In (v, w) (combine values weights) /\ (0 < w)%Q)
  /\ forall v',
      (summed_weight v' values weights <= summed_weight v values weights)%Q
      /\ ((summed_weight v' values weights == summed_weight v values weights)%Q
          -> (v <= v')%Z).
Proof.
  unfold weighted_mode.
  set (kws := combine values weights).
  destruct (tally_positive_spec Z.eqb Z.eqb_eq kws) as (Hd & Hp & Hg & Hk).
  cbn zeta in *. set (t := tally_positive Z.eqb kws) in *.
  destruct (sorted (by_weight_then_key Z.ltb) t) as [|[k s] r] eqn:E; [discriminate|].
  intros [= <-]. cbn [fst].
  destruct (sorted_head_min _ by_weight_then_key_asym by_weight_then_key_negtrans _ _ _ E)
    as [Hin Hmin].
  assert (Hks : In k (map fst t)) by (change k with (fst (k, s)); now apply in_map).
  assert (Hs : (s == gain Z.eqb k kws)%Q).
  { rewrite <- Hg. now rewrite (tally_in_get Z.eqb Z.eqb_eq k s t Hd Hin). }
  assert (Hpos : (0 < s)%Q).
  { rewrite Forall_forall in Hp. apply (Hp (k, s) Hin). }
  split; [now apply Hk|].
  intros v'. rewrite !summed_weight_gain. fold kws.
  destruct (in_dec Z.eq_dec v' (map fst t)) as [Hv | Hv].
  - apply in_map_iff in Hv. destruct Hv as ([k' s'] & <- & Hin').
    cbn [fst].
    assert (Hs' : (s' == gain Z.eqb k' kws)%Q).
    { rewrite <- Hg. now rewrite (tally_in_get Z.eqb Z.eqb_eq k' s' t Hd Hin'). }
    specialize (Hmin _ Hin'). apply by_weight_then_key_false in Hmin.
    cbn [fst snd] in Hmin. destruct Hmin as [Hle Htie].
    split; [lra|]. intros He. apply Htie. lra.
  - rewrite (gain_no_support Z.eqb Z.eqb_eq v' kws).
    + split; [lra|]. intros He. lra.
    + intros w Hw Hpw. apply Hv, Hk. eauto.
Qed.

Lemma vote_spec cols all_cands : forall voted,
  vote cols all_cands = Some voted ->
  Forall2 (fun col v =>
             weighted_mode (map (fun c => col (c_parts c)) all_cands) (map c_w all_cands)
             = Some v) cols voted.
Proof.
  induction cols as [|col cols IH]; cbn [vote]; intros voted.
  - intros [= <-]. constructor.
  - destruct (weighted_mode _ _) as [v|] eqn:E; [|discriminate].
    destruct (vote cols all_cands) as [vs|]; [|discriminate].
    intros [= <-]. constructor; auto.
Qed.

(** ** Binary64 sums of positive weights *)

Lemma iter_pos_invariant {A : Type} (f : A -> A) (P : A -> Prop) :
  (forall x, P x -> P (f x)) -> forall p x, P x -> P (iter_pos f p x).
Proof.
  intros Hf. induction p as [p IH|p IH|]; intros x Hx; cbn [iter_pos]; auto.
Qed.

Lemma shr_1_nonneg mrs : (0 <= shr_m mrs)%Z -> (0 <= shr_m (shr_1 mrs))%Z.
Proof.
  destruct mrs as [m r s]. cbn [shr_m]. intros H.
  destruct m as [|[p|p|]|p]; cbn; lia.
Qed.

Lemma shr_fexp_nonneg m e l :
  (0 <= m)%Z ->
  (0 <= shr_m (fst (shr_fexp Binary64.prec Binary64.emax m e l)))%Z.
Proof.
  intros H. unfold shr_fexp, shr.
  assert (H0 : (0 <= shr_m (shr_record_of_loc m l))%Z).
  { destruct l as [|[]]; exact H. }
  destruct (_ - e)%Z as [|p|p]; cbn [fst]; try exact H0.
  apply (iter_pos_invariant shr_1 (fun x => (0 <= shr_m x)%Z) shr_1_nonneg), H0.
Qed.

Lemma round_nearest_even_nonneg m l : (0 <= m)%Z -> (0 <= round_nearest_even m l)%Z.
Proof.
  intros H. unfold round_nearest_even.
  destruct l as [|[]]; try destruct (Z.even m); lia.
Qed.

Lemma binary_round_aux_nonneg m e l :
  (0 <= m)%Z ->
  Binary64.nonneg (binary_round_aux Binary64.prec Binary64.emax false m e l) = true.
Proof.
  intros H. unfold binary_round_aux.
  pose proof (shr_fexp_nonneg m e l H) as H1.
  destruct (shr_fexp Binary64.prec Binary64.emax m e l) as [mrs' e'].
  cbn [fst] in H1.
  pose proof (shr_fexp_nonneg _ e' loc_Exact
                (round_nearest_even_nonneg _ (loc_of_shr_record mrs') H1)) as H2.
  destruct (shr_fexp Binary64.prec Binary64.emax _ e' loc_Exact) as [mrs'' e''].
  cbn [fst] in H2.
  destruct (shr_m mrs'') as [|p|p]; [reflexivity| |lia].
  destruct (e'' <=? _)%Z; reflexivity.
Qed.

Lemma add_nonneg x y :
  Binary64.nonneg x = true -> Binary64.nonneg y = true ->
  Binary64.nonneg (Binary64.add x y) = true.
Proof.
  destruct x as [[]|[]| |[] mx ex]; try discriminate;
    destruct y as [[]|[]| |[] my ey]; try discriminate; intros _ _; try reflexivity.
  unfold Binary64.add, SFadd. cbn [cond_Zopp]. cbn [Z.add].
  unfold binary_normalize, binary_round.
  destruct (shl_align _ _ _) as [mz ez].
  now apply binary_round_aux_nonneg.
Qed.

(** The doubles that the literals of the weight tables and of the layout
    bonus denote: [0.2] is 0x1.999999999999ap-3, and so on. *)
Lemma tenths_literals :
  map Binary64.tenths [2; 4; 6; 8; 10; 12; 14; 15; 24; 32; 36]%Z
  = [S754_finite false 7205759403792794 (-55);
     S754_finite false 7205759403792794 (-54);
     S754_finite false 5404319552844595 (-53);
     S754_finite false 7205759403792794 (-53);
     S754_finite false 4503599627370496 (-52);
     S754_finite false 5404319552844595 (-52);
     S754_finite false 6305039478318694 (-52);
     S754_finite false 6755399441055744 (-52);
     S754_finite false 5404319552844595 (-51);
     S754_finite false 7205759403792794 (-51);
     S754_finite false 8106479329266893 (-51)].
Proof. vm_compute. reflexivity. Qed.

Lemma positive_nonneg w : Binary64.ltb Binary64.zero w = true -> Binary64.nonneg w = true.
Proof. destruct w as [[]|[]| |[] m e]; cbn; congruence. Qed.

Lemma nonneg_not_below_zero s :
  Binary64.nonneg s = true -> Binary64.ltb s Binary64.zero = false.
Proof. destruct s as [[]|[]| |[] m e]; cbn; congruence. Qed.

(** ** The order of the doubles *)

Lemma nonneg_not_nan x : Binary64.nonneg x = true -> Binary64.is_nan x = false.
Proof. destruct x as [[]|[]| |[] m e]; cbn; congruence. Qed.

Lemma rank_ltb_lt a1 a2 a3 b1 b2 b3 :
  Binary64.rank_ltb (a1, a2, a3) (b1, b2, b3) = true
  <-> (a1 < b1 \/ (a1 = b1 /\ (a2 < b2 \/ (a2 = b2 /\ a3 < b3))))%Z.
Proof.
  unfold Binary64.rank_ltb.
  rewrite !orb_true_iff, !andb_true_iff, !orb_true_iff, !andb_true_iff,
    !Z.ltb_lt, !Z.eqb_eq. reflexivity.
Qed.

Lemma rank_eqb_eq a1 a2 a3 b1 b2 b3 :
  Binary64.rank_eqb (a1, a2, a3) (b1, b2, b3) = true
  <-> (a1 = b1 /\ a2 = b2 /\ a3 = b3)%Z.
Proof.
  unfold Binary64.rank_eqb. rewrite !andb_true_iff, !Z.eqb_eq. tauto.
Qed.

Lemma compare_finite m1 e1 m2 e2 :
  match (e1 ?= e2)%Z with
  | Lt => Lt
  | Gt => Gt
  | Eq => Pos.compare_cont Eq m1 m2
  end = Lt
  <-> (e1 < e2 \/ (e1 = e2 /\ Zpos m1 < Zpos m2))%Z.
Proof.
  change (Pos.compare_cont Eq m1 m2) with (Zpos m1 ?= Zpos m2)%Z.
  destruct (Z.compare_spec e1 e2) as [E|E|E].
  - split; [intros H; right; split; [exact E | exact H] | intros [H | [_ H]]; [lia | exact H]].
  - split; [now left | reflexivity].
  - split; [discriminate | lia].
Qed.

Lemma compare_finite_neg m1 e1 m2 e2 :
  match (e1 ?= e2)%Z with
  | Lt => Gt
  | Gt => Lt
  | Eq => CompOpp (Pos.compare_cont Eq m1 m2)
  end = Lt
  <-> (e2 < e1 \/ (e1 = e2 /\ Zpos m2 < Zpos m1))%Z.
Proof.
  change (Pos.compare_cont Eq m1 m2) with (Pos.compare m1 m2).
  rewrite <- (Pos.compare_antisym m1 m2).
  change (Pos.compare m2 m1) with (Zpos m2 ?= Zpos m1)%Z.
  destruct (Z.compare_spec e1 e2) as [E|E|E].
  - split; [intros H; right; split; [exact E | exact H] | intros [H | [_ H]]; [lia | exact H]].
  - split; [discriminate | lia].
  - split; [now left | reflexivity].
Qed.

Lemma compare_finite_eq m1 e1 m2 e2 :
  match (e1 ?= e2)%Z with
  | Lt => Lt
  | Gt => Gt
  | Eq => Pos.compare_cont Eq m1 m2
  end = Eq
  <-> (e1 = e2 /\ Zpos m1 = Zpos m2)%Z.
Proof.
  change (Pos.compare_cont Eq m1 m2) with (Zpos m1 ?= Zpos m2)%Z.
  destruct (Z.compare_spec e1 e2) as [E|E|E].
  - rewrite Z.compare_eq_iff. tauto.
  - split; [discriminate | lia].
  - split; [discriminate | lia].
Qed.

Lemma compare_finite_neg_eq m1 e1 m2 e2 :
  match (e1 ?= e2)%Z with
  | Lt => Gt
  | Gt => Lt
  | Eq => CompOpp (Pos.compare_cont Eq m1 m2)
  end = Eq
  <-> (e1 = e2 /\ Zpos m1 = Zpos m2)%Z.
Proof.
  change (Pos.compare_cont Eq m1 m2) with (Pos.compare m1 m2).
  rewrite <- (Pos.compare_antisym m1 m2).
  change (Pos.compare m2 m1) with (Zpos m2 ?= Zpos m1)%Z.
  destruct (Z.compare_spec e1 e2) as [E|E|E].
  - rewrite Z.compare_eq_iff. intuition congruence.
  - split; [discriminate | lia].
  - split; [discriminate | lia].
Qed.

Lemma bool_iff (a b : bool) : (a = true <-> b = true) -> a = b.
Proof. destruct a, b; intuition congruence. Qed.

Lemma is_Lt_iff (c : comparison) (P R : Prop) :
  (c = Lt <-> P) -> (P <-> R) ->
  match Some c with Some Lt => true | _ => false end = true <-> R.
Proof. intros H1 H2. rewrite <- H2, <- H1. destruct c; split; congruence. Qed.

Lemma is_Eq_iff (c : comparison) (P R : Prop) :
  (c = Eq <-> P) -> (P <-> R) ->
  match Some c with Some Eq => true | _ => false end = true <-> R.
Proof. intros H1 H2. rewrite <- H2, <- H1. destruct c; split; congruence. Qed.

Lemma ltb_rank x y :
  Binary64.is_nan x = false -> Binary64.is_nan y = false ->
  Binary64.ltb x y = Binary64.rank_ltb (Binary64.rank x) (Binary64.rank y).
Proof.
  destruct x as [[]|[]| |[] mx ex]; try discriminate;
    destruct y as [[]|[]| |[] my ey]; try discriminate; intros _ _; try reflexivity;
    apply bool_iff; cbn [Binary64.rank]; rewrite rank_ltb_lt;
    unfold Binary64.ltb, SFltb, SFcompare.
  - apply (is_Lt_iff _ _ _ (compare_finite_neg mx ex my ey)). lia.
  - apply (is_Lt_iff _ _ _ (compare_finite mx ex my ey)). lia.
Qed.

Lemma eqb_rank x y :
  Binary64.is_nan x = false -> Binary64.is_nan y = false ->
  Binary64.eqb x y = Binary64.rank_eqb (Binary64.rank x) (Binary64.rank y).
Proof.
  destruct x as [[]|[]| |[] mx ex]; try discriminate;
    destruct y as [[]|[]| |[] my ey]; try discriminate; intros _ _; try reflexivity;
    apply bool_iff; cbn [Binary64.rank]; rewrite rank_eqb_eq;
    unfold Binary64.eqb, SFeqb, SFcompare.
  - apply (is_Eq_iff _ _ _ (compare_finite_neg_eq mx ex my ey)). lia.
  - apply (is_Eq_iff _ _ _ (compare_finite_eq mx ex my ey)). lia.
Qed.

Lemma neg_ltb x y : Binary64.ltb (Binary64.neg x) (Binary64.neg y) = Binary64.ltb y x.
Proof.
  destruct x as [[]|[]| |[] mx ex], y as [[]|[]| |[] my ey]; try reflexivity;
    unfold Binary64.ltb, Binary64.neg, SFltb, SFopp, SFcompare; cbn [negb];
    rewrite (Z.compare_antisym ex ey);
    change (Pos.compare_cont Eq my mx) with (Pos.compare my mx);
    change (Pos.compare_cont Eq mx my) with (Pos.compare mx my);
    rewrite (Pos.compare_antisym mx my);
    destruct (ex ?= ey)%Z, (mx ?= my)%positive; reflexivity.
Qed.

Lemma neg_eqb x y : Binary64.eqb (Binary64.neg x) (Binary64.neg y) = Binary64.eqb y x.
Proof.
  destruct x as [[]|[]| |[] mx ex], y as [[]|[]| |[] my ey]; try reflexivity;
    unfold Binary64.eqb, Binary64.neg, SFeqb, SFopp, SFcompare; cbn [negb];
    rewrite (Z.compare_antisym ex ey);
    change (Pos.compare_cont Eq my mx) with (Pos.compare my mx);
    change (Pos.compare_cont Eq mx my) with (Pos.compare mx my);
    rewrite (Pos.compare_antisym mx my);
    destruct (ex ?= ey)%Z, (mx ?= my)%positive; reflexivity.
Qed.

Lemma eqb_sym x y : Binary64.eqb x y = Binary64.eqb y x.
Proof.
  destruct x as [[]|[]| |[] mx ex], y as [[]|[]| |[] my ey]; try reflexivity;
    unfold Binary64.eqb, SFeqb, SFcompare;
    rewrite (Z.compare_antisym ex ey);
    change (Pos.compare_cont Eq my mx) with (Pos.compare my mx);
    change (Pos.compare_cont Eq mx my) with (Pos.compare mx my);
    rewrite (Pos.compare_antisym mx my);
    destruct (ex ?= ey)%Z, (mx ?= my)%positive; reflexivity.
Qed.

Section RankOrder.
Context {K : Type} (key_ltb : K -> K -> bool).
Hypothesis key_asym : forall a b, key_ltb a b = true -> key_ltb b a = false.
Hypothesis key_negtrans :
  forall a b c, key_ltb a b = false -> key_ltb b c = false -> key_ltb a c = false.

Lemma by_weight_then_key_rank (a b : K * Binary64.float) :
  Binary64.is_nan (snd a) = false -> Binary64.is_nan (snd b) = false ->
  Binary64.by_weight_then_key key_ltb a b = Binary64.by_rank_then_key key_ltb a b.
Proof.
  intros Ha Hb. unfold Binary64.by_weight_then_key, Binary64.by_rank_then_key.
  rewrite neg_eqb, neg_ltb, eqb_sym, (eqb_rank _ _ Ha Hb), (ltb_rank _ _ Hb Ha).
  reflexivity.
Qed.

Ltac ranks :=
  unfold Binary64.by_rank_then_key;
  repeat match goal with
         | |- context [Binary64.rank ?x] =>
             let r1 := fresh "r" in let r2 := fresh "r" in let r3 := fresh "r" in
             destruct (Binary64.rank x) as [[r1 r2] r3]
         end;
  repeat match goal with
         | |- context [Binary64.rank_eqb ?x ?y] =>
             let E := fresh "E" in
             destruct (Binary64.rank_eqb x y) eqn:E;
             [apply rank_eqb_eq in E
             |apply not_true_iff_false in E; rewrite rank_eqb_eq in E]
         end;
  rewrite <- ?not_true_iff_false, ?rank_ltb_lt.

Lemma by_rank_then_key_asym (a b : K * Binary64.float) :
  Binary64.by_rank_then_key key_ltb a b = true ->
  Binary64.by_rank_then_key key_ltb b a = false.
Proof.
  destruct a as [ka sa], b as [kb sb]. cbn [fst snd]. ranks;
    try apply key_asym; try (rewrite not_true_iff_false; apply key_asym); try lia.
Qed.

Lemma by_rank_then_key_negtrans (a b c : K * Binary64.float) :
  Binary64.by_rank_then_key key_ltb a b = false ->
  Binary64.by_rank_then_key key_ltb b c = false ->
  Binary64.by_rank_then_key key_ltb a c = false.
Proof.
  destruct a as [ka sa], b as [kb sb], c as [kc sc]. cbn [fst snd]. ranks;
    try (rewrite !not_true_iff_false; apply key_negtrans); try lia.
Qed.
End RankOrder.

(** Sorting only looks at the order of the elements it is given. *)
Lemma insert_sorted_ext {A : Type} (f g : A -> A -> bool) x l :
  (forall y, In y l -> f y x = g y x) -> insert_sorted f x l = insert_sorted g x l.
Proof.
  induction l as [|y l IH]; intros H; cbn [insert_sorted]; [reflexivity|].
  rewrite (H y) by now left. rewrite IH; [reflexivity|].
  intros z Hz. apply H. now right.
Qed.

Lemma sorted_ext {A : Type} (f g : A -> A -> bool) l :
  (forall x y, In x l -> In y l -> f x y = g x y) -> sorted f l = sorted g l.
Proof.
  induction l as [|x l IH]; intros H; cbn [sorted fold_right]; [reflexivity|].
  change (fold_right (insert_sorted f) [] l) with (sorted f l).
  change (fold_right (insert_sorted g) [] l) with (sorted g l).
  rewrite IH by (intros; apply H; now right).
  apply insert_sorted_ext. intros y Hy. apply sorted_in in Hy.
  apply H; [now right | now left].
Qed.

(** ** Binary64 tallies *)

Section FloatTally.
Context {K : Type} (key_eqb : K -> K -> bool).
Hypothesis key_eqb_eq : forall a b, key_eqb a b = true <-> a = b.

Lemma float_tally_add_get k w t k' :
  Binary64.tally_get key_eqb k' (Binary64.tally_add key_eqb k w t)
  = if key_eqb k k' then Binary64.add (Binary64.tally_get key_eqb k' t) w
    else Binary64.tally_get key_eqb k' t.
Proof.
  induction t as [|[k1 s] t IH]; cbn [Binary64.tally_add Binary64.tally_get].
  - reflexivity.
  - destruct (key_eqb k1 k) eqn:E1; cbn [Binary64.tally_get].
    + apply key_eqb_eq in E1. subst k1. now destruct (key_eqb k k').
    + destruct (key_eqb k1 k') eqn:E2; [|exact IH].
      apply key_eqb_eq in E2. subst k1. now rewrite (eqb_neq key_eqb key_eqb_eq k k')
        by (intros ->; rewrite (eqb_refl key_eqb key_eqb_eq) in E1; discriminate).
Qed.

Lemma float_tally_add_keys k w t x :
  In x (map fst (Binary64.tally_add key_eqb k w t)) <-> x = k \/ In x (map fst t).
Proof.
  induction t as [|[k1 s] t IH]; cbn [Binary64.tally_add map fst In].
  - intuition.
  - destruct (key_eqb k1 k) eqn:E1; cbn [map fst In].
    + apply key_eqb_eq in E1. subst k1. intuition.
    + rewrite IH. intuition.
Qed.

Lemma float_tally_add_NoDup k w t :
  NoDup (map fst t) -> NoDup (map fst (Binary64.tally_add key_eqb k w t)).
Proof.
  induction t as [|[k1 s] t IH]; cbn [Binary64.tally_add map fst]; intros H.
  - repeat constructor. intros [].
  - inversion H as [|? ? Hn Hd]; subst.
    destruct (key_eqb k1 k) eqn:E1; cbn [map fst]; [now constructor|].
    constructor; [|now apply IH].
    rewrite float_tally_add_keys. intros [-> | Hin]; [|contradiction].
    now rewrite (eqb_refl key_eqb key_eqb_eq) in E1.
Qed.

Lemma float_tally_add_nonneg k w t :
  Binary64.nonneg w = true ->
  Forall (fun kv => Binary64.nonneg (snd kv) = true) t ->
  Forall (fun kv => Binary64.nonneg (snd kv) = true) (Binary64.tally_add key_eqb k w t).
Proof.
  intros Hw. induction 1 as [|[k1 s] t Hs Ht IH]; cbn [Binary64.tally_add].
  - repeat constructor. cbn [snd]. now apply add_nonneg.
  - cbn [snd] in Hs. destruct (key_eqb k1 k); constructor; cbn [snd]; auto.
    now apply add_nonneg.
Qed.

Lemma float_tally_get_in k t :
  In k (map fst t) -> In (k, Binary64.tally_get key_eqb k t) t.
Proof.
  induction t as [|[k1 s] t IH]; cbn [map fst In Binary64.tally_get]; [intros []|].
  destruct (key_eqb k1 k) eqn:E.
  - apply key_eqb_eq in E. subst k1. now left.
  - intros [-> | H]; [now rewrite (eqb_refl key_eqb key_eqb_eq) in E | right; auto].
Qed.

Lemma float_tally_get_absent k t :
  ~ In k (map fst t) -> Binary64.tally_get key_eqb k t = Binary64.zero.
Proof.
  induction t as [|[k1 s] t IH]; cbn [map fst In Binary64.tally_get]; [reflexivity|].
  intros H. destruct (key_eqb k1 k) eqn:E.
  - apply key_eqb_eq in E. subst k1. exfalso. apply H. now left.
  - apply IH. intros Hin. apply H. now right.
Qed.

Lemma float_tally_in_get k s t :
  NoDup (map fst t) -> In (k, s) t -> Binary64.tally_get key_eqb k t = s.
Proof.
  induction t as [|[k1 s1] t IH]; cbn [map fst In Binary64.tally_get]; intros Hd Hin;
    [destruct Hin|].
  destruct Hin as [E | Hin].
  - injection E as -> ->. now rewrite (eqb_refl key_eqb key_eqb_eq).
  - inversion Hd as [|? ? Hn Hd']; subst.
    rewrite (eqb_neq key_eqb key_eqb_eq); [now apply IH|].
    intros ->. apply Hn. change k with (fst (k, s)). now apply in_map.
Qed.

Lemma float_tally_fold kws : forall t,
  NoDup (map fst t) -> Forall (fun kv => Binary64.nonneg (snd kv) = true) t ->
  let t' := fold_left (fun tally kw => if Binary64.ltb Binary64.zero (snd kw)
                                     then Binary64.tally_add key_eqb (fst kw) (snd kw) tally
                                     else tally) kws t in
  NoDup (map fst t')
  /\ Forall (fun kv => Binary64.nonneg (snd kv) = true) t'
  /\ (forall k, Binary64.tally_get key_eqb k t'
                = Binary64.accumulated key_eqb k kws (Binary64.tally_get key_eqb k t))
  /\ (forall k, In k (map fst t') <->
                In k (map fst t)
                \/ exists w, In (k, w) kws /\ Binary64.ltb Binary64.zero w = true).
Proof.
  induction kws as [|[k0 w0] kws IH]; intros t Hd Hp; cbn zeta;
    cbn [fold_left Binary64.accumulated fst snd].
  - split; [exact Hd|]. split; [exact Hp|]. split; [reflexivity|].
    intros k. split; [now left|].
    intros [H | (w & Hw & _)]; [exact H | destruct Hw].
  - destruct (Binary64.ltb Binary64.zero w0) eqn:Ew.
    + destruct (IH (Binary64.tally_add key_eqb k0 w0 t)) as (Hd' & Hp' & Hg & Hk).
      { now apply float_tally_add_NoDup. }
      { apply float_tally_add_nonneg; [now apply positive_nonneg | exact Hp]. }
      split; [exact Hd'|]. split; [exact Hp'|]. split.
      * intros k. rewrite Hg, float_tally_add_get, andb_true_r. reflexivity.
      * intros k. rewrite Hk, float_tally_add_keys. split.
        -- intros [[-> | H] | (w & H & Hw)].
           ++ right. exists w0. split; [now left | exact Ew].
           ++ now left.
           ++ right. exists w. split; [now right | exact Hw].
        -- intros [H | (w & [E | H] & Hw)].
           ++ left. now right.
           ++ injection E as -> ->. left. now left.
           ++ right. eauto.
    + destruct (IH t Hd Hp) as (Hd' & Hp' & Hg & Hk).
      split; [exact Hd'|]. split; [exact Hp'|]. split.
      * intros k. rewrite Hg, andb_false_r. reflexivity.
      * intros k. rewrite Hk. split.
        -- intros [H | (w & H & Hw)]; [now left|]. right. exists w. split; [now right | exact Hw].
        -- intros [H | (w & [E | H] & Hw)]; [now left | | right; eauto].
           injection E as -> ->. congruence.
Qed.

Lemma float_tally_positive_spec kws :
  let t := Binary64.tally_positive key_eqb kws in
  NoDup (map fst t)
  /\ Forall (fun kv => Binary64.nonneg (snd kv) = true) t
  /\ (forall k, Binary64.tally_get key_eqb k t
                = Binary64.accumulated key_eqb k kws Binary64.zero)
  /\ (forall k, In k (map fst t) <->
                exists w, In (k, w) kws /\ Binary64.ltb Binary64.zero w = true).
Proof.
  destruct (float_tally_fold kws []) as (Hd & Hp & Hg & Hk); [constructor | constructor |].
  cbn zeta. unfold Binary64.tally_positive.
  split; [exact Hd|]. split; [exact Hp|]. split; [exact Hg|].
  intros k. rewrite Hk. split; [|now right].
  intros [H | H]; [destruct H | exact H].
Qed.
Lemma float_tally_get_cases k t :
  In (k, Binary64.tally_get key_eqb k t) t
  \/ Binary64.tally_get key_eqb k t = Binary64.zero.
Proof.
  induction t as [|[k1 s] t IH]; cbn [In Binary64.tally_get]; [now right|].
  destruct (key_eqb k1 k) eqn:E.
  - apply key_eqb_eq in E. subst k1. left. now left.
  - destruct IH as [IH | IH]; [left; now right | now right].
Qed.

Context (key_ltb : K -> K -> bool).
Hypothesis key_asym : forall a b, key_ltb a b = true -> key_ltb b a = false.
Hypothesis key_negtrans :
  forall a b c, key_ltb a b = false -> key_ltb b c = false -> key_ltb a c = false.

(** The first entry of the sorted tally. *)
Lemma float_tally_best kws k s r :
  sorted (Binary64.by_weight_then_key key_ltb) (Binary64.tally_positive key_eqb kws)
  = (k, s) :: r ->
  let sum k := Binary64.accumulated key_eqb k kws Binary64.zero in
  (exists w, In (k, w) kws /\ Binary64.ltb Binary64.zero w = true)
  /\ (forall k', Binary64.ltb (sum k) (sum k') = false)
  /\ (forall k' w', In (k', w') kws -> Binary64.ltb Binary64.zero w' = true ->
        Binary64.eqb (sum k') (sum k) = true -> key_ltb k' k = false).
Proof.
  destruct (float_tally_positive_spec kws) as (Hd & Hp & Hg & Hk).
  cbn zeta in *. set (t := Binary64.tally_positive key_eqb kws) in *.
  rewrite Forall_forall in Hp.
  rewrite (sorted_ext (Binary64.by_weight_then_key key_ltb)
             (Binary64.by_rank_then_key key_ltb))
    by (intros x y Hx Hy; apply by_weight_then_key_rank; apply nonneg_not_nan; auto).
  intros E.
  destruct (sorted_head_min _ (by_rank_then_key_asym key_ltb key_asym)
              (by_rank_then_key_negtrans key_ltb key_negtrans) _ _ _ E)
    as [Hin Hmin].
  assert (Hwin : forall k' s', In (k', s') t ->
            Binary64.ltb s s' = false
            /\ (Binary64.eqb s' s = true -> key_ltb k' k = false)).
  { intros k' s' Hin'. specialize (Hmin _ Hin').
    unfold Binary64.by_rank_then_key in Hmin. cbn [fst snd] in Hmin.
    pose proof (nonneg_not_nan _ (Hp _ Hin)) as Ps.
    pose proof (nonneg_not_nan _ (Hp _ Hin')) as Ps'. cbn [snd] in Ps, Ps'.
    rewrite (ltb_rank _ _ Ps Ps'), (eqb_rank _ _ Ps' Ps).
    destruct (Binary64.rank_eqb (Binary64.rank s') (Binary64.rank s)) eqn:Er.
    - split; [|intros _; exact Hmin].
      destruct (Binary64.rank s') as [[a1 a2] a3], (Binary64.rank s) as [[b1 b2] b3].
      apply rank_eqb_eq in Er. apply not_true_iff_false. rewrite rank_ltb_lt. lia.
    - split; [exact Hmin | discriminate]. }
  rewrite <- (Hg k), (float_tally_in_get k s t Hd Hin).
  split; [apply Hk; change k with (fst (k, s)); now apply in_map|]. split.
  - intros k'. rewrite <- (Hg k').
    destruct (float_tally_get_cases k' t) as [Hv | Hv].
    + apply Hwin in Hv. apply Hv.
    + rewrite Hv. apply nonneg_not_below_zero. apply (Hp _ Hin).
  - intros k' w' Hin' Hw'. rewrite <- (Hg k').
    assert (Hv : In k' (map fst t)) by (apply Hk; eauto).
    apply float_tally_get_in in Hv. apply Hwin in Hv. apply Hv.
Qed.
End FloatTally.

(** ** Weighted voting on one field, in binary64 *)

Lemma Z_ltb_asym a b : (a <? b)%Z = true -> (b <? a)%Z = false.
Proof. rewrite Z.ltb_lt, Z.ltb_ge. lia. Qed.

Lemma Z_ltb_negtrans a b c :
  (a <? b)%Z = false -> (b <? c)%Z = false -> (a <? c)%Z = false.
Proof. rewrite !Z.ltb_ge. lia. Qed.

Lemma float_weighted_mode_spec values weights v :
  Binary64.weighted_mode values weights = Some v ->
  (exists w, In (v, w) (combine values weights) /\ Binary64.ltb Binary64.zero w = true)
  /\ (forall v', Binary64.ltb (Binary64.summed_weight v values weights)
                              (Binary64.summed_weight v' values weights) = false)
  /\ (forall v' w', In (v', w') (combine values weights) ->
        Binary64.ltb Binary64.zero w' = true ->
        Binary64.eqb (Binary64.summed_weight v' values weights)
                     (Binary64.summed_weight v values weights) = true ->
        (v <= v')%Z).
Proof.
  unfold Binary64.weighted_mode, Binary64.summed_weight. cbn zeta.
  destruct (sorted _ _) as [|[k s] r] eqn:E; [discriminate|].
  intros [= <-]. cbn [fst].
  destruct (float_tally_best Z.eqb Z.eqb_eq Z.ltb Z_ltb_asym Z_ltb_negtrans _ _ _ _ E)
    as (Hs & Hmax & Htie).
  split; [exact Hs|]. split; [exact Hmax|].
  intros v' w' Hin Hw He. apply Z.ltb_ge. eapply Htie; eauto.
Qed.

Lemma float_vote_spec cols all_cands : forall voted,
  Binary64.vote cols all_cands = Some voted ->
  Forall2 (fun col v =>
             Binary64.weighted_mode (map (fun c => col (Binary64.c_parts c)) all_cands)
                                    (map Binary64.c_w all_cands)
             = Some v) cols voted.
Proof.
  induction cols as [|col cols IH]; cbn [Binary64.vote]; intros voted.
  - intros [= <-]. constructor.
  - destruct (Binary64.weighted_mode _ _) as [v|] eqn:E; [|discriminate].
    destruct (Binary64.vote cols all_cands) as [vs|]; [|discriminate].
    intros [= <-]. constructor; auto.
Qed.

(** C4 (as amended).  In the weighted per-field vote, each of the six field
    winners is a value carried by a candidate of strictly positive weight;
    its summed weight, to which only the strictly positive weights
    contribute and which the program adds up in binary64 in the order of
    the candidates, rounding each addition, is the greatest of all values;
    and a value of the tally whose sum is equal is not smaller than the
    winner. *)
Theorem weighted_field_vote (all_cands : list Binary64.Candidate) (voted : list Z) :
  Binary64.vote columns all_cands = Some voted ->
  Forall2 (Binary64.field_winner all_cands) columns voted.
Proof.
  intros H. apply float_vote_spec in H.
  eapply Forall2_impl; [|exact H].
  intros col v Hm. unfold Binary64.field_winner. cbn zeta.
  apply float_weighted_mode_spec in Hm.
  destruct Hm as ((w & Hin & Hw) & Hmax & Htie). split; [|split; [exact Hmax|]].
  - apply in_combine_map in Hin. destruct Hin as (c & Hc & -> & ->). eauto.
  - intros c' Hc' Hw'. apply (Htie _ (Binary64.c_w c')); [|exact Hw'].
    clear -Hc'. induction all_cands as [|c cs IH]; [destruct Hc'|].
    cbn [map combine]. destruct Hc' as [-> | Hc']; [now left | right; auto].
Qed.

Lemma weighted_field_vote_witness :
  Forall2 (Binary64.field_winner Binary64.rounding_cands) columns [2024; 8; 1; 6; 31; 27]%Z.
Proof.
  apply (weighted_field_vote Binary64.rounding_cands). vm_compute. reflexivity.
Defined.

(** C4 as stated fails, whether the weights are read as the decimals of the
    source or as the doubles that the program holds.  The three candidates
    of [rounding_image] weigh 2.8000000000000003 and 0.40000000000000013
    for the second 28, and 3.2 for the second 27: the program adds the
    first two to the double 3.2 and elects 27 on the tie, although their
    sum is the greater number.  The two candidates of [tie_image] both
    weigh 3.2 in decimals, a tie that would elect 27: the program holds
    3.1999999999999997 for the second 27 and 3.2 for 28, and elects 28. *)
Lemma weighted_field_vote_rounds :
  (let values := map (fun c => fld6 (Binary64.c_parts c)) Binary64.rounding_cands in
   let weights := map Binary64.c_w Binary64.rounding_cands in
   Binary64.collect_all Binary64.rounding_image ROIS = Return Binary64.rounding_cands
   /\ Binary64.vote columns Binary64.rounding_cands = Some [2024; 8; 1; 6; 31; 27]%Z
   /\ (Binary64.exact_sum 27 values weights < Binary64.exact_sum 28 values weights)%Q)
  /\ collect_all Binary64.tie_image ROIS = Return decimal_tie_cands
  /\ vote columns decimal_tie_cands = Some [2024; 8; 1; 6; 31; 27]%Z
  /\ Binary64.collect_all Binary64.tie_image ROIS = Return Binary64.tie_cands
  /\ Binary64.vote columns Binary64.tie_cands = Some [2024; 8; 1; 6; 31; 28]%Z.
Proof. vm_compute. repeat split; reflexivity. Qed.

(** ** Where the final timestamp comes from *)

Lemma try_datetime_consistent y M d h m s r :
  try_datetime y M d h m s = Some r -> consistent r.
Proof.
  unfold try_datetime, mk_datetime, consistent.
  destruct (valid_datetime y M d h m s) eqn:E; [|discriminate].
  intros [= <-]. cbn. auto.
Qed.

Ltac binds :=
  repeat match goal with
         | |- context [bind ?m _] =>
             let E := fresh "E" in destruct m eqn:E; cbn [bind]; try discriminate
         end.

Lemma fields_of_groups_consistent caps r :
  fields_of_groups caps = Return (Some r) -> consistent r.
Proof.
  unfold fields_of_groups. binds. intros [= H]. eapply try_datetime_consistent; eauto.
Qed.

Lemma parse_with_consistent pat t r :
  parse_with pat t = Return (Some r) -> consistent r.
Proof.
  unfold parse_with. destruct (re_search pat t) as [[[b e] caps]|]; [|discriminate].
  apply fields_of_groups_consistent.
Qed.

Lemma parse_anchored_consistent t r :
  parse_anchored t = Return (Some r) -> consistent r.
Proof.
  unfold parse_anchored.
  destruct (re_search DATE_ANCHOR t) as [[[b e] dm]|]; [|discriminate].
  binds. destruct (re_search COLON_TIME _) as [[[b' e'] mt]|]; [|discriminate].
  binds. intros [= H]. eapply try_datetime_consistent; eauto.
Qed.

Lemma _grab_fields_loose_consistent t r :
  _grab_fields_loose t = Return (Some r) -> consistent r.
Proof.
  unfold _grab_fields_loose.
  destruct (re_search YEAR_ONLY t) as [[[b e] caps]|]; [|discriminate].
  binds.
  match goal with
  | |- context [match ?fs with _ => _ end] =>
      destruct fs as [[|M [|d [|h [|m [|s [|? ?]]]]]]|]; try discriminate
  end.
  intros [= H]. eapply try_datetime_consistent; eauto.
Qed.

Lemma parse_strict_consistent pats t r :
  parse_strict pats t = Return (Some r) -> consistent r.
Proof.
  induction pats as [|pat pats IH]; cbn [parse_strict]; [discriminate|].
  destruct (parse_with pat t) as [[r'|]|] eqn:E; try discriminate; [|exact IH].
  intros [= <-]. eapply parse_with_consistent; eauto.
Qed.

Lemma parse_timestamp_flex_consistent raw r :
  parse_timestamp_flex raw = Return (Some r) -> consistent r.
Proof.
  unfold parse_timestamp_flex. destruct raw as [|c raw]; [discriminate|].
  set (t := repair_time_triplets (normalize_ocr (c :: raw))).
  destruct (parse_anchored t) as [[r0|]|] eqn:E0; try discriminate.
  { intros [= <-]. eapply parse_anchored_consistent; eauto. }
  destruct (parse_with DATE_THEN_TIME_1OR2H t) as [[r1|]|] eqn:E1; try discriminate.
  { intros [= <-]. eapply parse_with_consistent; eauto. }
  destruct (_grab_fields_loose t) as [[r2|]|] eqn:E2; try discriminate.
  { intros [= <-]. eapply _grab_fields_loose_consistent; eauto. }
  destruct (parse_with FLEX_PAT t) as [[r3|]|] eqn:E3; try discriminate.
  { intros [= <-]. eapply parse_with_consistent; eauto. }
  apply parse_strict_consistent.
Qed.

Lemma collect_variants_consistent img r vtags : forall cs,
  collect_variants img r vtags = Return cs ->
  forall c, In c cs -> consistent (c_dt c, c_parts c).
Proof.
  induction vtags as [|v vtags IH]; cbn [collect_variants]; intros cs.
  - intros [= <-] c [].
  - destruct (img r v) as [text|]; cbn [bind]; [|discriminate].
    destruct (parse_timestamp_flex _) as [x|] eqn:Ep; cbn [bind]; [|discriminate].
    destruct (collect_variants img r vtags) as [cs'|]; cbn [bind]; [|discriminate].
    destruct x as [[d p]|]; intros [= <-] c.
    + intros [<- | Hc]; [|now apply (IH cs')].
      cbn [c_dt c_parts]. eapply parse_timestamp_flex_consistent; eauto.
    + now apply (IH cs').
Qed.

Lemma collect_all_consistent img rois : forall cs,
  collect_all img rois = Return cs ->
  forall c, In c cs -> consistent (c_dt c, c_parts c).
Proof.
  induction rois as [|r rois IH]; cbn [collect_all]; intros cs.
  - intros [= <-] c [].
  - unfold collect_candidates_from_roi.
    destruct (collect_variants img r VARIANTS) as [cs1|] eqn:E1; cbn [bind]; [|discriminate].
    destruct (collect_all img rois) as [cs2|]; cbn [bind]; [|discriminate].
    intros [= <-] c Hc. apply in_app_or in Hc. destruct Hc as [Hc | Hc].
    + eapply collect_variants_consistent; eauto.
    + now apply (IH cs2).
Qed.

Lemma choose_by_weighted_whole_string_member all_cands d rep :
  choose_by_weighted_whole_string all_cands = Return (Some d, rep) ->
  exists c, In c all_cands /\ c_dt c = d.
Proof.
  unfold choose_by_weighted_whole_string.
  destruct (tally_positive _ _) as [|kv t]; [discriminate|].
  destruct (first_of (sorted _ (kv :: t))) as [best|]; cbn [bind]; [|discriminate].
  match goal with
  | |- context [first_of (sorted ?f ?l)] =>
      destruct (sorted f l) as [|c r] eqn:E; cbn [first_of bind]; [discriminate|]
  end.
  intros [= <- <-]. exists c. split; [|reflexivity].
  assert (Hc : In c (c :: r)) by now left.
  rewrite <- E in Hc. apply sorted_in in Hc. apply filter_In in Hc. tauto.
Qed.

Lemma weighted_mode_support (col : parts -> Z) all_cands v :
  weighted_mode (map (fun c => col (c_parts c)) all_cands) (map c_w all_cands) = Some v ->
  exists c, In c all_cands /\ (0 < c_w c)%Q /\ col (c_parts c) = v.
Proof.
  intros H. apply weighted_mode_spec in H. destruct H as [(w & Hin & Hw) _].
  apply in_combine_map in Hin. destruct Hin as (c & Hc & -> & ->). eauto.
Qed.

Lemma columns_accessors all_cands :
  (forall c, In c all_cands -> consistent (c_dt c, c_parts c)) ->
  Forall2 (fun col acc => forall c, In c all_cands -> col (c_parts c) = acc (c_dt c))
          columns accessors.
Proof.
  intros Hwf. unfold columns, accessors.
  repeat constructor; intros c Hc; specialize (Hwf c Hc); unfold consistent in Hwf;
    cbn [fst snd] in Hwf; destruct (c_parts c) as [[[[[y M] d] h] m] s];
    destruct Hwf as [_ ->]; reflexivity.
Qed.

Lemma vote_support all_cands cols : forall accs voted,
  Forall2 (fun col acc => forall c, In c all_cands -> col (c_parts c) = acc (c_dt c))
          cols accs ->
  vote cols all_cands = Some voted ->
  Forall2 (fun acc v => exists c, In c all_cands /\ (0 < c_w c)%Q /\ acc (c_dt c) = v)
          accs voted.
Proof.
  induction cols as [|col cols IH]; intros accs voted Hca; inversion Hca; subst;
    cbn [vote].
  - intros [= <-]. constructor.
  - destruct (weighted_mode _ _) as [v|] eqn:E; [|discriminate].
    destruct (vote cols all_cands) as [vs|] eqn:Ev; [|discriminate].
    intros [= <-]. constructor; [|now apply IH].
    apply weighted_mode_support in E. destruct E as (c & Hc & Hw & Hv).
    exists c. repeat split; auto. rewrite <- Hv. symmetry. auto.
Qed.

Lemma choose_by_weighted_fields_origin all_cands d rep :
  (forall c, In c all_cands -> consistent (c_dt c, c_parts c)) ->
  choose_by_weighted_fields all_cands = Return (Some d, rep) ->
  (exists c, In c all_cands /\ c_dt c = d)
  \/ (valid_datetime (year d) (month d) (day d) (hour d) (minute d) (second d) = true
      /\ Forall (fun acc => exists c, In c all_cands /\ (0 < c_w c)%Q
                                      /\ acc (c_dt c) = acc d) accessors).
Proof.
  intros Hwf H.
  assert (Hne : all_cands <> []) by (intros ->; discriminate H).
  unfold choose_by_weighted_fields in H.
  replace (match all_cands with [] => [] | _ :: _ => columns end) with columns in H
    by (destruct all_cands; congruence).
  destruct (vote columns all_cands) as [voted|] eqn:Ev; [|discriminate].
  apply (vote_support _ _ _ _ (columns_accessors _ Hwf)) in Ev. unfold accessors in Ev.
  destruct voted as [|y [|M [|dd [|h [|mm [|ss [|? ?]]]]]]]; try discriminate.
  unfold mk_datetime in H. destruct (valid_datetime y M dd h mm ss) eqn:Hv.
  - injection H as <- _. right. cbn [year month day hour minute second].
    split; [exact Hv|]. unfold accessors.
    repeat match goal with
           | H : Forall2 _ (_ :: _) (_ :: _) |- _ =>
               inversion H as [|? ? ? ? ?Hm ?Hrest]; subst; clear H
           end.
    repeat constructor; assumption.
  - left. eapply choose_by_weighted_whole_string_member; eauto.
Qed.

Lemma select_origin all_cands elite_margin ts raw :
  (forall c, In c all_cands -> consistent (c_dt c, c_parts c)) ->
  select all_cands elite_margin = Return (Some ts, raw) ->
  (exists c, In c all_cands /\ c_dt c = ts)
  \/ (valid_datetime (year ts) (month ts) (day ts) (hour ts) (minute ts) (second ts) = true
      /\ Forall (fun acc => exists c, In c all_cands /\ (0 < c_w c)%Q
                                      /\ acc (c_dt c) = acc ts) accessors).
Proof.
  intros Hwf H.
  assert (Hne : all_cands <> []) by (intros ->; discriminate H).
  unfold select in H. destruct all_cands as [|c0 cs] eqn:Hl; [congruence|].
  rewrite <- Hl in *.
  destruct (choose_elite_candidate all_cands elite_margin) as [elite|] eqn:E.
  - injection H as <- _. left. exists elite. split; [|reflexivity].
    now apply choose_elite_candidate_max in E.
  - destruct (choose_by_weighted_fields all_cands) as [[[d|] rep]|] eqn:Ef;
      cbn [bind] in H; [| |discriminate].
    + injection H as <- _. eapply choose_by_weighted_fields_origin; eauto.
    + destruct (max_by_w_spec all_cands Hne) as (r & Hr & Hin & _).
      rewrite Hr in H. cbn [bind] in H. injection H as <- _.
      left. eauto.
Qed.




(** ** Triplet repair *)

Ltac bool_step :=
  match goal with
  | H : ?t = true |- context [?t] => rewrite H
  | H : ?t = false |- context [?t] => rewrite H
  end.

Ltac triplet_cbn :=
  cbn [re_match m_toks m_seq first_some counts run_len a_cls a_lo a_hi a_lazy
       one rep seq rev app Nat.min Nat.sub Nat.add skipn firstn length].

Lemma triplet_match s :
  re_match TRIPLET_FIELD s =
  match s with
  | b :: d1 :: d2 :: d3 :: rest =>
      if colon_or_space b && (is_digit d1 && (is_digit d2 && is_digit d3))
         && ahead colon_or_space rest
      then Some ([[b]; [d1; d2; d3]], 4)
      else None
  | _ => None
  end.
Proof.
  unfold TRIPLET_FIELD.
  destruct s as [|b [|d1 [|d2 [|d3 rest]]]]; try reflexivity;
    destruct (colon_or_space b) eqn:Hb;
    try destruct (is_digit d1) eqn:H1;
    try destruct (is_digit d2) eqn:H2;
    try destruct (is_digit d3) eqn:H3;
    try destruct (ahead colon_or_space rest) eqn:Ha;
    triplet_cbn; repeat (bool_step; triplet_cbn); try reflexivity.
  cbn [andb]. do 2 f_equal.
  destruct (Datatypes.length rest) as [|[|[|[|n]]]]; lia.
Qed.

Lemma sub_go_skip pat repl n : forall s,
  sub_go pat repl s n = sub_go pat repl (skipn n s) 0.
Proof.
  induction n as [|n IH]; intros s; [reflexivity|].
  destruct s as [|c s]; [reflexivity|]. cbn [sub_go skipn]. apply IH.
Qed.

Lemma sub_go_step pat repl c s :
  sub_go pat repl (c :: s) 0 =
  match re_match pat (c :: s) with
  | Some (caps, S n) => repl caps ++ sub_go pat repl (skipn n s) 0
  | _ => c :: sub_go pat repl s 0
  end.
Proof.
  cbn [sub_go]. destruct (re_match pat (c :: s)) as [[caps [|n]]|]; try reflexivity.
  now rewrite sub_go_skip.
Qed.

Lemma _fix_triplet b d1 d2 d3 :
  is_digit d2 = true -> is_digit d3 = true ->
  _fix [[b]; [d1; d2; d3]] =
  if one_of (lit "10") d1 && (10 * digit_val d2 + digit_val d3 <=? 59)%Z
  then [b; d2; d3] else [b; d1; d2; d3].
Proof.
  intros H2 H3. unfold _fix, group, isdigit, int_of.
  cbn [nth Nat.sub length skipn forallb app]. rewrite H2, H3. cbn [andb].
  rewrite andb_true_r.
  assert (Hv : forall d, is_digit d = true -> (0 <= digit_val d <= 9)%Z).
  { intros d Hd. apply digit_cases in Hd. cbn in Hd.
    repeat (destruct Hd as [<- | Hd]; [vm_compute; split; discriminate|]).
    destruct Hd. }
  pose proof (Hv d2 H2). pose proof (Hv d3 H3).
  cbn [fold_left].
  replace (0 <=? 10 * (10 * 0 + digit_val d2) + digit_val d3)%Z with true
    by (symmetry; apply Z.leb_le; lia).
  replace (10 * (10 * 0 + digit_val d2) + digit_val d3)%Z
    with (10 * digit_val d2 + digit_val d3)%Z by lia.
  cbn [andb]. reflexivity.
Qed.

Lemma repair_time_triplets_repaired n : forall s,
  length s <= n -> repaired s (repair_time_triplets s).
Proof.
  unfold repair_time_triplets, re_sub.
  induction n as [|n IH]; intros s Hn.
  - destruct s; [constructor | simpl in Hn; lia].
  - destruct s as [|b s]; [constructor|].
    rewrite sub_go_step, triplet_match. cbn [length] in Hn.
    destruct s as [|d1 [|d2 [|d3 rest]]];
      try (apply repaired_keep, IH; cbn [length] in *; lia).
    destruct (colon_or_space b) eqn:Hb; cbn [andb];
      [|apply repaired_keep, IH; cbn [length] in *; lia].
    destruct (is_digit d1) eqn:H1; cbn [andb];
      [|apply repaired_keep, IH; cbn [length] in *; lia].
    destruct (is_digit d2) eqn:H2; cbn [andb];
      [|apply repaired_keep, IH; cbn [length] in *; lia].
    destruct (is_digit d3) eqn:H3; cbn [andb];
      [|apply repaired_keep, IH; cbn [length] in *; lia].
    destruct (ahead colon_or_space rest) eqn:Ha;
      [|apply repaired_keep, IH; cbn [length] in *; lia].
    cbn [skipn]. rewrite _fix_triplet by assumption.
    assert (Hrest : repaired rest (sub_go TRIPLET_FIELD _fix rest 0)).
    { apply IH. cbn [length] in Hn. lia. }
    destruct (one_of (lit "10") d1) eqn:Hone; cbn [andb].
    + destruct (10 * digit_val d2 + digit_val d3 <=? 59)%Z eqn:Hr.
      * cbn [app]. apply repaired_fix; auto.
        -- cbn in Hone. unfold is_char in Hone.
           apply orb_true_iff in Hone. destruct Hone as [Hone | Hone].
           ++ right. now apply Ascii.eqb_eq.
           ++ rewrite orb_false_r in Hone. left. now apply Ascii.eqb_eq.
        -- apply Z.leb_le in Hr. split; [|exact Hr].
           assert (Hv : forall d, is_digit d = true -> (0 <= digit_val d)%Z).
           { intros d Hd. apply digit_cases in Hd. cbn in Hd.
             repeat (destruct Hd as [<- | Hd]; [vm_compute; discriminate|]).
             destruct Hd. }
           pose proof (Hv d2 H2). pose proof (Hv d3 H3). lia.
      * cbn [app]. now repeat apply repaired_keep.
    + cbn [app]. now repeat apply repaired_keep.
Qed.

(** C8.  [repair_time_triplets] only copies characters or replaces a
    three-digit run, preceded by a colon or a white-space character and
    followed by one or by the end of the string, by its last two digits,
    and that only when the first digit is 0 or 1 and the last two digits
    make a number from 0 to 59; it leaves [:299:] as it is and turns
    [:107:] into [:07:]. *)
Theorem repair_time_triplets_spec :
  (forall s, repaired s (repair_time_triplets s))
  /\ repair_time_triplets (lit ":299:") = lit ":299:"
  /\ repair_time_triplets (lit ":107:") = lit ":07:".
Proof.
  split; [|split; reflexivity].
  intros s. apply (repair_time_triplets_repaired (length s)). lia.
Qed.

(** ** Normalisation *)

Lemma rev_seq_head lo avail :
  lo <= avail -> exists l, rev (seq lo (S avail - lo)) = avail :: l.
Proof.
  intros H. replace (S avail - lo) with (S (avail - lo)) by lia.
  rewrite seq_S, rev_app_distr. cbn. replace (lo + (avail - lo)) with avail by lia.
  eauto.
Qed.

Lemma skipn_run_len_length p s :
  length s - length (skipn (run_len p s) s) = run_len p s.
Proof.
  rewrite length_skipn. pose proof (run_len_le p s). lia.
Qed.

Lemma re_match_at_least p lo s :
  re_match [T (at_least p lo)] s =
  if lo <=? run_len p s then Some ([], run_len p s) else None.
Proof.
  unfold re_match. cbn [m_toks m_seq]. unfold counts.
  cbn [a_cls a_lo a_hi a_lazy at_least].
  destruct (Nat.leb_spec lo (run_len p s)) as [H | H].
  - destruct (rev_seq_head lo (run_len p s) H) as [l ->]. cbn [first_some].
    now rewrite skipn_run_len_length.
  - replace (S (run_len p s) - lo) with 0 by lia. reflexivity.
Qed.

Lemma re_match_one p s :
  re_match [T (one p)] s =
  match s with
  | c :: _ => if p c then Some ([], 1) else None
  | [] => None
  end.
Proof.
  unfold re_match. cbn [m_toks m_seq]. unfold counts.
  cbn [a_cls a_lo a_hi a_lazy one].
  destruct s as [|c s]; [reflexivity|]. cbn [run_len].
  destruct (p c); [|reflexivity].
  cbn [Nat.min Nat.sub seq rev app first_some skipn length].
  do 2 f_equal. destruct (Datatypes.length s); lia.
Qed.

Lemma squeeze_cons p r c s :
  squeeze p r (c :: s) =
  if p c then
    match s with
    | c' :: _ => if p c' then squeeze p r s else r :: squeeze p r s
    | [] => [r]
    end
  else c :: squeeze p r s.
Proof. reflexivity. Qed.

Lemma squeeze_run p r c s :
  p c = true ->
  squeeze p r (c :: s) = r :: squeeze p r (skipn (run_len p s) s).
Proof.
  revert c. induction s as [|c' s IH]; intros c Hc; rewrite squeeze_cons, Hc.
  - reflexivity.
  - cbn [run_len]. destruct (p c') eqn:Hc'; [|reflexivity].
    cbn [skipn]. now apply IH.
Qed.

Lemma sub_at_least_squeeze p r lo n :
  (lo = 1 \/ (lo = 2 /\ forall c, p c = true -> c = r)) ->
  forall s, length s <= n ->
  re_sub [T (at_least p lo)] (fun _ => [r]) s = squeeze p r s.
Proof.
  intros Hlo. unfold re_sub. induction n as [|n IH]; intros s Hn.
  - destruct s; [reflexivity | simpl in Hn; lia].
  - destruct s as [|c s]; [reflexivity|]. cbn [length] in Hn.
    rewrite sub_go_step, re_match_at_least. cbn [run_len].
    destruct (p c) eqn:Hc.
    + destruct (Nat.leb_spec lo (S (run_len p s))) as [H | H].
      * rewrite squeeze_run by exact Hc. cbn [app]. f_equal. apply IH.
        rewrite length_skipn. lia.
      * destruct Hlo as [-> | [-> Hr]]; [lia|].
        assert (E : run_len p s = 0) by lia.
        rewrite IH by lia. rewrite squeeze_cons, Hc.
        destruct s as [|c' s]; [now rewrite (Hr c Hc)|].
        cbn [run_len] in E. destruct (p c'); [discriminate|].
        now rewrite (Hr c Hc).
    + replace (lo <=? 0) with false
        by (symmetry; apply Nat.leb_gt; destruct Hlo as [-> | [-> _]]; lia).
      rewrite squeeze_cons, Hc. f_equal. apply IH. lia.
Qed.

Lemma sub_one_filter p : forall s,
  re_sub [T (one p)] (fun _ => []) s = filter (fun c => negb (p c)) s.
Proof.
  unfold re_sub. induction s as [|c s IH]; [reflexivity|].
  rewrite sub_go_step, re_match_one. cbn [filter].
  destruct (p c); cbn [negb skipn app]; [exact IH | now rewrite IH].
Qed.

Lemma normalize_ocr_eq s :
  normalize_ocr s =
  squeeze (is_char "-") "-"
    (squeeze (is_char ":") ":"
       (squeeze is_space " "
          (filter (fun c => negb (is_slash c))
             (map confusable (strip (replace_char "010" " " s)))))).
Proof.
  destruct s as [|c0 s]; [reflexivity|].
  unfold normalize_ocr.
  set (t := strip (replace_char "010" " " (c0 :: s))).
  unfold DASH_RUN, COLON_RUN, WS_RUN, SLASH_RE.
  change (lit " ") with [" "%char]. change (lit ":") with [":"%char].
  change (lit "-") with ["-"%char].
  rewrite (sub_at_least_squeeze (is_char "-") "-" 2 _
             (or_intror (conj eq_refl (is_char_eq "-"))) _ (le_n _)).
  rewrite (sub_at_least_squeeze (is_char ":") ":" 2 _
             (or_intror (conj eq_refl (is_char_eq ":"))) _ (le_n _)).
  rewrite (sub_at_least_squeeze is_space " " 1 _ (or_introl eq_refl) _ (le_n _)).
  rewrite sub_one_filter.
  do 4 f_equal. unfold replace_char. rewrite !map_map.
  apply map_ext. intros c. reflexivity.
Qed.

Lemma squeeze_shape p r s :
  match s with
  | [] => squeeze p r s = []
  | c :: _ => exists tl, squeeze p r s = (if p c then r else c) :: tl
  end.
Proof.
  induction s as [|c s IH]; [reflexivity|].
  rewrite squeeze_cons. destruct (p c) eqn:Hc; [|eauto].
  destruct s as [|c' s]; [eauto|].
  destruct IH as [tl IH]. destruct (p c') eqn:Hc'; [|eauto].
  rewrite IH. eauto.
Qed.

Lemma squeeze_Forall (P : ascii -> Prop) p r s :
  P r -> Forall P s -> Forall P (squeeze p r s).
Proof.
  intros Hr. induction 1 as [|c s Hc Hs IH]; [constructor|].
  rewrite squeeze_cons. destruct (p c); [|now constructor].
  destruct s as [|c' s]; [now repeat constructor|].
  destruct (p c'); [exact IH | now constructor].
Qed.

Lemma squeeze_all_r p r s :
  Forall (fun c => p c = true -> c = r) (squeeze p r s).
Proof.
  induction s as [|c s IH]; [constructor|].
  rewrite squeeze_cons. destruct (p c) eqn:Hc.
  - destruct s as [|c' s]; [now repeat constructor|].
    destruct (p c'); [exact IH | now constructor].
  - constructor; [congruence | exact IH].
Qed.

Lemma noadj_cons q a s :
  noadj q (a :: s) <->
  match s with b :: _ => q a && q b = false | [] => True end /\ noadj q s.
Proof. reflexivity. Qed.

Lemma noadj_cons_shape q a s b tl :
  s = b :: tl -> q a && q b = false -> noadj q s -> noadj q (a :: s).
Proof. intros -> H1 H2. apply noadj_cons. auto. Qed.

Lemma squeeze_noadj_own p r s : noadj p (squeeze p r s).
Proof.
  induction s as [|c s IH]; [exact I|].
  rewrite squeeze_cons. destruct (p c) eqn:Hc.
  - destruct s as [|c' s]; [cbn; auto|].
    destruct (p c') eqn:Hc'; [exact IH|].
    pose proof (squeeze_shape p r (c' :: s)) as [tl E]. rewrite Hc' in E.
    eapply noadj_cons_shape; [exact E | | exact IH].
    rewrite Hc'. apply andb_false_r.
  - apply noadj_cons. split; [|exact IH].
    destruct (squeeze p r s); [exact I | now rewrite Hc].
Qed.

Lemma squeeze_noadj_other q p r s :
  q r = false -> noadj q s -> noadj q (squeeze p r s).
Proof.
  intros Hr. induction s as [|c s IH]; intros H; [exact I|].
  apply noadj_cons in H. destruct H as [Hcs Hs]. specialize (IH Hs).
  rewrite squeeze_cons. destruct (p c) eqn:Hc.
  - destruct s as [|c' s]; [cbn; auto|].
    destruct (p c') eqn:Hc'; [exact IH|].
    apply noadj_cons. split; [|exact IH].
    destruct (squeeze p r (c' :: s)); [exact I | now rewrite Hr].
  - apply noadj_cons. split; [|exact IH].
    pose proof (squeeze_shape p r s) as E.
    destruct s as [|c' s]; [now rewrite E|].
    destruct E as [tl ->]. destruct (p c'); [|exact Hcs].
    rewrite Hr. apply andb_false_r.
Qed.

Lemma squeeze_id p r s :
  noadj p s -> Forall (fun c => p c = true -> c = r) s -> squeeze p r s = s.
Proof.
  induction s as [|c s IH]; intros Hn Hf; [reflexivity|].
  apply noadj_cons in Hn. destruct Hn as [Hcs Hs].
  inversion Hf as [|? ? Hc Hf']; subst. specialize (IH Hs Hf').
  rewrite squeeze_cons, IH. destruct (p c) eqn:Hpc; [|reflexivity].
  rewrite (Hc eq_refl). destruct s as [|c' s]; [reflexivity|].
  rewrite ?Hpc in Hcs. cbn [andb] in Hcs. now rewrite Hcs.
Qed.

Lemma squeeze_last p r s d :
  s <> [] ->
  last (squeeze p r s) d = if p (last s d) then r else last s d.
Proof.
  induction s as [|c s IH]; [congruence|]. intros _.
  rewrite squeeze_cons. destruct s as [|c' s].
  - cbn [last squeeze]. destruct (p c); reflexivity.
  - assert (Hne : c' :: s <> []) by discriminate. specialize (IH Hne).
    change (last (c :: c' :: s) d) with (last (c' :: s) d).
    pose proof (squeeze_shape p r (c' :: s)) as [tl E].
    destruct (p c).
    + destruct (p c') eqn:Hc'; [exact IH|].
      rewrite E in *. exact IH.
    + rewrite E in *. exact IH.
Qed.

Lemma squeeze_ends p r s :
  (forall c, is_space c = false -> p c = true -> is_space r = false) ->
  ends_ok s -> ends_ok (squeeze p r s).
Proof.
  intros Hp [Hh Hl]. destruct s as [|c s]; [split; reflexivity|].
  split.
  - pose proof (squeeze_shape p r (c :: s)) as [tl ->]. cbn [hd] in *.
    destruct (p c) eqn:Hc; [exact (Hp c Hh Hc) | exact Hh].
  - rewrite squeeze_last by discriminate.
    destruct (p (last (c :: s) "x"%char)) eqn:Hc; [exact (Hp _ Hl Hc) | exact Hl].
Qed.

Lemma lstrip_id s : is_space (hd "x"%char s) = false -> lstrip s = s.
Proof. destruct s as [|c s]; cbn; [reflexivity|]. now intros ->. Qed.

Lemma lstrip_hd s : is_space (hd "x"%char (lstrip s)) = false.
Proof.
  induction s as [|c s IH]; [reflexivity|]. cbn [lstrip].
  destruct (is_space c) eqn:E; [exact IH | exact E].
Qed.

Lemma lstrip_suffix s : exists w, s = w ++ lstrip s.
Proof.
  induction s as [|c s [w IH]]; [now exists []|]. cbn [lstrip].
  destruct (is_space c); [|now exists []].
  exists (c :: w). cbn. now rewrite <- IH.
Qed.

Lemma hd_rev_last (s : str) d : hd d (rev s) = last s d.
Proof.
  induction s as [|a l _] using rev_ind; [reflexivity|].
  now rewrite rev_app_distr, last_last.
Qed.

Lemma strip_id s : ends_ok s -> strip s = s.
Proof.
  intros [Hh Hl]. unfold strip. rewrite (lstrip_id s Hh).
  rewrite lstrip_id by now rewrite hd_rev_last.
  apply rev_involutive.
Qed.

Lemma strip_ends s : ends_ok (strip s).
Proof.
  unfold strip, ends_ok. set (u := lstrip s). set (v := lstrip (rev u)).
  split.
  - destruct (lstrip_suffix (rev u)) as [w Hw]. fold v in Hw.
    assert (Hu : u = rev v ++ rev w).
    { rewrite <- rev_app_distr, <- Hw. symmetry. apply rev_involutive. }
    destruct (rev v) as [|a l] eqn:E; [reflexivity|].
    pose proof (lstrip_hd s) as H. fold u in H. rewrite Hu in H. exact H.
  - rewrite <- hd_rev_last, rev_involutive. apply lstrip_hd.
Qed.

Lemma lstrip_Forall (P : ascii -> Prop) s : Forall P s -> Forall P (lstrip s).
Proof.
  induction 1 as [|c s Hc Hs IH]; [constructor|]. cbn [lstrip].
  destruct (is_space c); [exact IH | now constructor].
Qed.

Lemma strip_Forall (P : ascii -> Prop) s : Forall P s -> Forall P (strip s).
Proof.
  intros H. unfold strip.
  now apply Forall_rev, lstrip_Forall, Forall_rev, lstrip_Forall.
Qed.

Ltac each_char c := destruct c as [[] [] [] [] [] [] [] []].

Lemma confusable_letter c : is_letter (confusable c) = false.
Proof. each_char c; reflexivity. Qed.

Lemma confusable_space c : is_space (confusable c) = is_space c.
Proof. each_char c; reflexivity. Qed.

Lemma confusable_slash c : is_slash (confusable c) = is_slash c.
Proof. each_char c; reflexivity. Qed.

Lemma confusable_id c : is_letter c = false -> confusable c = c.
Proof. each_char c; intros H; try reflexivity; discriminate H. Qed.

Lemma newline_space c : is_char "010" c = true -> is_space c = true /\ c <> " "%char.
Proof. intros H. apply is_char_eq in H. subst. split; [reflexivity | discriminate]. Qed.

Lemma map_hd (f : ascii -> ascii) d s : hd (f d) (map f s) = f (hd d s).
Proof. destruct s; reflexivity. Qed.

Lemma map_last (f : ascii -> ascii) d s : last (map f s) (f d) = f (last s d).
Proof.
  induction s as [|a s IH]; [reflexivity|].
  destruct s as [|b s]; [reflexivity|]. exact IH.
Qed.

Lemma confusable_ends s : ends_ok s -> ends_ok (map confusable s).
Proof.
  intros [Hh Hl]. split.
  - change "x"%char with (confusable "x"). now rewrite map_hd, confusable_space.
  - change "x"%char with (confusable "x"). now rewrite map_last, confusable_space.
Qed.

Lemma filter_id_Forall (f : ascii -> bool) s :
  Forall (fun c => f c = true) s -> filter f s = s.
Proof.
  induction 1 as [|c s Hc Hs IH]; [reflexivity|]. cbn. now rewrite Hc, IH.
Qed.

Lemma map_id_Forall (f : ascii -> ascii) s :
  Forall (fun c => f c = c) s -> map f s = s.
Proof.
  induction 1 as [|c s Hc Hs IH]; [reflexivity|]. cbn. now rewrite Hc, IH.
Qed.

Lemma normalize_ocr_normal_form x :
  Forall (fun c => is_slash c = false) x -> normal_form (normalize_ocr x).
Proof.
  intros Hx. rewrite normalize_ocr_eq.
  set (t1 := strip (replace_char "010" " " x)).
  assert (H1s : Forall (fun c => is_slash c = false) t1).
  { apply strip_Forall. unfold replace_char. apply Forall_map.
    eapply Forall_impl; [|exact Hx]. intros c Hc. cbn beta.
    destruct (is_char "010" c); [reflexivity | exact Hc]. }
  assert (H1e : ends_ok t1) by apply strip_ends.
  set (t2 := map confusable t1).
  assert (H2s : Forall (fun c => is_slash c = false) t2).
  { apply Forall_map. eapply Forall_impl; [|exact H1s].
    intros c Hc. cbn beta. now rewrite confusable_slash. }
  assert (H2l : Forall (fun c => is_letter c = false) t2).
  { apply Forall_map. apply Forall_forall. intros c _. apply confusable_letter. }
  assert (H2e : ends_ok t2) by now apply confusable_ends.
  rewrite (filter_id_Forall _ t2)
    by (eapply Forall_impl; [|exact H2s]; intros c Hc; cbn beta; now rewrite Hc).
  set (t3 := squeeze is_space " " t2).
  set (t4 := squeeze (is_char ":") ":" t3).
  unfold normal_form. repeat split.
  - now repeat apply squeeze_Forall.
  - now repeat apply squeeze_Forall.
  - apply squeeze_Forall; [discriminate|]. apply squeeze_Forall; [discriminate|].
    apply squeeze_all_r.
  - apply squeeze_noadj_other; [reflexivity|].
    apply squeeze_noadj_other; [reflexivity|]. apply squeeze_noadj_own.
  - apply squeeze_noadj_other; [reflexivity|]. apply squeeze_noadj_own.
  - apply squeeze_noadj_own.
  - apply squeeze_ends; [reflexivity|]. apply squeeze_ends; [reflexivity|].
    apply squeeze_ends; [congruence|]. exact H2e.
  - apply squeeze_ends; [reflexivity|]. apply squeeze_ends; [reflexivity|].
    apply squeeze_ends; [congruence|]. exact H2e.
Qed.

Lemma normal_form_fixed r : normal_form r -> normalize_ocr r = r.
Proof.
  intros (Hs & Hl & Hw & Nw & Nc & Nd & He). rewrite normalize_ocr_eq.
  assert (E0 : replace_char "010" " " r = r).
  { apply map_id_Forall. eapply Forall_impl; [|exact Hw]. intros c Hc. cbn beta.
    destruct (is_char "010" c) eqn:E; [|reflexivity].
    apply newline_space in E. destruct E as [E1 E2]. now apply Hc in E1. }
  rewrite E0, (strip_id r He).
  rewrite (map_id_Forall confusable r)
    by (eapply Forall_impl; [|exact Hl]; intros c Hc; now apply confusable_id).
  rewrite (filter_id_Forall _ r)
    by (eapply Forall_impl; [|exact Hs]; intros c Hc; cbn beta; now rewrite Hc).
  rewrite (squeeze_id is_space " " r Nw Hw).
  rewrite (squeeze_id (is_char ":") ":" r Nc)
    by (apply Forall_forall; intros c _; apply is_char_eq).
  apply squeeze_id; [exact Nd|]. apply Forall_forall. intros c _. apply is_char_eq.
Qed.

(** C9.  [normalize_ocr] is not idempotent: ["/ 1"] is stripped while the
    slash still stands in front of the blank, the slash is removed
    afterwards, and the result [" 1"] starts with a blank that a second
    pass strips. *)
Lemma normalize_ocr_not_idempotent :
  normalize_ocr (lit "/ 1") = lit " 1"
  /\ normalize_ocr (normalize_ocr (lit "/ 1")) = lit "1"
  /\ normalize_ocr (normalize_ocr (lit "/ 1")) <> normalize_ocr (lit "/ 1").
Proof. repeat split; try reflexivity. discriminate. Qed.

(** ** Matches found without backtracking *)

Lemma m_seq_greedy {R : Type} atoms : forall s g s' (k : str -> str -> option R) r,
  greedy_seq atoms s = Some (g, s') -> k g s' = Some r ->
  m_seq atoms s k = Some r.
Proof.
  induction atoms as [|a rest IH]; cbn [greedy_seq m_seq]; intros s g s' k r.
  - intros [= <- <-]. auto.
  - destruct (counts a s) as [|n ns]; [discriminate|].
    destruct (greedy_seq rest (skipn n s)) as [[g1 s1]|] eqn:E; [|discriminate].
    intros [= <- <-] Hk. cbn [first_some].
    now rewrite (IH _ _ _ (fun g0 s0 => k (firstn n s ++ g0) s0) r E Hk).
Qed.

Lemma m_toks_greedy {R : Type} ts : forall s caps caps' s' (k : list str -> str -> option R) r,
  greedy_toks ts s caps = Some (caps', s') -> k caps' s' = Some r ->
  m_toks ts s caps k = Some r.
Proof.
  induction ts as [|t ts IH]; intros s caps caps' s' k r; cbn [greedy_toks m_toks].
  - intros [= <- <-]. auto.
  - destruct t as [a | body | p | ].
    + destruct (greedy_seq [a] s) as [[g s1]|] eqn:E; [|discriminate].
      intros H Hk. eapply m_seq_greedy; [exact E|]. eapply IH; eauto.
    + destruct (greedy_seq body s) as [[g s1]|] eqn:E; [|discriminate].
      intros H Hk. eapply m_seq_greedy; [exact E|]. eapply IH; eauto.
    + destruct (ahead p s); [|discriminate]. apply IH.
    + destruct (at_eol s); [|discriminate]. apply IH.
Qed.

Lemma re_match_greedy pat s caps s' :
  greedy_toks pat s [] = Some (caps, s') ->
  re_match pat s = Some (caps, length s - length s').
Proof.
  intros H. unfold re_match. eapply m_toks_greedy; [exact H | reflexivity].
Qed.

Lemma re_search_here pat s caps n :
  re_match pat s = Some (caps, n) -> re_search pat s = Some (0, n, caps).
Proof.
  unfold re_search. destruct s; cbn [search_from]; now intros ->.
Qed.

Lemma search_from_next pat c s i :
  re_match pat (c :: s) = None ->
  search_from pat (c :: s) i = search_from pat s (S i).
Proof. cbn [search_from]. now intros ->. Qed.

Lemma re_match_no_count body a ts s :
  counts a s = [] -> re_match (G (a :: body) :: ts) s = None.
Proof.
  intros H. unfold re_match. cbn [m_toks m_seq]. now rewrite H.
Qed.

Lemma sub_go_no_match pat repl s :
  Forall (fun s' => re_match pat s' = None) (tails s) ->
  sub_go pat repl s 0 = s.
Proof.
  induction s as [|c s IH]; [reflexivity|]. cbn [tails]. intros H.
  inversion H as [|? ? Hc Hs]; subst.
  rewrite sub_go_step, Hc. f_equal. now apply IH.
Qed.

(** ** The strict pattern on a canonical string *)

Ltac char_tests :=
  repeat (unfold is_slash, is_letter, one_of, colon_or_space, non_digit, any_char;
          cbn [existsb lit list_ascii_of_string andb orb negb];
          try test_step).

Ltac greedy_cbn :=
  unfold counts;
  cbn [greedy_toks greedy_seq run_len a_cls a_lo a_hi a_lazy
       one rep rep_lazy at_least star seq rev app Nat.min Nat.sub Nat.add
       skipn firstn at_eol ahead].

Ltac greedy_eval := repeat (progress (greedy_cbn; char_tests)).

Lemma digit_val_range d : is_digit d = true -> (0 <= digit_val d <= 9)%Z.
Proof.
  intros Hd. apply digit_cases in Hd. cbn in Hd.
  repeat (destruct Hd as [<- | Hd]; [vm_compute; split; discriminate|]).
  destruct Hd.
Qed.

Lemma int_of_two a b :
  is_digit a = true -> is_digit b = true ->
  int_of [a; b] = Return (10 * digit_val a + digit_val b)%Z.
Proof.
  intros Ha Hb. unfold int_of. cbn [forallb fold_left]. rewrite Ha, Hb. cbn [andb].
  f_equal; lia.
Qed.

Lemma int_of_year a b :
  is_digit a = true -> is_digit b = true ->
  int_of ["2"; "0"; a; b]%char = Return (2000 + (10 * digit_val a + digit_val b))%Z.
Proof.
  intros Ha Hb. unfold int_of. cbn [forallb fold_left]. rewrite Ha, Hb.
  change (is_digit "2") with true. change (is_digit "0") with true. cbn [andb].
  change (digit_val "2") with 2%Z. change (digit_val "0") with 0%Z.
  f_equal; lia.
Qed.

Section Canonical.
Variables y3 y4 mo1 mo2 dy1 dy2 hr1 hr2 mi1 mi2 sc1 sc2 : ascii.
Hypothesis Hy3 : is_digit y3 = true.
Hypothesis Hy4 : is_digit y4 = true.
Hypothesis Hmo1 : is_digit mo1 = true.
Hypothesis Hmo2 : is_digit mo2 = true.
Hypothesis Hdy1 : is_digit dy1 = true.
Hypothesis Hdy2 : is_digit dy2 = true.
Hypothesis Hhr1 : is_digit hr1 = true.
Hypothesis Hhr2 : is_digit hr2 = true.
Hypothesis Hmi1 : is_digit mi1 = true.
Hypothesis Hmi2 : is_digit mi2 = true.
Hypothesis Hsc1 : is_digit sc1 = true.
Hypothesis Hsc2 : is_digit sc2 = true.

Local Notation "'canon'" := (canonical y3 y4 mo1 mo2 dy1 dy2 hr1 hr2 mi1 mi2 sc1 sc2).

Lemma canonical_normal_form : normal_form canon.
Proof.
  unfold normal_form, canonical.
  refine (conj _ (conj _ (conj _ (conj _ (conj _ (conj _ (conj _ _))))))).
  - repeat constructor; char_tests; reflexivity.
  - repeat constructor; char_tests; reflexivity.
  - repeat constructor; intros H; try reflexivity; revert H; char_tests; discriminate.
  - cbn [noadj]. repeat split; char_tests; reflexivity.
  - cbn [noadj]. repeat split; char_tests; reflexivity.
  - cbn [noadj]. repeat split; char_tests; reflexivity.
  - reflexivity.
  - cbn [last]. now apply digit_not_space.
Qed.

Lemma canonical_repair : repair_time_triplets canon = canon.
Proof.
  unfold repair_time_triplets, re_sub. apply sub_go_no_match.
  unfold canonical. cbn [tails].
  repeat constructor; rewrite triplet_match; cbv iota beta; char_tests;
    cbn [ahead at_eol]; char_tests; reflexivity.
Qed.

Lemma canonical_date :
  re_search DATE_ANCHOR canon
  = Some (0, 10, [["2"; "0"; y3; y4]; [mo1; mo2]; [dy1; dy2]]%char).
Proof.
  apply re_search_here.
  change 10 with (length canon
                  - length ([" "; hr1; hr2; ":"; mi1; mi2; ":"; sc1; sc2]%char)).
  apply re_match_greedy.
  unfold DATE_ANCHOR, YEAR, D2, canonical. greedy_eval. reflexivity.
Qed.

Lemma canonical_time :
  re_search COLON_TIME ([" "; hr1; hr2; ":"; mi1; mi2; ":"; sc1; sc2]%char)
  = Some (1, 9, [[hr1; hr2]; [mi1; mi2]; [sc1; sc2]]).
Proof.
  unfold re_search. rewrite search_from_next.
  2:{ apply re_match_no_count. reflexivity. }
  assert (E : re_match COLON_TIME [hr1; hr2; ":"; mi1; mi2; ":"; sc1; sc2]%char
              = Some ([[hr1; hr2]; [mi1; mi2]; [sc1; sc2]], 8)).
  { change 8 with (length [hr1; hr2; ":"; mi1; mi2; ":"; sc1; sc2]%char
                   - length (@nil ascii)).
    apply re_match_greedy. unfold COLON_TIME, D2. greedy_eval. reflexivity. }
  cbn [search_from]. now rewrite E.
Qed.

Lemma canonical_parse_anchored :
  parse_anchored canon
  = Return (try_datetime (2000 + (10 * digit_val y3 + digit_val y4))
                         (10 * digit_val mo1 + digit_val mo2)
                         (10 * digit_val dy1 + digit_val dy2)
                         (10 * digit_val hr1 + digit_val hr2)
                         (10 * digit_val mi1 + digit_val mi2)
                         (10 * digit_val sc1 + digit_val sc2)).
Proof.
  unfold parse_anchored. rewrite canonical_date. unfold group. cbn [nth Nat.sub].
  rewrite int_of_year, !int_of_two by assumption. cbn [bind].
  unfold canonical. cbn [skipn]. rewrite canonical_time. unfold group. cbn [nth Nat.sub].
  rewrite !int_of_two by assumption. reflexivity.
Qed.

Lemma canonical_parse r :
  try_datetime (2000 + (10 * digit_val y3 + digit_val y4))
               (10 * digit_val mo1 + digit_val mo2)
               (10 * digit_val dy1 + digit_val dy2)
               (10 * digit_val hr1 + digit_val hr2)
               (10 * digit_val mi1 + digit_val mi2)
               (10 * digit_val sc1 + digit_val sc2) = Some r ->
  parse_timestamp_flex canon = Return (Some r).
Proof.
  intros H. unfold parse_timestamp_flex.
  change canon with ("2"%char :: tl canon) at 1. cbv iota.
  rewrite (normal_form_fixed _ canonical_normal_form), canonical_repair.
  now rewrite canonical_parse_anchored, H.
Qed.
End Canonical.

Lemma dchar_spec k :
  (0 <= k <= 9)%Z -> is_digit (dchar k) = true /\ digit_val (dchar k) = k.
Proof.
  intros H.
  assert (E : (k = 0 \/ k = 1 \/ k = 2 \/ k = 3 \/ k = 4 \/ k = 5 \/ k = 6
               \/ k = 7 \/ k = 8 \/ k = 9)%Z) by lia.
  repeat (destruct E as [-> | E]; [split; reflexivity|]). subst. split; reflexivity.
Qed.

Lemma two_spec n :
  (0 <= n <= 99)%Z ->
  is_digit (dchar (n / 10)) = true /\ is_digit (dchar (n mod 10)) = true
  /\ (10 * digit_val (dchar (n / 10)) + digit_val (dchar (n mod 10)))%Z = n.
Proof.
  intros H.
  pose proof (Z.div_mod n 10) as Hdm. pose proof (Z.mod_pos_bound n 10) as Hmb.
  assert (H1 : (0 <= n / 10 <= 9)%Z) by lia.
  assert (H2 : (0 <= n mod 10 <= 9)%Z) by lia.
  destruct (dchar_spec _ H1) as [A1 V1]. destruct (dchar_spec _ H2) as [A2 V2].
  repeat split; auto. rewrite V1, V2. lia.
Qed.

Lemma days_in_month_le y m : (days_in_month y m <= 31)%Z.
Proof.
  unfold days_in_month.
  destruct (m =? 2)%Z; [destruct (is_leap y); lia|].
  destruct ((m =? 4) || (m =? 6) || (m =? 9) || (m =? 11))%Z; lia.
Qed.

Lemma valid_datetime_ranges y M d h m s :
  valid_datetime y M d h m s = true ->
  (1 <= M <= 12 /\ 1 <= d <= 31 /\ 0 <= h <= 23 /\ 0 <= m <= 59 /\ 0 <= s <= 59)%Z.
Proof.
  unfold valid_datetime. rewrite !andb_true_iff, !Z.leb_le.
  pose proof (days_in_month_le y M). lia.
Qed.

(** C2 (as amended).  For a calendar-valid date-time whose year is between
    2000 and 2099, [parse_timestamp_flex] applied to the zero-padded string
    [YYYY-MM-DD HH:MM:SS] returns exactly its six fields. *)
Theorem parse_timestamp_flex_strict (Y M D h m s : Z) :
  valid_datetime Y M D h m s = true ->
  (2000 <= Y <= 2099)%Z ->
  parse_timestamp_flex (strftime (DT Y M D h m s))
  = Return (Some (DT Y M D h m s, (Y, M, D, h, m, s))).
Proof.
  intros Hv HY.
  destruct (valid_datetime_ranges _ _ _ _ _ _ Hv) as (HM & HD & Hh & Hm & Hs).
  pose proof (Z.div_mod Y 100) as Hdm. pose proof (Z.mod_pos_bound Y 100) as Hmb.
  assert (Hc : (Y / 100 = 20)%Z) by lia.
  assert (Hy : (0 <= Y mod 100 <= 99)%Z) by lia.
  assert (HYe : (Y = 2000 + Y mod 100)%Z) by lia.
  destruct (two_spec _ Hy) as (Ay1 & Ay2 & Vy).
  destruct (two_spec M) as (AM1 & AM2 & VM); [lia|].
  destruct (two_spec D) as (AD1 & AD2 & VD); [lia|].
  destruct (two_spec h) as (Ah1 & Ah2 & Vh); [lia|].
  destruct (two_spec m) as (Am1 & Am2 & Vm); [lia|].
  destruct (two_spec s) as (As1 & As2 & Vs); [lia|].
  unfold strftime, four, two. cbn [year month day hour minute second].
  rewrite Hc. change (dchar (20 / 10)) with "2"%char.
  change (dchar (20 mod 10)) with "0"%char.
  cbn [app lit list_ascii_of_string].
  apply canonical_parse; try assumption.
  rewrite Vy, VM, VD, Vh, Vm, Vs, <- HYe.
  unfold try_datetime, mk_datetime. now rewrite Hv.
Qed.

Lemma parse_timestamp_flex_strict_witness :
  parse_timestamp_flex (strftime (DT 2024 8 1 6 31 27))
  = Return (Some (DT 2024 8 1 6 31 27, (2024, 8, 1, 6, 31, 27)%Z)).
Proof.
  apply parse_timestamp_flex_strict; [reflexivity | lia].
Defined.

(** C2 as stated fails: every pattern of the parser starts with [20\d{2}],
    so the valid date-time 1999-08-01 06:31:27 is not recognised. *)
Lemma parse_timestamp_flex_rejects_1999 :
  valid_datetime 1999 8 1 6 31 27 = true
  /\ strftime (DT 1999 8 1 6 31 27) = lit "1999-08-01 06:31:27"
  /\ parse_timestamp_flex (lit "1999-08-01 06:31:27") = Return None.
Proof. repeat split; vm_compute; reflexivity. Qed.

(** ** The pipeline never raises *)

Lemma sorted_not_nil {A : Type} (ltb : A -> A -> bool) l :
  l <> [] -> exists x r, sorted ltb l = x :: r.
Proof.
  intros H. destruct (sorted ltb l) as [|x r] eqn:E; [|eauto].
  exfalso. apply H. apply Permutation_nil. rewrite <- E. symmetry. apply sorted_perm.
Qed.

Lemma choose_by_weighted_whole_string_returns all_cands :
  exists r, choose_by_weighted_whole_string all_cands = Return r.
Proof.
  unfold choose_by_weighted_whole_string.
  set (kws := map (fun c => (c_canon c, c_w c)) all_cands).
  destruct (tally_positive_spec str_eqb str_eqb_eq kws) as (_ & _ & _ & Hk).
  cbn zeta in Hk.
  destruct (tally_positive str_eqb kws) as [|kv t] eqn:Et; [eauto|].
  destruct (sorted_not_nil (by_weight_then_key str_ltb) (kv :: t)) as (best & r & E);
    [discriminate|].
  rewrite E. cbn [first_of bind].
  assert (Hb : In (fst best) (map fst (kv :: t))).
  { apply in_map. apply (sorted_in (by_weight_then_key str_ltb)). rewrite E. now left. }
  apply Hk in Hb. destruct Hb as (w & Hin & Hw).
  apply in_map_iff in Hin. destruct Hin as (c & Ec & Hc). injection Ec as Ec _.
  match goal with
  | |- context [first_of (sorted ?f ?l)] =>
      destruct (sorted_not_nil f l) as (rep & r' & E')
  end.
  { intros Hnil.
    assert (Hf : In c (filter (fun c0 => str_eqb (c_canon c0) (fst best)) all_cands)).
    { apply filter_In. split; [exact Hc | now apply str_eqb_eq]. }
    rewrite Hnil in Hf. destruct Hf. }
  rewrite E'. cbn [first_of bind]. eauto.
Qed.

Lemma choose_by_weighted_fields_returns all_cands :
  all_cands <> [] -> exists r, choose_by_weighted_fields all_cands = Return r.
Proof.
  intros Hne. unfold choose_by_weighted_fields.
  replace (match all_cands with [] => [] | _ :: _ => columns end) with columns
    by (destruct all_cands; congruence).
  destruct (vote columns all_cands) as [voted|] eqn:Ev; [|eauto].
  apply vote_spec, Forall2_length in Ev. cbn in Ev.
  destruct voted as [|y [|M [|d [|h [|mm [|ss [|? ?]]]]]]]; try discriminate Ev.
  destruct (mk_datetime y M d h mm ss); [eauto|].
  apply choose_by_weighted_whole_string_returns.
Qed.

Lemma select_returns all_cands elite_margin :
  exists r, select all_cands elite_margin = Return r.
Proof.
  unfold select. destruct all_cands as [|c0 cs] eqn:Hl; [eauto|]. rewrite <- Hl.
  assert (Hne : all_cands <> []) by (rewrite Hl; discriminate).
  destruct (choose_elite_candidate all_cands elite_margin); [eauto|].
  destruct (choose_by_weighted_fields_returns all_cands Hne) as [[[d|] rep] ->];
    cbn [bind]; [eauto|].
  destruct (max_by_w_spec all_cands Hne) as (r & -> & _). cbn [bind]. eauto.
Qed.

Lemma process_image_returns decoded elite_margin :
  (forall img, decoded = Some img -> readable img) ->
  exists r, process_image decoded elite_margin = Return r.
Proof.
  unfold process_image. destruct decoded as [img|]; [|eauto]. intros Hr.
  destruct (collect_all_returns img ROIS (Hr img eq_refl)) as [cs ->]. cbn [bind].
  apply select_returns.
Qed.

(** * Further properties of the script *)

(** ** The parser *)

(** X1.  [parse_timestamp_flex] never raises: the [int] conversions and
    [_pairify] only receive what the patterns captured, which they accept. *)
Theorem parse_timestamp_flex_never_raises (raw : str) :
  parse_timestamp_flex raw <> Raise.
Proof.
  destruct (parse_timestamp_flex_returns raw) as [r ->]. discriminate.
Qed.

(** X2.  [_pairify] reads two digits, adjacent or split by one character
    that is not a digit, as the two-digit number they spell. *)
Theorem _pairify_reads_pair (d1 d2 : ascii) :
  is_digit d1 = true -> is_digit d2 = true ->
  _pairify [d1; d2] = Return (10 * digit_val d1 + digit_val d2)%Z
  /\ forall x, is_digit x = false ->
       _pairify [d1; x; d2] = Return (10 * digit_val d1 + digit_val d2)%Z.
Proof.
  intros H1 H2. split.
  - unfold _pairify, PAIRIFY. re_eval. now apply int_of_two.
  - intros x Hx. unfold _pairify, PAIRIFY.
    destruct (is_space x) eqn:Hs; re_eval; now apply int_of_two.
Qed.

Lemma _pairify_reads_pair_witness :
  _pairify (lit "07") = Return 7%Z
  /\ forall x, is_digit x = false -> _pairify ["0"%char; x; "7"%char] = Return 7%Z.
Proof.
  apply (_pairify_reads_pair "0" "7"); reflexivity.
Defined.

Lemma year_capture g :
  seq_ok YEAR g ->
  exists a b, g = ["2"; "0"; a; b]%char /\ is_digit a = true /\ is_digit b = true.
Proof.
  intros H. unfold YEAR in H.
  inversion H as [|? ? g1 r1 (H1 & L1 & U1) Hr1]; subst; clear H.
  inversion Hr1 as [|? ? g2 r2 (H2 & L2 & U2) Hr2]; subst; clear Hr1.
  inversion Hr2 as [|? ? g3 r3 (H3 & L3 & U3) Hr3]; subst; clear Hr2.
  inversion Hr3; subst; clear Hr3. cbn in *.
  destruct g1 as [|c1 [|? ?]]; cbn in *; try lia.
  destruct g2 as [|c2 [|? ?]]; cbn in *; try lia.
  destruct g3 as [|a [|b [|? ?]]]; cbn in *; try lia.
  rewrite andb_true_r in H1, H2. apply is_char_eq in H1, H2. subst.
  apply andb_true_iff in H3. destruct H3 as [Ha Hb]. rewrite andb_true_r in Hb.
  eauto.
Qed.

Lemma year_value g z :
  seq_ok YEAR g -> int_of g = Return z -> (2000 <= z <= 2099)%Z.
Proof.
  intros Hg Hz. destruct (year_capture g Hg) as (a & b & -> & Ha & Hb).
  rewrite int_of_year in Hz by assumption.
  assert (E : z = (2000 + (10 * digit_val a + digit_val b))%Z) by congruence.
  pose proof (digit_val_range a Ha). pose proof (digit_val_range b Hb). lia.
Qed.

Lemma try_datetime_year y M d h m s r :
  try_datetime y M d h m s = Some r -> fld1 (snd r) = y.
Proof.
  unfold try_datetime. destruct (mk_datetime y M d h m s); [|discriminate].
  now intros [= <-].
Qed.

Lemma fields_of_groups_century bodies caps r :
  Forall2 seq_ok (YEAR :: bodies) caps ->
  fields_of_groups caps = Return (Some r) -> in_century r.
Proof.
  intros Hc. inversion Hc as [|? g ? caps' Hg Hrest]; subst.
  unfold fields_of_groups, group at 1. cbn [nth Nat.sub].
  destruct (int_of g) as [y|] eqn:Ey; cbn [bind]; [|discriminate].
  binds. intros [= H]. unfold in_century.
  rewrite (try_datetime_year _ _ _ _ _ _ _ H). eapply year_value; eauto.
Qed.

Lemma parse_with_century pat t r :
  (exists bodies, groups_of pat = YEAR :: bodies) ->
  parse_with pat t = Return (Some r) -> in_century r.
Proof.
  intros [bodies Hp]. unfold parse_with.
  destruct (re_search pat t) as [[[b e] caps]|] eqn:E; [|discriminate].
  apply re_search_sound in E. rewrite Hp in E.
  now apply fields_of_groups_century with (bodies := bodies).
Qed.

Lemma parse_anchored_century t r :
  parse_anchored t = Return (Some r) -> in_century r.
Proof.
  unfold parse_anchored.
  destruct (re_search DATE_ANCHOR t) as [[[b e] dm]|] eqn:E; [|discriminate].
  apply re_search_sound in E. unfold DATE_ANCHOR in E. cbn [groups_of] in E.
  inversion E as [|? g ? caps' Hg Hrest]; subst.
  unfold group at 1. cbn [nth Nat.sub].
  destruct (int_of g) as [y|] eqn:Ey; cbn [bind]; [|discriminate].
  binds. destruct (re_search COLON_TIME _) as [[[b' e'] mt]|]; [|discriminate].
  binds. intros [= H]. unfold in_century.
  rewrite (try_datetime_year _ _ _ _ _ _ _ H). eapply year_value; eauto.
Qed.

Lemma _grab_fields_loose_century t r :
  _grab_fields_loose t = Return (Some r) -> in_century r.
Proof.
  unfold _grab_fields_loose.
  destruct (re_search YEAR_ONLY t) as [[[b e] caps]|] eqn:E; [|discriminate].
  apply re_search_sound in E. unfold YEAR_ONLY in E. cbn [groups_of] in E.
  inversion E as [|? g ? caps' Hg Hrest]; subst.
  unfold group. cbn [nth Nat.sub].
  destruct (int_of g) as [y|] eqn:Ey; cbn [bind]; [|discriminate].
  binds.
  match goal with
  | |- context [match ?fs with _ => _ end] =>
      destruct fs as [[|M [|d [|h [|m [|s [|? ?]]]]]]|]; try discriminate
  end.
  intros [= H]. unfold in_century.
  rewrite (try_datetime_year _ _ _ _ _ _ _ H). eapply year_value; eauto.
Qed.

Lemma parse_strict_century pats t r :
  Forall (fun pat => exists bodies, groups_of pat = YEAR :: bodies) pats ->
  parse_strict pats t = Return (Some r) -> in_century r.
Proof.
  induction 1 as [|pat pats Hp Hps IH]; cbn [parse_strict]; [discriminate|].
  destruct (parse_with pat t) as [[r'|]|] eqn:E; try discriminate; [|exact IH].
  intros [= <-]. eapply parse_with_century; eauto.
Qed.

Lemma parse_timestamp_flex_century raw r :
  parse_timestamp_flex raw = Return (Some r) -> in_century r.
Proof.
  unfold parse_timestamp_flex. destruct raw as [|c raw]; [discriminate|].
  set (t := repair_time_triplets (normalize_ocr (c :: raw))).
  destruct (parse_anchored t) as [[r0|]|] eqn:E0; try discriminate.
  { intros [= <-]. eapply parse_anchored_century; eauto. }
  destruct (parse_with DATE_THEN_TIME_1OR2H t) as [[r1|]|] eqn:E1; try discriminate.
  { intros [= <-]. eapply parse_with_century; [|eauto]. eexists. reflexivity. }
  destruct (_grab_fields_loose t) as [[r2|]|] eqn:E2; try discriminate.
  { intros [= <-]. eapply _grab_fields_loose_century; eauto. }
  destruct (parse_with FLEX_PAT t) as [[r3|]|] eqn:E3; try discriminate.
  { intros [= <-]. eapply parse_with_century; [|eauto]. eexists. reflexivity. }
  apply parse_strict_century.
  unfold TS_PATTERNS. repeat apply Forall_cons; try apply Forall_nil;
    eexists; reflexivity.
Qed.

(** X3.  Whatever [parse_timestamp_flex] returns is a calendar-valid
    date-time, the timestamp returned is the one built from the six fields
    returned, and its year lies between 2000 and 2099. *)
Theorem parse_timestamp_flex_result (raw : str) (d : datetime) (y M dd h m s : Z) :
  parse_timestamp_flex raw = Return (Some (d, (y, M, dd, h, m, s))) ->
  d = DT y M dd h m s
  /\ valid_datetime y M dd h m s = true
  /\ (2000 <= y <= 2099)%Z.
Proof.
  intros H. pose proof (parse_timestamp_flex_consistent _ _ H) as [Hv Hd].
  pose proof (parse_timestamp_flex_century _ _ H) as Hc.
  cbn in Hd, Hc. auto.
Qed.

Lemma parse_timestamp_flex_result_witness :
  DT 2024 8 1 6 31 27 = DT 2024 8 1 6 31 27
  /\ valid_datetime 2024 8 1 6 31 27 = true
  /\ (2000 <= 2024 <= 2099)%Z.
Proof.
  apply (parse_timestamp_flex_result (lit "2O24-08-01  06:131:27")).
  vm_compute. reflexivity.
Defined.

Lemma parse_strftime Y M D h m s :
  valid_datetime Y M D h m s = true ->
  (2000 <= Y <= 2099)%Z ->
  parse_timestamp_flex (strftime (DT Y M D h m s))
  = Return (Some (DT Y M D h m s, (Y, M, D, h, m, s))).
Proof.
  intros Hv HY.
  destruct (valid_datetime_ranges _ _ _ _ _ _ Hv) as (HM & HD & Hh & Hm & Hs).
  pose proof (Z.div_mod Y 100) as Hdm. pose proof (Z.mod_pos_bound Y 100) as Hmb.
  assert (Hc : (Y / 100 = 20)%Z) by lia.
  assert (Hy : (0 <= Y mod 100 <= 99)%Z) by lia.
  assert (HYe : (Y = 2000 + Y mod 100)%Z) by lia.
  destruct (two_spec _ Hy) as (Ay1 & Ay2 & Vy).
  destruct (two_spec M) as (AM1 & AM2 & VM); [lia|].
  destruct (two_spec D) as (AD1 & AD2 & VD); [lia|].
  destruct (two_spec h) as (Ah1 & Ah2 & Vh); [lia|].
  destruct (two_spec m) as (Am1 & Am2 & Vm); [lia|].
  destruct (two_spec s) as (As1 & As2 & Vs); [lia|].
  unfold strftime, four, two. cbn [year month day hour minute second].
  rewrite Hc. change (dchar (20 / 10)) with "2"%char.
  change (dchar (20 mod 10)) with "0"%char.
  cbn [app lit list_ascii_of_string].
  apply canonical_parse; try assumption.
  rewrite Vy, VM, VD, Vh, Vm, Vs, <- HYe.
  unfold try_datetime, mk_datetime. now rewrite Hv.
Qed.

(** X4.  The canonical string of a parsed timestamp parses back to the same
    timestamp and fields: re-reading what [strftime] wrote loses nothing. *)
Theorem parse_timestamp_flex_canon_round_trip (raw : str) (d : datetime) (p : parts) :
  parse_timestamp_flex raw = Return (Some (d, p)) ->
  parse_timestamp_flex (strftime d) = Return (Some (d, p)).
Proof.
  intros H. destruct p as [[[[[y M] dd] h] m] s].
  destruct (parse_timestamp_flex_consistent _ _ H) as [Hv Hd].
  pose proof (parse_timestamp_flex_century _ _ H) as Hc.
  cbn in Hd, Hc. subst d. now apply parse_strftime.
Qed.

Lemma parse_timestamp_flex_canon_round_trip_witness :
  parse_timestamp_flex (strftime (DT 2024 8 1 6 31 27))
  = Return (Some (DT 2024 8 1 6 31 27, (2024, 8, 1, 6, 31, 27)%Z)).
Proof.
  apply (parse_timestamp_flex_canon_round_trip (lit "2024 08 01 6 31 27")).
  vm_compute. reflexivity.
Defined.

(** ** Normalisation *)

Lemma normalize_ocr_slash_free x :
  Forall (fun c => is_slash c = false) (normalize_ocr x).
Proof.
  rewrite normalize_ocr_eq. repeat (apply squeeze_Forall; [reflexivity|]).
  apply Forall_forall. intros c Hc. apply filter_In in Hc.
  destruct Hc as [_ Hc]. now apply negb_true_iff in Hc.
Qed.

Lemma Forall_filter_keep {A : Type} (P : A -> Prop) f (l : list A) :
  Forall P l -> Forall P (filter f l).
Proof.
  rewrite !Forall_forall. intros H x Hx. apply filter_In in Hx. now apply H.
Qed.

Lemma normalize_ocr_shape (x : str) : tidy (normalize_ocr x).
Proof.
  pose proof (normalize_ocr_slash_free x) as Hs.
  rewrite normalize_ocr_eq in *.
  set (t2 := filter (fun c => negb (is_slash c))
               (map confusable (strip (replace_char "010" " " x)))) in *.
  assert (Hl : Forall (fun c => is_letter c = false) t2).
  { apply Forall_filter_keep, Forall_map, Forall_forall.
    intros c _. apply confusable_letter. }
  unfold tidy. split; [|split; [|split]].
  - apply Forall_forall. intros c Hc. split; [|split].
    + revert c Hc. apply Forall_forall. exact Hs.
    + revert c Hc. apply Forall_forall.
      repeat (apply squeeze_Forall; [reflexivity|]). exact Hl.
    + revert c Hc.
      apply (proj1 (Forall_forall (fun c => is_space c = true -> c = " "%char) _)).
      apply squeeze_Forall; [discriminate|]. apply squeeze_Forall; [discriminate|].
      apply squeeze_all_r.
  - apply squeeze_noadj_other; [reflexivity|].
    apply squeeze_noadj_other; [reflexivity|]. apply squeeze_noadj_own.
  - apply squeeze_noadj_other; [reflexivity|]. apply squeeze_noadj_own.
  - apply squeeze_noadj_own.
Qed.

(** X5.  Every output of [normalize_ocr] is tidy: it holds no slash, none of
    the letters O, o, I, l, S, B, no white space other than single blanks,
    and neither two colons nor two dashes in a row. *)
Theorem normalize_ocr_tidy (x : str) : tidy (normalize_ocr x).
Proof.
  pose proof (normalize_ocr_slash_free x) as Hs.
  rewrite normalize_ocr_eq in *.
  set (t2 := filter (fun c => negb (is_slash c))
               (map confusable (strip (replace_char "010" " " x)))) in *.
  assert (Hl : Forall (fun c => is_letter c = false) t2).
  { apply Forall_filter_keep, Forall_map, Forall_forall.
    intros c _. apply confusable_letter. }
  unfold tidy. split; [|split; [|split]].
  - apply Forall_forall. intros c Hc. split; [|split].
    + revert c Hc. apply Forall_forall. exact Hs.
    + revert c Hc. apply Forall_forall.
      repeat (apply squeeze_Forall; [reflexivity|]). exact Hl.
    + revert c Hc.
      apply (proj1 (Forall_forall (fun c => is_space c = true -> c = " "%char) _)).
      apply squeeze_Forall; [discriminate|]. apply squeeze_Forall; [discriminate|].
      apply squeeze_all_r.
  - apply squeeze_noadj_other; [reflexivity|].
    apply squeeze_noadj_other; [reflexivity|]. apply squeeze_noadj_own.
  - apply squeeze_noadj_other; [reflexivity|]. apply squeeze_noadj_own.
  - apply squeeze_noadj_own.
Qed.

(** X6.  Normalisation reaches a fixed point after at most two passes, for
    every input. *)
Theorem normalize_ocr_settles (x : str) :
  normalize_ocr (normalize_ocr (normalize_ocr x)) = normalize_ocr (normalize_ocr x).
Proof.
  apply normal_form_fixed, normalize_ocr_normal_form, normalize_ocr_slash_free.
Qed.

Lemma tidy_normal_form s : tidy s -> ends_ok s -> normal_form s.
Proof.
  intros (Hf & Nw & Nc & Nd) He. unfold normal_form.
  split; [|split; [|split; [|split; [|split; [|split]]]]]; try assumption;
    (eapply Forall_impl; [|exact Hf]); intros c (A & B & C); assumption.
Qed.

(** X24.  A second pass of [normalize_ocr] changes nothing exactly when the
    first pass left no white space at either end of its result; that is so
    for every text without a slash or backslash, whose removal is what can
    lay a blank bare after the text was stripped. *)
Theorem normalize_ocr_idempotent_iff (x : str) :
  (normalize_ocr (normalize_ocr x) = normalize_ocr x <-> ends_ok (normalize_ocr x))
  /\ (Forall (fun c => is_slash c = false) x ->
      normalize_ocr (normalize_ocr x) = normalize_ocr x).
Proof.
  split; [split|].
  - intros E.
    pose proof (normalize_ocr_normal_form (normalize_ocr x)
                  (normalize_ocr_slash_free x)) as H.
    rewrite E in H. apply H.
  - intros He. apply normal_form_fixed, tidy_normal_form;
      [apply normalize_ocr_shape | exact He].
  - intros Hx. apply normal_form_fixed, normalize_ocr_normal_form, Hx.
Qed.

Lemma space_not_digit c : is_space c = true -> is_digit c = false.
Proof.
  intros H. destruct (is_digit c) eqn:E; [|reflexivity].
  apply digit_not_space in E. congruence.
Qed.

Lemma filter_digit_lstrip s : filter is_digit (lstrip s) = filter is_digit s.
Proof.
  induction s as [|c s IH]; [reflexivity|]. cbn [lstrip].
  destruct (is_space c) eqn:E; [|reflexivity].
  cbn [filter]. now rewrite (space_not_digit c E).
Qed.

Lemma filter_digit_strip s : filter is_digit (strip s) = filter is_digit s.
Proof.
  unfold strip.
  now rewrite filter_rev, filter_digit_lstrip, filter_rev, rev_involutive,
    filter_digit_lstrip.
Qed.

Lemma filter_digit_map (f g : ascii -> ascii) s :
  (forall c, f c = g c \/ (is_digit (f c) = false /\ is_digit (g c) = false)) ->
  filter is_digit (map f s) = filter is_digit (map g s).
Proof.
  intros H. induction s as [|c s IH]; [reflexivity|]. cbn [map filter].
  destruct (H c) as [-> | [-> ->]]; now rewrite IH.
Qed.

Lemma filter_digit_squeeze p r s :
  (forall c, p c = true -> is_digit c = false) -> is_digit r = false ->
  filter is_digit (squeeze p r s) = filter is_digit s.
Proof.
  intros Hp Hr. induction s as [|c s IH]; [reflexivity|].
  rewrite squeeze_cons. destruct (p c) eqn:Hc.
  - cbn [filter]. rewrite (Hp c Hc). destruct s as [|c' s].
    + cbn [filter]. now rewrite Hr.
    + destruct (p c'); [exact IH|]. cbn [filter] in *. now rewrite Hr, IH.
  - cbn [filter]. now rewrite IH.
Qed.

Lemma filter_digit_unslash s :
  filter is_digit (filter (fun c => negb (is_slash c)) s) = filter is_digit s.
Proof.
  induction s as [|c s IH]; [reflexivity|]. cbn [filter].
  destruct (is_slash c) eqn:E; cbn [negb filter]; rewrite IH; [|reflexivity].
  replace (is_digit c) with false; [reflexivity|].
  unfold is_slash, one_of in E. cbn in E. rewrite orb_false_r in E.
  apply orb_true_iff in E. destruct E as [E | E]; apply is_char_eq in E; now subst.
Qed.

Lemma lstrip_length s : length (lstrip s) <= length s.
Proof.
  induction s as [|c s IH]; [reflexivity|]. cbn [lstrip].
  destruct (is_space c); cbn [length]; lia.
Qed.

Lemma strip_length s : length (strip s) <= length s.
Proof.
  unfold strip. rewrite length_rev.
  etransitivity; [apply lstrip_length|]. rewrite length_rev. apply lstrip_length.
Qed.

Lemma squeeze_length p r s : length (squeeze p r s) <= length s.
Proof.
  induction s as [|c s IH]; [reflexivity|].
  rewrite squeeze_cons. destruct (p c).
  - destruct s as [|c' s]; [reflexivity|].
    destruct (p c'); cbn [length] in *; lia.
  - cbn [length]. lia.
Qed.

Lemma filter_digit_confusable_lstrip s :
  filter is_digit (map confusable (lstrip s)) = filter is_digit (map confusable s).
Proof.
  induction s as [|c s IH]; [reflexivity|]. cbn [lstrip].
  destruct (is_space c) eqn:Ec; [|reflexivity].
  cbn [map filter]. rewrite IH.
  replace (is_digit (confusable c)) with false; [reflexivity|].
  symmetry. apply space_not_digit. now rewrite confusable_space.
Qed.

Lemma filter_digit_confusable_strip s :
  filter is_digit (map confusable (strip s)) = filter is_digit (map confusable s).
Proof.
  unfold strip.
  rewrite map_rev, filter_rev, filter_digit_confusable_lstrip, map_rev, filter_rev,
    rev_involutive.
  apply filter_digit_confusable_lstrip.
Qed.

Lemma normalize_ocr_digits x :
  filter is_digit (normalize_ocr x) = filter is_digit (map confusable x).
Proof.
  rewrite normalize_ocr_eq.
  rewrite !filter_digit_squeeze, filter_digit_unslash; try reflexivity.
  - rewrite filter_digit_confusable_strip. unfold replace_char.
    rewrite map_map. apply filter_digit_map. intros c.
    destruct (is_char "010" c) eqn:Ec; [|now left].
    right. apply is_char_eq in Ec. subst. split; reflexivity.
  - apply space_not_digit.
  - intros c Hc. apply is_char_eq in Hc. now subst.
  - intros c Hc. apply is_char_eq in Hc. now subst.
Qed.

(** X7.  Normalisation never drops, adds or reorders digits, beyond reading
    the six confusable letters as digits, and it never makes a text
    longer. *)
Theorem normalize_ocr_keeps_digits (x : str) :
  filter is_digit (normalize_ocr x) = filter is_digit (map confusable x)
  /\ length (normalize_ocr x) <= length x.
Proof.
  split; [apply normalize_ocr_digits|]. rewrite normalize_ocr_eq.
  etransitivity; [apply squeeze_length|].
  etransitivity; [apply squeeze_length|].
  etransitivity; [apply squeeze_length|].
  etransitivity; [apply filter_length_le|].
  rewrite length_map. etransitivity; [apply strip_length|].
  unfold replace_char. now rewrite length_map.
Qed.

(** ** Triplet repair, again *)

Lemma digit_not_sep c : is_digit c = true -> colon_or_space c = false.
Proof.
  intros H. unfold colon_or_space.
  now rewrite (digit_not_space c H), (digit_not_char ":" c H).
Qed.

Lemma ahead_cons c s : ahead colon_or_space (c :: s) = colon_or_space c.
Proof.
  cbn [ahead]. destruct (colon_or_space c) eqn:E; [reflexivity|]. cbn [orb].
  destruct s; [|reflexivity]. cbn [at_eol].
  destruct (is_char "010" c) eqn:N; [|reflexivity].
  apply is_char_eq in N. subst. discriminate E.
Qed.

Lemma triplet_match_sep s :
  re_match TRIPLET_FIELD s =
  match s with
  | b :: s' =>
      if colon_or_space b && digits_then_sep 3 s'
      then Some ([[b]; firstn 3 s'], 4) else None
  | [] => None
  end.
Proof.
  rewrite triplet_match.
  destruct s as [|b [|d1 [|d2 [|d3 rest]]]]; cbn [digits_then_sep firstn];
    rewrite ?andb_false_r; try reflexivity.
  now rewrite !andb_assoc.
Qed.

Lemma repair_cons b s :
  repair_time_triplets (b :: s) =
  if colon_or_space b && digits_then_sep 3 s
  then _fix [[b]; firstn 3 s] ++ repair_time_triplets (skipn 3 s)
  else b :: repair_time_triplets s.
Proof.
  unfold repair_time_triplets, re_sub. rewrite sub_go_step, triplet_match_sep.
  now destruct (colon_or_space b && digits_then_sep 3 s).
Qed.

Lemma _fix_head b tri : exists t, _fix [[b]; tri] = b :: t.
Proof.
  unfold _fix, group. cbn [nth Nat.sub].
  match goal with |- context [if ?c then _ else _] => destruct c end;
    cbn [app]; eauto.
Qed.

(** Repairing a text does not change whether it starts with [n] digits
    followed by a separator or the end. *)
Lemma repair_digits_then_sep s : forall n,
  digits_then_sep n (repair_time_triplets s) = digits_then_sep n s.
Proof.
  induction s as [|c s IH]; intros n; [reflexivity|].
  rewrite repair_cons.
  destruct (colon_or_space c && digits_then_sep 3 s) eqn:E.
  - apply andb_true_iff in E. destruct E as [Hc _].
    destruct (_fix_head c (firstn 3 s)) as [t ->]. cbn [app].
    destruct n as [|n]; cbn [digits_then_sep].
    + now rewrite !ahead_cons.
    + destruct (is_digit c) eqn:D; [|reflexivity].
      apply digit_not_sep in D. congruence.
  - destruct n as [|n]; cbn [digits_then_sep].
    + now rewrite !ahead_cons.
    + now rewrite IH.
Qed.

Lemma repair_time_triplets_fixed n : forall s,
  length s <= n ->
  repair_time_triplets (repair_time_triplets s) = repair_time_triplets s.
Proof.
  induction n as [|n IH]; intros s Hn.
  - destruct s; [reflexivity | simpl in Hn; lia].
  - destruct s as [|b s]; [reflexivity|]. cbn [length] in Hn.
    rewrite (repair_cons b s).
    destruct (colon_or_space b && digits_then_sep 3 s) eqn:E.
    + apply andb_true_iff in E. destruct E as [Hb E].
      destruct s as [|d1 [|d2 [|d3 rest]]]; cbn [digits_then_sep] in E;
        rewrite ?andb_false_r in E; try discriminate E.
      apply andb_true_iff in E. destruct E as [H1 E].
      apply andb_true_iff in E. destruct E as [H2 E].
      apply andb_true_iff in E. destruct E as [H3 Ha].
      cbn [firstn skipn]. rewrite _fix_triplet by assumption.
      assert (Hrest : repair_time_triplets (repair_time_triplets rest)
                      = repair_time_triplets rest).
      { apply IH. cbn [length] in Hn. lia. }
      destruct (one_of (lit "10") d1 && (10 * digit_val d2 + digit_val d3 <=? 59)%Z)
        eqn:Hfix; cbn [app].
      * rewrite (repair_cons b).
        replace (digits_then_sep 3 (d2 :: d3 :: repair_time_triplets rest)) with false.
        -- rewrite andb_false_r. f_equal.
           rewrite (repair_cons d2), (digit_not_sep d2 H2). cbn [andb]. f_equal.
           rewrite (repair_cons d3), (digit_not_sep d3 H3). cbn [andb]. f_equal.
           exact Hrest.
        -- symmetry. cbn [digits_then_sep]. rewrite H2, H3. cbn [andb].
           change (match repair_time_triplets rest with
                   | [] => false
                   | c :: s' => is_digit c && ahead colon_or_space s'
                   end) with (digits_then_sep 1 (repair_time_triplets rest)).
           rewrite repair_digits_then_sep. cbn [digits_then_sep].
           destruct rest as [|c rest]; [reflexivity|].
           rewrite ahead_cons in Ha.
           destruct (is_digit c) eqn:D; [|reflexivity].
           apply digit_not_sep in D. congruence.
      * rewrite (repair_cons b). cbn [digits_then_sep].
        rewrite Hb, H1, H2, H3. cbn [andb].
        change (ahead colon_or_space (repair_time_triplets rest))
          with (digits_then_sep 0 (repair_time_triplets rest)).
        rewrite repair_digits_then_sep. cbn [digits_then_sep]. rewrite Ha.
        cbn [firstn skipn]. rewrite _fix_triplet by assumption.
        rewrite Hfix. cbn [app]. now rewrite Hrest.
    + rewrite (repair_cons b), repair_digits_then_sep, E. f_equal.
      apply IH. lia.
Qed.

(** X8.  Repairing time triplets is idempotent: a repaired text has no
    triplet left that a second pass would shorten. *)
Theorem repair_time_triplets_idempotent (s : str) :
  repair_time_triplets (repair_time_triplets s) = repair_time_triplets s.
Proof. apply (repair_time_triplets_fixed (length s)). lia. Qed.

(** ** The banner locator, again *)

Lemma span_snoc a b :
  (a <= b)%Z -> span (a, b + 1)%Z = span (a, b) ++ [(b + 1)%Z].
Proof.
  intros H. unfold span. cbn [fst snd].
  replace (Z.to_nat (b + 1 - a + 1)) with (S (Z.to_nat (b - a + 1))) by lia.
  rewrite seq_S, map_app. cbn [map Nat.add]. do 2 f_equal. lia.
Qed.

Lemma span_one a : span (a, a) = [a].
Proof.
  unfold span. cbn [fst snd]. replace (a - a + 1)%Z with 1%Z by lia.
  change (Z.to_nat 1) with 1. cbn [seq map Z.of_nat]. now rewrite Z.add_0_r.
Qed.

Lemma span_ends g : (fst g <= snd g)%Z -> In (fst g) (span g) /\ In (snd g) (span g).
Proof.
  intros H. unfold span. split; apply in_map_iff.
  - exists 0. split; [lia|]. apply in_seq. lia.
  - exists (Z.to_nat (snd g - fst g)). split; [lia|]. apply in_seq. lia.
Qed.

Lemma groups_from_head idxs : forall start prev,
  exists e tl, groups_from start prev idxs = (start, e) :: tl.
Proof.
  induction idxs as [|i idxs IH]; intros start prev; cbn [groups_from]; [eauto|].
  destruct (i =? prev + 1)%Z; [apply IH | eauto].
Qed.

Lemma groups_from_partition idxs : forall start prev,
  (start <= prev)%Z ->
  concat (map span (groups_from start prev idxs)) = span (start, prev) ++ idxs
  /\ Forall (fun g => fst g <= snd g)%Z (groups_from start prev idxs)
  /\ separate (groups_from start prev idxs).
Proof.
  induction idxs as [|i idxs IH]; intros start prev H; cbn [groups_from].
  - cbn [map concat separate]. rewrite app_nil_r.
    split; [reflexivity|]. split; [|auto]. constructor; [exact H | constructor].
  - destruct (i =? prev + 1)%Z eqn:E.
    + apply Z.eqb_eq in E. subst i.
      destruct (IH start (prev + 1)%Z ltac:(lia)) as (Hc & Hf & Hs).
      split; [|split]; [|exact Hf | exact Hs].
      rewrite Hc, span_snoc by exact H. now rewrite <- app_assoc.
    + apply Z.eqb_neq in E.
      destruct (IH i i ltac:(lia)) as (Hc & Hf & Hs).
      split; [|split].
      * cbn [map concat]. now rewrite Hc, span_one.
      * constructor; [exact H | exact Hf].
      * cbn [separate]. split; [|exact Hs].
        destruct (groups_from_head idxs i i) as (e & tl & ->). exact E.
Qed.

(** X9.  [moving_groups] cuts a list of indices into runs of consecutive
    integers: the runs, written out and put one after the other, give the
    list back; every run has its start at or before its end; and no run is
    continued by the next one. *)
Theorem moving_groups_partition (idxs : list Z) :
  concat (map span (moving_groups idxs)) = idxs
  /\ Forall (fun g => fst g <= snd g)%Z (moving_groups idxs)
  /\ separate (moving_groups idxs).
Proof.
  destruct idxs as [|i idxs]; cbn [moving_groups].
  - split; [reflexivity|]. split; [constructor | exact I].
  - destruct (groups_from_partition idxs i i ltac:(lia)) as (Hc & Hf & Hs).
    split; [|split]; [|exact Hf | exact Hs]. now rewrite Hc, span_one.
Qed.

Lemma moving_groups_ends idxs g :
  In g (moving_groups idxs) -> In (fst g) idxs /\ In (snd g) idxs /\ (fst g <= snd g)%Z.
Proof.
  intros Hg.
  destruct idxs as [|i idxs]; [destruct Hg|]. cbn [moving_groups] in Hg.
  destruct (groups_from_partition idxs i i ltac:(lia)) as (Hc & Hf & _).
  rewrite span_one in Hc. change ([i] ++ idxs) with (i :: idxs) in Hc.
  rewrite Forall_forall in Hf. pose proof (Hf g Hg) as Hle.
  destruct (span_ends g Hle) as [Ha Hb].
  rewrite <- Hc. split; [|split]; [| |exact Hle];
    apply in_concat; exists (span g); (split; [now apply in_map | assumption]).
Qed.

Lemma dark_rows_range rows : forall i k,
  In k (dark_rows rows i) -> (i <= k < i + Z.of_nat (length rows))%Z.
Proof.
  induction rows as [|r rows IH]; intros i k H; [destruct H|].
  cbn [dark_rows] in H. cbn [length].
  destruct (row_is_dark r).
  - destruct H as [<- | H]; [lia|]. apply IH in H. lia.
  - apply IH in H. lia.
Qed.

Lemma banner_runs_range gray g :
  In g (banner_runs gray) ->
  (0 <= fst g <= snd g)%Z /\ (snd g < Z.of_nat (length gray))%Z.
Proof.
  unfold banner_runs. intros H. apply moving_groups_ends in H.
  destruct H as (Ha & Hb & Hle).
  apply dark_rows_range in Ha, Hb. rewrite length_firstn in Hb. lia.
Qed.

Lemma better_run_origin runs : forall best g,
  fold_left better_run runs best = Some g ->
  best = Some g \/ (In g runs /\ qualifies g = true).
Proof.
  induction runs as [|r runs IH]; intros best g H; [now left|].
  cbn [fold_left] in H. apply IH in H. destruct H as [H | [H Hq]].
  - unfold better_run in H. destruct (qualifies r) eqn:Hr; [|now left].
    destruct best as [b|].
    + destruct (snd b - fst b <? snd r - fst r)%Z; [|now left].
      injection H as <-. right. split; [now left | exact Hr].
    + injection H as <-. right. split; [now left | exact Hr].
  - right. split; [now right | exact Hq].
Qed.

(** X10.  For an image that has a row, the band returned is never empty and
    lies inside the image: it starts at one of the rows 0 to 3 and ends
    after its start, at the height of the image at most. *)
Theorem find_top_black_banner_bounds (gray : gray_image) :
  gray <> [] ->
  (0 <= fst (find_top_black_banner gray) <= 3)%Z
  /\ (fst (find_top_black_banner gray) < snd (find_top_black_banner gray)
      <= Z.of_nat (length gray))%Z.
Proof.
  intros Hne.
  assert (Hh : (0 < Z.of_nat (length gray))%Z)
    by (destruct gray; [congruence | simpl; lia]).
  unfold find_top_black_banner.
  fold (banner_runs gray).
  destruct (fold_left better_run (banner_runs gray) None) as [[a b]|] eqn:E.
  - apply better_run_origin in E. destruct E as [E | [Hin Hq]]; [discriminate E|].
    apply banner_runs_range in Hin. unfold qualifies in Hq.
    apply andb_true_iff in Hq. destruct Hq as [H5 H10].
    apply Z.leb_le in H5, H10. cbn [fst snd] in *. lia.
  - cbn [fst snd]. lia.
Qed.

Lemma find_top_black_banner_bounds_witness :
  (0 <= fst (find_top_black_banner banner_image) <= 3)%Z
  /\ (fst (find_top_black_banner banner_image) < snd (find_top_black_banner banner_image)
      <= Z.of_nat (length banner_image))%Z.
Proof. apply (find_top_black_banner_bounds banner_image). discriminate. Defined.

Lemma dark_rows_sorted rows : forall i, StronglySorted Z.lt (dark_rows rows i).
Proof.
  induction rows as [|r rows IH]; intros i; [constructor|].
  cbn [dark_rows]. destruct (row_is_dark r); [|apply IH].
  constructor; [apply IH|]. apply Forall_forall. intros k Hk.
  apply dark_rows_range in Hk. lia.
Qed.

Lemma groups_from_sorted idxs : forall start prev,
  (start <= prev)%Z -> Forall (fun i => prev < i)%Z idxs -> StronglySorted Z.lt idxs ->
  StronglySorted run_before (groups_from start prev idxs)
  /\ Forall (fun g => start <= fst g)%Z (groups_from start prev idxs).
Proof.
  induction idxs as [|i idxs IH]; intros start prev H Hp Hs; cbn [groups_from].
  - split; repeat constructor. cbn. lia.
  - apply Forall_cons_iff in Hp. destruct Hp as [Hi Hp].
    apply StronglySorted_inv in Hs. destruct Hs as [Hs Hlt].
    destruct (i =? prev + 1)%Z eqn:E.
    + destruct (IH start i ltac:(lia) Hlt Hs) as [Hss Hf]. now split.
    + apply Z.eqb_neq in E.
      destruct (IH i i ltac:(lia) Hlt Hs) as [Hss Hf]. split.
      * constructor; [exact Hss|]. revert Hf. apply Forall_impl.
        intros g Hg. unfold run_before. cbn [snd]. lia.
      * constructor; [cbn; lia|]. revert Hf. apply Forall_impl. intros g Hg. lia.
Qed.

Lemma banner_runs_sorted gray : StronglySorted run_before (banner_runs gray).
Proof.
  unfold banner_runs, moving_groups.
  pose proof (dark_rows_sorted
                (firstn (Z.to_nat (Z.of_nat (length gray) / 4)) gray) 0) as Hs.
  destruct (dark_rows _ 0) as [|i idxs]; [constructor|].
  apply StronglySorted_inv in Hs. destruct Hs as [Hs Hlt].
  now apply groups_from_sorted; [lia | |].
Qed.

Lemma sorted_runs_trichotomy gs g g' :
  StronglySorted run_before gs -> In g gs -> In g' gs ->
  g = g' \/ run_before g g' \/ run_before g' g.
Proof.
  induction 1 as [|x gs Hs IH Hx]; intros Hg Hg'; [destruct Hg|].
  rewrite Forall_forall in Hx.
  destruct Hg as [<- | Hg], Hg' as [<- | Hg']; auto.
Qed.

(** At most one run of dark rows can qualify: a second one would have to
    start below row 5. *)
Lemma qualifying_run_unique gray g g' :
  In g (banner_runs gray) -> In g' (banner_runs gray) ->
  qualifies g = true -> qualifies g' = true -> g = g'.
Proof.
  intros Hg Hg' Hq Hq'.
  pose proof (banner_runs_range gray g Hg). pose proof (banner_runs_range gray g' Hg').
  unfold qualifies in Hq, Hq'.
  apply andb_true_iff in Hq, Hq'. destruct Hq as [A B], Hq' as [A' B'].
  apply Z.leb_le in A, B, A', B'.
  destruct (sorted_runs_trichotomy _ g g' (banner_runs_sorted gray) Hg Hg')
    as [E | [E | E]]; [exact E | unfold run_before in E; lia ..].
Qed.

Lemma better_run_only runs g :
  qualifies g = true ->
  (forall x, In x runs -> qualifies x = true -> x = g) ->
  fold_left better_run runs (Some g) = Some g
  /\ (In g runs -> fold_left better_run runs None = Some g).
Proof.
  intros Hq. induction runs as [|r runs IH]; intros H.
  - split; [reflexivity | intros []].
  - destruct IH as [IH1 IH2]; [intros x Hx; apply H; now right|].
    cbn [fold_left]. unfold better_run at 2 4.
    destruct (qualifies r) eqn:Hr.
    + rewrite (H r (or_introl eq_refl) Hr), Z.ltb_irrefl. split; [exact IH1|].
      intros _. exact IH1.
    + split; [exact IH1|]. intros [-> | Hin]; [congruence | now apply IH2].
Qed.

(** X11.  A run of dark rows of the top quarter that starts at row index 5
    or above it and spans ten rows or more decides the band by itself: the
    band is that run, widened by two rows on each side and clamped to the
    image.  (No second run can qualify, so the comparison of widths in the
    loop never decides.) *)
Theorem find_top_black_banner_run (gray : gray_image) (g : Z * Z) :
  In g (banner_runs gray) -> qualifies g = true ->
  find_top_black_banner gray
  = (Z.max 0 (fst g - 2), Z.min (Z.of_nat (length gray)) (snd g + 2))%Z.
Proof.
  intros Hg Hq. unfold find_top_black_banner. fold (banner_runs gray).
  destruct (better_run_only (banner_runs gray) g Hq) as [_ E].
  - intros x Hx Hqx. now apply (qualifying_run_unique gray).
  - rewrite (E Hg). now destruct g.
Qed.

Lemma find_top_black_banner_run_witness :
  find_top_black_banner banner_image = (0, 13)%Z.
Proof.
  apply (find_top_black_banner_run banner_image (0, 11)%Z).
  - vm_compute. now left.
  - reflexivity.
Defined.

(** ** The selection, again *)

Lemma pick_rep_unfold consensus cs :
  pick_rep consensus cs =
  snd (fold_left (fun (acc : Q * option Candidate) c =>
                    if Qltb (fst acc) (rep_score consensus c)
                    then (rep_score consensus c, Some c) else acc)
                 cs (ABSENT, None)).
Proof. reflexivity. Qed.

Section RepFold.
Variable score : Candidate -> Q.

Lemma rep_fold_spec cs : forall acc,
  (forall r, snd acc = Some r -> (fst acc == score r)%Q) ->
  let res := fold_left (fun (acc : Q * option Candidate) c =>
                          if Qltb (fst acc) (score c) then (score c, Some c) else acc)
                       cs acc in
  (fst acc <= fst res)%Q
  /\ (forall c, In c cs -> (score c <= fst res)%Q)
  /\ (snd res = snd acc /\ (fst res == fst acc)%Q
      \/ exists r, snd res = Some r /\ In r cs /\ (fst res == score r)%Q).
Proof.
  induction cs as [|c cs IH]; intros acc Hacc; cbn zeta; cbn [fold_left].
  - split; [lra|]. split; [intros c []|]. left. split; [reflexivity | lra].
  - destruct (Qltb (fst acc) (score c)) eqn:E.
    + apply Qltb_lt in E.
      destruct (IH (score c, Some c)) as (Hle & Hmax & Hres).
      { cbn [fst snd]. intros r [= <-]. lra. }
      cbn [fst snd] in *. split; [lra|]. split.
      * intros x [<- | Hx]; [exact Hle | now apply Hmax].
      * right. destruct Hres as [[Hs Hf] | (r & Hs & Hin & Hf)].
        -- exists c. split; [exact Hs|]. split; [now left | exact Hf].
        -- exists r. split; [exact Hs|]. split; [now right | exact Hf].
    + apply Qltb_ge in E.
      destruct (IH acc Hacc) as (Hle & Hmax & Hres).
      split; [exact Hle|]. split.
      * intros x [<- | Hx]; [lra | now apply Hmax].
      * destruct Hres as [Hres | (r & Hs & Hin & Hf)]; [now left|].
        right. exists r. split; [exact Hs|]. split; [now right | exact Hf].
Qed.
End RepFold.

Lemma pick_rep_spec consensus cs :
  (exists c, In c cs /\ (ABSENT < rep_score consensus c)%Q) ->
  exists rep,
    pick_rep consensus cs = Some rep /\ In rep cs
    /\ forall c, In c cs -> (rep_score consensus c <= rep_score consensus rep)%Q.
Proof.
  intros (c0 & Hc0 & Hs0). rewrite pick_rep_unfold.
  destruct (rep_fold_spec (rep_score consensus) cs (ABSENT, None))
    as (Hle & Hmax & Hres); [intros r [=]|].
  cbn zeta in *. cbn [fst snd] in *.
  destruct Hres as [[Hs Hf] | (r & Hs & Hin & Hf)].
  - specialize (Hmax c0 Hc0). lra.
  - exists r. split; [exact Hs|]. split; [exact Hin|].
    intros c Hc. specialize (Hmax c Hc). lra.
Qed.

Lemma rep_score_bound consensus c : (c_w c - (5 # 10) <= rep_score consensus c)%Q.
Proof. unfold rep_score. destruct (dt_eqb _ _); lra. Qed.

Lemma vote_positive all_cands voted :
  vote columns all_cands = Some voted ->
  exists c, In c all_cands /\ (0 < c_w c)%Q.
Proof.
  unfold columns. cbn [vote].
  destruct (weighted_mode _ _) as [v|] eqn:E; [|discriminate].
  intros _. apply weighted_mode_support in E.
  destruct E as (c & Hc & Hw & _). eauto.
Qed.

Lemma choose_by_weighted_whole_string_rep all_cands r :
  choose_by_weighted_whole_string all_cands = Return r ->
  r = (None, None)
  \/ exists rep, In rep all_cands /\ r = (Some (c_dt rep), Some rep).
Proof.
  unfold choose_by_weighted_whole_string.
  destruct (tally_positive _ _) as [|kv t]; [intros [= <-]; now left|].
  destruct (first_of (sorted _ (kv :: t))) as [best|]; cbn [bind]; [|discriminate].
  match goal with
  | |- context [first_of (sorted ?f ?l)] =>
      destruct (sorted f l) as [|c rr] eqn:E; cbn [first_of bind]; [discriminate|]
  end.
  intros [= <-]. right. exists c. split; [|reflexivity].
  assert (Hc : In c (c :: rr)) by now left.
  rewrite <- E in Hc. apply sorted_in in Hc. apply filter_In in Hc. tauto.
Qed.

Lemma columns_of (all_cands : list Candidate) :
  all_cands <> [] ->
  match all_cands return list (parts -> Z) with [] => [] | _ :: _ => columns end
  = columns.
Proof. destruct all_cands; congruence. Qed.

Lemma choose_by_weighted_fields_rep all_cands d orep :
  choose_by_weighted_fields all_cands = Return (Some d, orep) ->
  exists rep, orep = Some rep /\ In rep all_cands.
Proof.
  intros H.
  assert (Hne : all_cands <> []) by (intros ->; discriminate H).
  unfold choose_by_weighted_fields in H. rewrite (columns_of _ Hne) in H.
  destruct (vote columns all_cands) as [voted|] eqn:Ev; [|discriminate].
  destruct voted as [|y [|M [|dd [|h [|mm [|ss [|? ?]]]]]]]; try discriminate.
  destruct (mk_datetime y M dd h mm ss) as [consensus|].
  - injection H as <- <-.
    destruct (vote_positive _ _ Ev) as (c & Hc & Hw).
    destruct (pick_rep_spec consensus all_cands) as (rep & Hr & Hin & _).
    + exists c. split; [exact Hc|].
      pose proof (rep_score_bound consensus c). unfold ABSENT. lra.
    + eauto.
  - apply choose_by_weighted_whole_string_rep in H.
    destruct H as [[=] | (rep & Hin & [= _ ->])]. eauto.
Qed.

Lemma select_outcome all_cands elite_margin :
  all_cands <> [] ->
  exists ts rep,
    In rep all_cands /\ select all_cands elite_margin = Return (Some ts, c_raw rep).
Proof.
  intros Hne. unfold select. destruct all_cands as [|c0 cs] eqn:Hl; [congruence|].
  rewrite <- Hl in *.
  destruct (choose_elite_candidate all_cands elite_margin) as [elite|] eqn:E.
  - apply choose_elite_candidate_max in E. destruct E as [Hin _]. eauto.
  - destruct (choose_by_weighted_fields_returns all_cands Hne) as [[[d|] orep] Ef];
      rewrite Ef; cbn [bind].
    + destruct (choose_by_weighted_fields_rep _ _ _ Ef) as (rep & -> & Hin). eauto.
    + destruct (max_by_w_spec all_cands Hne) as (r & Hr & Hin & _).
      rewrite Hr. cbn [bind]. eauto.
Qed.


Lemma datetime_ext (a b : datetime) :
  Forall (fun acc => acc a = acc b) accessors -> a = b.
Proof.
  unfold accessors. intros H.
  repeat match goal with
         | H : Forall _ (_ :: _) |- _ =>
             let E := fresh "E" in
             apply Forall_cons_iff in H; destruct H as [E H]
         end.
  destruct a, b. cbn in *. congruence.
Qed.

(** X13.  When all candidates of an image carry the same timestamp, that
    timestamp is the one returned, with the raw text of one of them,
    whatever their weights and the margin. *)
Theorem process_image_unanimous (img : image) (elite_margin : Q)
  (all_cands : list Candidate) (d : datetime) :
  collect_all img ROIS = Return all_cands ->
  all_cands <> [] ->
  (forall c, In c all_cands -> c_dt c = d) ->
  exists rep,
    In rep all_cands
    /\ process_image (Some img) elite_margin = Return (Some d, c_raw rep).
Proof.
  intros Hcs Hne Hall. unfold process_image. rewrite Hcs. cbn [bind].
  destruct (select_outcome all_cands elite_margin Hne) as (ts & rep & Hin & Hsel).
  exists rep. split; [exact Hin|]. rewrite Hsel. do 3 f_equal.
  apply select_origin in Hsel; [|now apply (collect_all_consistent img ROIS)].
  destruct Hsel as [(c & Hc & <-) | [_ Hf]]; [now apply Hall|].
  apply datetime_ext. revert Hf. apply Forall_impl.
  intros acc (c & Hc & _ & E). now rewrite <- E, (Hall c Hc).
Qed.

Lemma process_image_unanimous_witness :
  exists rep,
    In rep steady_cands
    /\ process_image (Some steady_image) (8 # 10)
       = Return (Some (DT 2024 8 1 6 31 27), c_raw rep).
Proof.
  apply (process_image_unanimous steady_image (8 # 10) steady_cands (DT 2024 8 1 6 31 27)).
  - vm_compute. reflexivity.
  - discriminate.
  - intros c Hc. unfold steady_cands in Hc.
    repeat (destruct Hc as [<- | Hc]; [reflexivity|]). destruct Hc.
Defined.

Lemma choose_by_weighted_fields_consensus_rep (all_cands : list Candidate)
  (y M d h m s : Z) :
  vote columns all_cands = Some [y; M; d; h; m; s] ->
  valid_datetime y M d h m s = true ->
  exists rep,
    choose_by_weighted_fields all_cands
    = Return (Some (DT y M d h m s), Some rep)
    /\ In rep all_cands
    /\ forall c, In c all_cands ->
                 (rep_score (DT y M d h m s) c <= rep_score (DT y M d h m s) rep)%Q.
Proof.
  intros Ev Hv.
  destruct (vote_positive _ _ Ev) as (c & Hc & Hw).
  assert (Hne : all_cands <> []) by (intros ->; destruct Hc).
  destruct (pick_rep_spec (DT y M d h m s) all_cands) as (rep & Hr & Hin & Hmax).
  { exists c. split; [exact Hc|].
    pose proof (rep_score_bound (DT y M d h m s) c). unfold ABSENT. lra. }
  exists rep. split; [|split; assumption].
  unfold choose_by_weighted_fields. rewrite (columns_of _ Hne), Ev.
  unfold mk_datetime. now rewrite Hv, Hr.
Qed.

(** X14.  When the six voted fields make a valid date, the per-field vote
    returns that date as the consensus, with a representative among the
    candidates that maximises the score of the loop: the weight, less 0.5
    for a candidate whose own timestamp is not the consensus. *)
Theorem choose_by_weighted_fields_consensus (all_cands : list Candidate)
  (y M d h m s : Z) :
  vote columns all_cands = Some [y; M; d; h; m; s] ->
  valid_datetime y M d h m s = true ->
  exists rep,
    choose_by_weighted_fields all_cands
    = Return (Some (DT y M d h m s), Some rep)
    /\ In rep all_cands
    /\ forall c, In c all_cands ->
                 (rep_score (DT y M d h m s) c <= rep_score (DT y M d h m s) rep)%Q.
Proof. apply choose_by_weighted_fields_consensus_rep. Qed.

Lemma choose_by_weighted_fields_consensus_witness :
  exists rep,
    choose_by_weighted_fields [elite_b; elite_a]
    = Return (Some (DT 2024 8 1 6 31 27), Some rep)
    /\ In rep [elite_b; elite_a]
    /\ forall c, In c [elite_b; elite_a] ->
                 (rep_score (DT 2024 8 1 6 31 27) c
                  <= rep_score (DT 2024 8 1 6 31 27) rep)%Q.
Proof.
  apply (choose_by_weighted_fields_consensus [elite_b; elite_a] 2024 8 1 6 31 27);
    vm_compute; reflexivity.
Defined.

(** X15.  Lowering the margin never loses an elite winner: a candidate that
    is elite for a margin is elite for every smaller margin, and the
    selection then returns its timestamp and raw text. *)
Theorem choose_elite_candidate_margin (all_cands : list Candidate)
  (elite_margin smaller : Q) (top : Candidate) :
  choose_elite_candidate all_cands elite_margin = Some top ->
  (smaller <= elite_margin)%Q ->
  choose_elite_candidate all_cands smaller = Some top
  /\ select all_cands smaller = Return (Some (c_dt top), c_raw top).
Proof.
  intros H Hm.
  assert (E : choose_elite_candidate all_cands smaller = Some top).
  { rewrite choose_elite_candidate_unfold in *.
    destruct (sorted heavier_first all_cands) as [|t ranked']; [discriminate|].
    cbn zeta in *.
    destruct (str_mem (c_roi t) PREFERRED_ROIS && str_mem (c_var t) PREFERRED_VARS);
      cbn [andb] in *; [|discriminate].
    match type of H with
    | (if Qle_bool ?a ?b then _ else _) = _ =>
        destruct (Qle_bool a b) eqn:Q1; [|discriminate]
    end.
    apply Qle_bool_iff in Q1.
    match goal with
    | |- (if Qle_bool ?a ?b then _ else _) = _ =>
        replace (Qle_bool a b) with true;
        [exact H | symmetry; apply Qle_bool_iff; lra]
    end. }
  split; [exact E|].
  unfold select. destruct all_cands as [|c0 cs]; [discriminate E|]. now rewrite E.
Qed.

Lemma choose_elite_candidate_margin_witness :
  choose_elite_candidate [elite_a; elite_b] 0 = Some elite_a
  /\ select [elite_a; elite_b] 0
     = Return (Some (c_dt elite_a), c_raw elite_a).
Proof.
  apply (choose_elite_candidate_margin [elite_a; elite_b] (8 # 10) 0 elite_a).
  - vm_compute. reflexivity.
  - vm_compute. discriminate.
Defined.

Ltac table_cases :=
  repeat match goal with
         | |- context [if str_eqb ?a ?b then _ else _] => destruct (str_eqb a b)
         end;
  cbn [In]; tauto.

Lemma roi_case roi :
  In (dict_get ROI_WEIGHT roi 0, Binary64.dict_get Binary64.ROI_WEIGHT roi Binary64.zero)
     roi_cases.
Proof.
  unfold roi_cases, ROI_WEIGHT, Binary64.ROI_WEIGHT.
  cbn [dict_get Binary64.dict_get map snd app combine]. table_cases.
Qed.

Lemma variant_case var :
  In (dict_get VARIANT_WEIGHT var 0,
      Binary64.dict_get Binary64.VARIANT_WEIGHT var Binary64.zero)
     variant_cases.
Proof.
  unfold variant_cases, VARIANT_WEIGHT, Binary64.VARIANT_WEIGHT.
  cbn [dict_get Binary64.dict_get map snd app combine]. table_cases.
Qed.

Lemma bonus_case raw :
  In (rough_layout_bonus raw, Binary64.rough_layout_bonus raw) bonus_cases.
Proof.
  unfold rough_layout_bonus, Binary64.rough_layout_bonus. cbn zeta.
  set (t := normalize_ocr raw).
  change (In (fst (bonus_of ((2 <=? count_char ":" t) && (count_char ":" t <=? 3))
                            (is_some (re_search RESIDUAL_TRIPLET t))
                            (is_some (re_search TIME_TAIL t))),
              snd (bonus_of ((2 <=? count_char ":" t) && (count_char ":" t <=? 3))
                            (is_some (re_search RESIDUAL_TRIPLET t))
                            (is_some (re_search TIME_TAIL t))))
             bonus_cases).
  rewrite <- surjective_pairing.
  destruct ((2 <=? count_char ":" t) && (count_char ":" t <=? 3)),
    (is_some (re_search RESIDUAL_TRIPLET t)), (is_some (re_search TIME_TAIL t));
    unfold bonus_cases; cbn [In]; tauto.
Qed.

Lemma weight_case roi_tag var_tag raw :
  In (candidate_weight roi_tag var_tag raw, Binary64.candidate_weight roi_tag var_tag raw)
     weight_cases.
Proof.
  unfold weight_cases. apply in_flat_map. eexists. split; [apply (roi_case roi_tag)|].
  apply in_flat_map. eexists. split; [apply (variant_case var_tag)|].
  apply in_map_iff. eexists. split; [|apply (bonus_case raw)]. reflexivity.
Qed.

Lemma weight_cases_close : forallb close_weights weight_cases = true.
Proof. vm_compute. reflexivity. Qed.

Lemma preferred_weight_case roi_tag var_tag raw :
  In roi_tag PREFERRED_ROIS -> In var_tag PREFERRED_VARS ->
  In (candidate_weight roi_tag var_tag raw, Binary64.candidate_weight roi_tag var_tag raw)
     (flat_map (fun r => flat_map (fun v => map (weight_of r v) bonus_cases)
                                  (firstn 2 variant_cases))
               (firstn 2 roi_cases)).
Proof.
  intros Hr Hv.
  apply in_flat_map.
  exists (dict_get ROI_WEIGHT roi_tag 0,
          Binary64.dict_get Binary64.ROI_WEIGHT roi_tag Binary64.zero). split.
  { destruct Hr as [<- | [<- | []]]; [left | right; left]; reflexivity. }
  apply in_flat_map.
  exists (dict_get VARIANT_WEIGHT var_tag 0,
          Binary64.dict_get Binary64.VARIANT_WEIGHT var_tag Binary64.zero). split.
  { destruct Hv as [<- | [<- | []]]; [left | right; left]; reflexivity. }
  apply in_map_iff. eexists. split; [|apply (bonus_case raw)]. reflexivity.
Qed.

Lemma preferred_cases_heavy :
  forallb heavy_weight
    (flat_map (fun r => flat_map (fun v => map (weight_of r v) bonus_cases)
                                 (firstn 2 variant_cases))
              (firstn 2 roi_cases)) = true.
Proof. vm_compute. reflexivity. Qed.

(** X16.  Whatever the tags and the text, the weight that the script
    computes for a candidate is a finite double within 1.1e-15 of the
    decimal weight, which lies between -3.3 and 7.4; for a preferred region
    and variant it stands for 3.1999999999999997 at least, so it is
    strictly positive. *)
Theorem candidate_weight_range (roi_tag var_tag raw : str) :
  let w := Binary64.candidate_weight roi_tag var_tag raw in
  Binary64.is_finite w = true
  /\ (- (11 # 10000000000000000)
      <= Binary64.exact w - candidate_weight roi_tag var_tag raw
      <= 11 # 10000000000000000)%Q
  /\ (- (33 # 10) <= candidate_weight roi_tag var_tag raw <= 74 # 10)%Q
  /\ (In roi_tag PREFERRED_ROIS -> In var_tag PREFERRED_VARS ->
      Binary64.ltb Binary64.zero w = true
      /\ (31999999999999997 # 10000000000000000 <= Binary64.exact w)%Q).
Proof.
  cbn zeta.
  pose proof (proj1 (forallb_forall _ _) weight_cases_close _
                (weight_case roi_tag var_tag raw)) as H.
  unfold close_weights in H. cbn [fst snd] in H.
  rewrite !andb_true_iff, !Qle_bool_iff in H. destruct H as [[[[H1 H2] H3] H4] H5].
  split; [exact H3|]. split; [now split|]. split; [now split|].
  intros Hr Hv.
  pose proof (proj1 (forallb_forall _ _) preferred_cases_heavy _
                (preferred_weight_case roi_tag var_tag raw Hr Hv)) as H.
  unfold heavy_weight in H. cbn [fst snd] in H.
  rewrite andb_true_iff, Qle_bool_iff in H. exact H.
Qed.

Lemma collect_variants_spec img r vtags : forall cs,
  collect_variants img r vtags = Return cs ->
  length cs <= length vtags
  /\ Forall (fun c => c_roi c = r /\ In (c_var c) vtags
                      /\ ocr_text img r (c_var c) = Return (c_raw c)
                      /\ parse_timestamp_flex (c_raw c) = Return (Some (c_dt c, c_parts c))
                      /\ c_canon c = strftime (c_dt c)
                      /\ c_w c = candidate_weight r (c_var c) (c_raw c)) cs
  /\ forall v raw x, In v vtags ->
       ocr_text img r v = Return raw ->
       parse_timestamp_flex raw = Return (Some x) ->
       exists c, In c cs /\ c_roi c = r /\ c_var c = v.
Proof.
  induction vtags as [|v vtags IH]; cbn [collect_variants]; intros cs.
  - intros [= <-]. split; [reflexivity|]. split; [constructor|]. intros v raw x [].
  - destruct (img r v) as [text|] eqn:Et; cbn [bind]; [|discriminate].
    assert (Eo : ocr_text img r v = Return (replace_char "010" " " (strip text)))
      by (unfold ocr_text; now rewrite Et).
    set (raw0 := replace_char "010" " " (strip text)) in *.
    destruct (parse_timestamp_flex raw0) as [x|] eqn:Ep;
      cbn [bind]; [|discriminate].
    destruct (collect_variants img r vtags) as [cs'|]; cbn [bind]; [|discriminate].
    destruct (IH cs' eq_refl) as (Hlen & Hall & Hcov).
    assert (Hall' : Forall (fun c => c_roi c = r /\ In (c_var c) (v :: vtags)
                      /\ ocr_text img r (c_var c) = Return (c_raw c)
                      /\ parse_timestamp_flex (c_raw c) = Return (Some (c_dt c, c_parts c))
                      /\ c_canon c = strftime (c_dt c)
                      /\ c_w c = candidate_weight r (c_var c) (c_raw c)) cs').
    { revert Hall. apply Forall_impl. intros c (A & B & C). split; [exact A|].
      split; [now right | exact C]. }
    destruct x as [[d p]|]; intros [= <-].
    + split; [cbn [length]; lia|]. split.
      * constructor; [|exact Hall']. cbn [c_roi c_var c_raw c_dt c_parts c_canon c_w].
        split; [reflexivity|]. split; [now left|]. now repeat split.
      * intros v' raw x [<- | Hv] Hraw Hx.
        -- eexists. split; [now left|]. split; reflexivity.
        -- destruct (Hcov v' raw x Hv Hraw Hx) as (c & Hc & E).
           exists c. split; [now right | exact E].
    + split; [cbn [length]; lia|]. split; [exact Hall'|].
      intros v' raw x [<- | Hv] Hraw Hx; [congruence|].
      apply (Hcov v' raw x Hv Hraw Hx).
Qed.

Lemma collect_all_spec img rois : forall cs,
  collect_all img rois = Return cs ->
  length cs <= length rois * length VARIANTS
  /\ Forall (fun c => In (c_roi c) rois /\ In (c_var c) VARIANTS
                      /\ ocr_text img (c_roi c) (c_var c) = Return (c_raw c)
                      /\ parse_timestamp_flex (c_raw c) = Return (Some (c_dt c, c_parts c))
                      /\ c_canon c = strftime (c_dt c)
                      /\ c_w c = candidate_weight (c_roi c) (c_var c) (c_raw c)) cs
  /\ forall r v raw x, In r rois -> In v VARIANTS ->
       ocr_text img r v = Return raw ->
       parse_timestamp_flex raw = Return (Some x) ->
       exists c, In c cs /\ c_roi c = r /\ c_var c = v.
Proof.
  induction rois as [|r rois IH]; cbn [collect_all]; intros cs.
  - intros [= <-]. split; [reflexivity|]. split; [constructor|]. intros r v raw x [].
  - unfold collect_candidates_from_roi.
    destruct (collect_variants img r VARIANTS) as [cs1|] eqn:E1; cbn [bind]; [|discriminate].
    destruct (collect_all img rois) as [cs2|]; cbn [bind]; [|discriminate].
    intros [= <-].
    destruct (collect_variants_spec img r VARIANTS cs1 E1) as (L1 & A1 & C1).
    destruct (IH cs2 eq_refl) as (L2 & A2 & C2).
    split; [rewrite length_app; cbn [length]; lia|]. split.
    + apply Forall_app. split.
      * revert A1. apply Forall_impl. intros c (A & B & C & D & E & F).
        rewrite A. split; [now left|]. now repeat split.
      * revert A2. apply Forall_impl. intros c (A & B). split; [now right | exact B].
    + intros r' v raw x [<- | Hr] Hv Hraw Hx.
      * destruct (C1 v raw x Hv Hraw Hx) as (c & Hc & E). exists c.
        split; [apply in_or_app; now left | exact E].
      * destruct (C2 r' v raw x Hr Hv Hraw Hx) as (c & Hc & E). exists c.
        split; [apply in_or_app; now right | exact E].
Qed.

(** X17.  The collection of the candidates of an image raises only when
    the read of a (ROI, variant) pair raises.  Otherwise the candidates are
    at most 24; each is built from one region and variant of the script,
    whose OCR text it carries together with the parse of that text, the
    canonical string of the parsed timestamp and the weight of the pair and
    the text; and every region and variant whose text parses has its
    candidate. *)
Theorem collect_all_candidates (img : image) :
  (collect_all img ROIS = Raise
   /\ exists r v, In r ROIS /\ In v VARIANTS /\ img r v = Raise)
  \/ exists all_cands,
       collect_all img ROIS = Return all_cands
       /\ length all_cands <= 24
       /\ Forall (candidate_of img) all_cands
       /\ forall r v raw x, In r ROIS -> In v VARIANTS ->
            ocr_text img r v = Return raw ->
            parse_timestamp_flex raw = Return (Some x) ->
            exists c, In c all_cands /\ c_roi c = r /\ c_var c = v.
Proof.
  destruct (reads_or_raises img ROIS VARIANTS) as [Hr | (r & v & Hr & Hv & E)].
  - right. destruct (collect_all_returns img ROIS Hr) as [cs Hcs]. exists cs.
    destruct (collect_all_spec img ROIS cs Hcs) as (L & A & C).
    split; [exact Hcs|]. split; [exact L|]. split; [exact A | exact C].
  - left. split; [|eauto]. exact (collect_all_raises img ROIS r v Hr Hv E).
Qed.

(** ** The whole-string fallback *)

Lemma str_ltb_asym a : forall b, str_ltb a b = true -> str_ltb b a = false.
Proof.
  induction a as [|x a IH]; intros [|y b]; cbn [str_ltb]; try congruence.
  destruct (code x <? code y)%N eqn:L1.
  - intros _. apply N.ltb_lt in L1.
    replace (code y <? code x)%N with false by (symmetry; apply N.ltb_ge; lia).
    replace (code y =? code x)%N with false by (symmetry; apply N.eqb_neq; lia).
    reflexivity.
  - destruct (code x =? code y)%N eqn:E1; [|discriminate].
    apply N.eqb_eq in E1. rewrite E1, N.ltb_irrefl, N.eqb_refl. apply IH.
Qed.

Lemma str_ltb_negtrans a : forall b c,
  str_ltb a b = false -> str_ltb b c = false -> str_ltb a c = false.
Proof.
  induction a as [|x a IH]; intros [|y b] [|z c]; cbn [str_ltb]; try congruence.
  destruct (code x <? code y)%N eqn:L1; [discriminate|].
  destruct (code y <? code z)%N eqn:L2; [discriminate|].
  apply N.ltb_ge in L1, L2.
  destruct (code x =? code y)%N eqn:E1;
    [apply N.eqb_eq in E1 | apply N.eqb_neq in E1];
    (destruct (code y =? code z)%N eqn:E2;
     [apply N.eqb_eq in E2 | apply N.eqb_neq in E2]); intros H1 H2.
  - replace (code x <? code z)%N with false by (symmetry; apply N.ltb_ge; lia).
    replace (code x =? code z)%N with true by (symmetry; apply N.eqb_eq; lia).
    now apply (IH b c).
  - replace (code x <? code z)%N with false by (symmetry; apply N.ltb_ge; lia).
    replace (code x =? code z)%N with false by (symmetry; apply N.eqb_neq; lia).
    reflexivity.
  - replace (code x <? code z)%N with false by (symmetry; apply N.ltb_ge; lia).
    replace (code x =? code z)%N with false by (symmetry; apply N.eqb_neq; lia).
    reflexivity.
  - replace (code x <? code z)%N with false by (symmetry; apply N.ltb_ge; lia).
    replace (code x =? code z)%N with false by (symmetry; apply N.eqb_neq; lia).
    reflexivity.
Qed.

Section KeyPair.
Context {A K : Type} (f : A -> Q) (g : A -> K) (key_ltb : K -> K -> bool).
Hypothesis key_asym : forall a b, key_ltb a b = true -> key_ltb b a = false.
Hypothesis key_negtrans :
  forall a b c, key_ltb a b = false -> key_ltb b c = false -> key_ltb a c = false.

Lemma by_key_pair_true a b :
  by_key_pair f g key_ltb a b = true
  <-> (f b < f a)%Q \/ ((f a == f b)%Q /\ key_ltb (g a) (g b) = true).
Proof.
  unfold by_key_pair.
  rewrite orb_true_iff, andb_true_iff, Qltb_lt, Qeq_bool_iff.
  split; (intros [H | [H1 H2]]; [left; lra | right; split; [lra | exact H2]]).
Qed.

Lemma by_key_pair_false a b :
  by_key_pair f g key_ltb a b = false
  <-> (f a <= f b)%Q /\ ((f a == f b)%Q -> key_ltb (g a) (g b) = false).
Proof.
  rewrite <- not_true_iff_false, by_key_pair_true. split.
  - intros H. split.
    + apply Qnot_lt_le. intros Hlt. apply H. now left.
    + intros He. apply not_true_iff_false. intros Hlt. apply H. right. now split.
  - intros [Hle Hk] [Hlt | [He Hlt]]; [lra|]. specialize (Hk He). congruence.
Qed.

Lemma by_key_pair_asym a b :
  by_key_pair f g key_ltb a b = true -> by_key_pair f g key_ltb b a = false.
Proof.
  rewrite by_key_pair_true, by_key_pair_false.
  intros [H | [He Hlt]]; split; try lra; intros; try lra. now apply key_asym.
Qed.

Lemma by_key_pair_negtrans a b c :
  by_key_pair f g key_ltb a b = false -> by_key_pair f g key_ltb b c = false ->
  by_key_pair f g key_ltb a c = false.
Proof.
  rewrite !by_key_pair_false. intros [H1 K1] [H2 K2]. split; [lra|].
  intros He. assert (Hab : (f a == f b)%Q) by lra. assert (Hbc : (f b == f c)%Q) by lra.
  exact (key_negtrans _ _ _ (K1 Hab) (K2 Hbc)).
Qed.
End KeyPair.

Lemma choose_by_weighted_whole_string_unfold all_cands :
  choose_by_weighted_whole_string all_cands =
  let by_key := tally_positive str_eqb (map (fun c => (c_canon c, c_w c)) all_cands) in
  match by_key with
  | [] => Return (None, None)
  | _ =>
      best <- first_of (sorted (by_key_pair snd fst str_ltb) by_key) ;;
      rep <- first_of (sorted (by_key_pair c_w c_roi str_ltb)
                              (filter (fun c => str_eqb (c_canon c) (fst best)) all_cands)) ;;
      Return (Some (c_dt rep), Some rep)
  end.
Proof. reflexivity. Qed.

Lemma canon_weight_positive all_cands c :
  In c all_cands -> (0 < c_w c)%Q ->
  In (c_canon c)
     (map fst (tally_positive str_eqb (map (fun c => (c_canon c, c_w c)) all_cands))).
Proof.
  intros Hc Hw.
  destruct (tally_positive_spec str_eqb str_eqb_eq
              (map (fun c => (c_canon c, c_w c)) all_cands)) as (_ & _ & _ & Hk).
  apply Hk. exists (c_w c). split; [|exact Hw].
  apply in_map_iff. exists c. now split.
Qed.

Lemma choose_by_weighted_whole_string_some all_cands :
  (exists c, In c all_cands /\ (0 < c_w c)%Q) ->
  exists rep,
    choose_by_weighted_whole_string all_cands = Return (Some (c_dt rep), Some rep)
    /\ In rep all_cands.
Proof.
  intros (c & Hc & Hw).
  destruct (choose_by_weighted_whole_string_returns all_cands) as [r Hr].
  destruct (choose_by_weighted_whole_string_rep all_cands r Hr) as [-> | (rep & Hin & ->)];
    [|eauto].
  exfalso. pose proof (canon_weight_positive all_cands c Hc Hw) as Hk.
  rewrite choose_by_weighted_whole_string_unfold in Hr. cbn zeta in Hr.
  destruct (tally_positive str_eqb _) as [|kv t]; [destruct Hk|].
  destruct (first_of (sorted _ (kv :: t))) as [best|]; cbn [bind] in Hr; [|discriminate].
  destruct (first_of (sorted _ (filter _ all_cands))) as [rep|]; cbn [bind] in Hr;
    discriminate.
Qed.

Lemma weighted_mode_some values weights v w :
  In (v, w) (combine values weights) -> (0 < w)%Q ->
  exists v', weighted_mode values weights = Some v'.
Proof.
  intros Hin Hw. unfold weighted_mode.
  destruct (tally_positive_spec Z.eqb Z.eqb_eq (combine values weights))
    as (_ & _ & _ & Hk).
  cbn zeta in Hk.
  assert (Hv : In v (map fst (tally_positive Z.eqb (combine values weights))))
    by (apply Hk; eauto).
  destruct (sorted_not_nil (by_weight_then_key Z.ltb)
              (tally_positive Z.eqb (combine values weights))) as (x & r & ->).
  - intros E. rewrite E in Hv. destruct Hv.
  - eauto.
Qed.

Lemma vote_some all_cands c cols :
  In c all_cands -> (0 < c_w c)%Q ->
  exists voted, vote cols all_cands = Some voted /\ length voted = length cols.
Proof.
  intros Hc Hw. induction cols as [|col cols IH]; cbn [vote]; [now exists []|].
  destruct (weighted_mode_some (map (fun c => col (c_parts c)) all_cands)
              (map c_w all_cands) (col (c_parts c)) (c_w c)) as [v ->].
  - clear IH. induction all_cands as [|x l IHl]; [destruct Hc|].
    cbn [map combine]. destruct Hc as [-> | Hc]; [now left | right; auto].
  - exact Hw.
  - destruct IH as (voted & -> & Hl). exists (v :: voted). cbn. now rewrite Hl.
Qed.

(** X18.  On a non-empty list of candidates the per-field vote gives up,
    and leaves the choice to the heaviest candidate, exactly when no
    candidate has a strictly positive weight; otherwise it returns a
    timestamp. *)
Theorem choose_by_weighted_fields_gives_up (all_cands : list Candidate) :
  all_cands <> [] ->
  (choose_by_weighted_fields all_cands = Return (None, None)
   <-> forall c, In c all_cands -> (c_w c <= 0)%Q)
  /\ ((exists c, In c all_cands /\ (0 < c_w c)%Q) ->
      exists d rep, choose_by_weighted_fields all_cands = Return (Some d, Some rep)).
Proof.
  intros Hne.
  assert (Hpos : (exists c, In c all_cands /\ (0 < c_w c)%Q) ->
                 exists d rep, choose_by_weighted_fields all_cands
                               = Return (Some d, Some rep)).
  { intros (c & Hc & Hw).
    destruct (vote_some all_cands c columns Hc Hw) as (voted & Ev & Hl).
    destruct voted as [|y [|M [|dd [|h [|mm [|ss [|? ?]]]]]]]; try discriminate Hl.
    destruct (valid_datetime y M dd h mm ss) eqn:Hv.
    - destruct (choose_by_weighted_fields_consensus_rep all_cands y M dd h mm ss Ev Hv)
        as (rep & Hr & _). eauto.
    - destruct (choose_by_weighted_whole_string_some all_cands) as (rep & Hr & _);
        [eauto|].
      exists (c_dt rep), rep.
      unfold choose_by_weighted_fields. rewrite (columns_of _ Hne), Ev.
      unfold mk_datetime. now rewrite Hv. }
  split; [|exact Hpos]. split.
  - intros H c Hc. destruct (Qlt_le_dec 0 (c_w c)) as [Hw | Hw]; [|exact Hw].
    destruct Hpos as (d & rep & E); [eauto|]. congruence.
  - now apply choose_by_weighted_fields_nonpos.
Qed.

Lemma choose_by_weighted_fields_gives_up_witness :
  (choose_by_weighted_fields weak_cands = Return (None, None)
   <-> forall c, In c weak_cands -> (c_w c <= 0)%Q)
  /\ ((exists c, In c weak_cands /\ (0 < c_w c)%Q) ->
      exists d rep, choose_by_weighted_fields weak_cands = Return (Some d, Some rep)).
Proof. apply (choose_by_weighted_fields_gives_up weak_cands). discriminate. Defined.

(** X19.  When the whole-string fallback returns a timestamp, it is that of
    a candidate whose canonical string is carried with a strictly positive
    weight and has the greatest sum, the sums being those that the script
    adds up in binary64; a string with an equal sum does not come before
    it; and no candidate with that string is heavier than the
    representative.  (No weight is a NaN: the weights of the pipeline are
    finite.) *)
Theorem choose_by_weighted_whole_string_spec (all_cands : list Binary64.Candidate)
  (d : datetime) (rep : Binary64.Candidate) :
  Forall (fun c => Binary64.is_nan (Binary64.c_w c) = false) all_cands ->
  Binary64.choose_by_weighted_whole_string all_cands = Return (Some d, Some rep) ->
  In rep all_cands /\ d = Binary64.c_dt rep
  /\ (exists c, In c all_cands /\ Binary64.c_canon c = Binary64.c_canon rep
                /\ Binary64.ltb Binary64.zero (Binary64.c_w c) = true)
  /\ (forall k,
        Binary64.ltb (Binary64.canon_weight (Binary64.c_canon rep) all_cands)
                     (Binary64.canon_weight k all_cands) = false)
  /\ (forall c, In c all_cands -> Binary64.ltb Binary64.zero (Binary64.c_w c) = true ->
        Binary64.eqb (Binary64.canon_weight (Binary64.c_canon c) all_cands)
                     (Binary64.canon_weight (Binary64.c_canon rep) all_cands) = true ->
        str_ltb (Binary64.c_canon c) (Binary64.c_canon rep) = false)
  /\ (forall c, In c all_cands -> Binary64.c_canon c = Binary64.c_canon rep ->
        Binary64.ltb (Binary64.c_w rep) (Binary64.c_w c) = false).
Proof.
  intros Hnan. rewrite Forall_forall in Hnan.
  unfold Binary64.choose_by_weighted_whole_string, Binary64.canon_weight. cbn zeta.
  set (kws := map (fun c => (Binary64.c_canon c, Binary64.c_w c)) all_cands).
  set (t := Binary64.tally_positive str_eqb kws).
  destruct t as [|kv0 t0] eqn:Et; [discriminate|]. rewrite <- Et. clear Et.
  destruct (sorted (Binary64.by_weight_then_key str_ltb) t) as [|[k s] r] eqn:E;
    cbn [first_of bind]; [discriminate|]. cbn [fst].
  set (reps := filter (fun c => str_eqb (Binary64.c_canon c) k) all_cands).
  assert (Hreps : forall x, In x reps -> Binary64.is_nan (Binary64.c_w x) = false).
  { intros x Hx. apply filter_In in Hx. apply Hnan, Hx. }
  rewrite (sorted_ext _ (fun a b : Binary64.Candidate =>
                           Binary64.by_rank_then_key str_ltb
                             (Binary64.c_roi a, Binary64.c_w a)
                             (Binary64.c_roi b, Binary64.c_w b)))
    by (intros x y Hx Hy; apply by_weight_then_key_rank; cbn [snd]; auto).
  destruct (sorted _ reps) as [|c rr] eqn:E2; cbn [first_of bind]; [discriminate|].
  intros [= <- <-].
  destruct (float_tally_best str_eqb str_eqb_eq str_ltb str_ltb_asym str_ltb_negtrans
              _ _ _ _ E) as ((w & Hw & Hpos) & Hmax & Htie).
  destruct (sorted_head_min _
              (fun a b => by_rank_then_key_asym str_ltb str_ltb_asym
                            (Binary64.c_roi a, Binary64.c_w a)
                            (Binary64.c_roi b, Binary64.c_w b))
              (fun a b c => by_rank_then_key_negtrans str_ltb str_ltb_negtrans
                              (Binary64.c_roi a, Binary64.c_w a)
                              (Binary64.c_roi b, Binary64.c_w b)
                              (Binary64.c_roi c, Binary64.c_w c))
              _ _ _ E2) as [Hin2 Hmin2].
  pose proof (Hreps _ Hin2) as Hc_nan.
  apply filter_In in Hin2. destruct Hin2 as [Hc Hck]. apply str_eqb_eq in Hck.
  rewrite Hck.
  split; [exact Hc|]. split; [reflexivity|]. split; [|split; [exact Hmax|split]].
  - apply in_map_iff in Hw. destruct Hw as (c0 & [= Hk0 Hw0] & Hc0).
    exists c0. subst w. auto.
  - intros x Hx Hxw He. apply (Htie _ (Binary64.c_w x)); [|exact Hxw | exact He].
    apply in_map_iff. exists x. now split.
  - intros x Hx Hxk.
    assert (Hx' : In x reps).
    { apply filter_In. split; [exact Hx|]. apply str_eqb_eq. congruence. }
    specialize (Hmin2 x Hx'). unfold Binary64.by_rank_then_key in Hmin2.
    cbn [fst snd] in Hmin2.
    rewrite (ltb_rank _ _ Hc_nan (Hreps _ Hx')).
    destruct (Binary64.rank_eqb (Binary64.rank (Binary64.c_w x))
                                (Binary64.rank (Binary64.c_w c))) eqn:Er;
      [|exact Hmin2].
    destruct (Binary64.rank (Binary64.c_w x)) as [[a1 a2] a3],
             (Binary64.rank (Binary64.c_w c)) as [[b1 b2] b3].
    apply rank_eqb_eq in Er. apply not_true_iff_false. rewrite rank_ltb_lt. lia.
Qed.

Lemma choose_by_weighted_whole_string_spec_witness :
  exists d rep,
    Binary64.choose_by_weighted_whole_string Binary64.rounding_cands
    = Return (Some d, Some rep)
    /\ In rep Binary64.rounding_cands /\ d = Binary64.c_dt rep
    /\ (exists c, In c Binary64.rounding_cands
                  /\ Binary64.c_canon c = Binary64.c_canon rep
                  /\ Binary64.ltb Binary64.zero (Binary64.c_w c) = true)
    /\ (forall k,
          Binary64.ltb
            (Binary64.canon_weight (Binary64.c_canon rep) Binary64.rounding_cands)
            (Binary64.canon_weight k Binary64.rounding_cands) = false)
    /\ (forall c, In c Binary64.rounding_cands ->
          Binary64.ltb Binary64.zero (Binary64.c_w c) = true ->
          Binary64.eqb
            (Binary64.canon_weight (Binary64.c_canon c) Binary64.rounding_cands)
            (Binary64.canon_weight (Binary64.c_canon rep) Binary64.rounding_cands) = true ->
          str_ltb (Binary64.c_canon c) (Binary64.c_canon rep) = false)
    /\ (forall c, In c Binary64.rounding_cands ->
          Binary64.c_canon c = Binary64.c_canon rep ->
          Binary64.ltb (Binary64.c_w rep) (Binary64.c_w c) = false).
Proof.
  eexists. eexists. split; [vm_compute; reflexivity|].
  apply (choose_by_weighted_whole_string_spec Binary64.rounding_cands).
  - repeat constructor.
  - vm_compute. reflexivity.
Defined.

(** ** The parser only reads digits that stand in the text *)

Lemma subseq_nil_l {A : Type} (l : list A) : subseq [] l.
Proof. induction l; now constructor. Qed.

Lemma subseq_refl {A : Type} (l : list A) : subseq l l.
Proof. induction l; now constructor. Qed.

Lemma subseq_trans {A : Type} (a b c : list A) :
  subseq a b -> subseq b c -> subseq a c.
Proof.
  intros Hab Hbc. revert a Hab.
  induction Hbc as [|x b c Hbc IH|x b c Hbc IH]; intros a Hab.
  - exact Hab.
  - constructor. now apply IH.
  - inversion Hab; subst; constructor; now apply IH.
Qed.

Lemma subseq_app {A : Type} (a b c d : list A) :
  subseq a b -> subseq c d -> subseq (a ++ c) (b ++ d).
Proof.
  intros Hab Hcd. induction Hab; cbn [app]; try (constructor; assumption).
  exact Hcd.
Qed.

Lemma subseq_app_r {A : Type} (u p l : list A) : subseq u l -> subseq u (p ++ l).
Proof. intros H. apply (subseq_app [] p u l); [apply subseq_nil_l | exact H]. Qed.

Lemma subseq_app_l {A : Type} (u l p : list A) : subseq u l -> subseq u (l ++ p).
Proof.
  intros H. rewrite <- (app_nil_r u). apply subseq_app; [exact H | apply subseq_nil_l].
Qed.

Lemma subseq_firstn {A : Type} n (l : list A) : subseq (firstn n l) l.
Proof.
  rewrite <- (firstn_skipn n l) at 2. apply subseq_app_l, subseq_refl.
Qed.

Lemma subseq_skipn {A : Type} n (l : list A) : subseq (skipn n l) l.
Proof.
  rewrite <- (firstn_skipn n l) at 2. apply subseq_app_r, subseq_refl.
Qed.

Lemma subseq_filter {A : Type} (p : A -> bool) (u l : list A) :
  subseq u l -> subseq (filter p u) (filter p l).
Proof.
  induction 1 as [|x u l H IH|x u l H IH]; cbn [filter].
  - constructor.
  - destruct (p x); [now constructor | exact IH].
  - destruct (p x); [now constructor | exact IH].
Qed.

Lemma subseq_length {A : Type} (u l : list A) : subseq u l -> length u <= length l.
Proof. induction 1; cbn [length]; lia. Qed.

Lemma filter_all {A : Type} (p : A -> bool) (l : list A) :
  forallb p l = true -> filter p l = l.
Proof.
  induction l as [|x l IH]; cbn [forallb filter]; [reflexivity|].
  intros H. apply andb_true_iff in H. destruct H as [-> H]. now rewrite IH.
Qed.

Lemma m_toks_sub {R : Type} ts : forall s caps (k : list str -> str -> option R) r,
  m_toks ts s caps k = Some r ->
  exists caps' g s',
    s = g ++ s' /\ Forall2 seq_ok (groups_of ts) caps'
    /\ subseq (concat caps') g
    /\ k (caps ++ caps') s' = Some r.
Proof.
  induction ts as [|t ts IH]; intros s caps k r H.
  - exists [], [], s. rewrite app_nil_r.
    split; [reflexivity|]. split; [constructor|]. split; [constructor | exact H].
  - destruct t as [a | body | p | ]; cbn [m_toks groups_of] in *.
    + apply m_seq_sound in H. destruct H as (g & s1 & Hs & _ & H).
      apply IH in H. destruct H as (caps' & g' & s' & Hs1 & Hc & Hsub & Hk).
      exists caps', (g ++ g'), s'. rewrite <- app_assoc, <- Hs1.
      split; [exact Hs|]. split; [exact Hc|]. split; [now apply subseq_app_r | exact Hk].
    + apply m_seq_sound in H. destruct H as (g & s1 & Hs & Hg & H).
      apply IH in H. destruct H as (caps' & g' & s' & Hs1 & Hc & Hsub & Hk).
      exists (g :: caps'), (g ++ g'), s'. rewrite <- app_assoc, <- Hs1.
      split; [exact Hs|]. split; [now constructor|]. split.
      * cbn [concat]. apply subseq_app; [apply subseq_refl | exact Hsub].
      * rewrite <- app_assoc in Hk. exact Hk.
    + destruct (ahead p s); [|discriminate]. apply IH in H.
      destruct H as (caps' & g' & s' & Hs1 & Hc & Hk). exists caps', g', s'. auto.
    + destruct (at_eol s); [|discriminate]. apply IH in H.
      destruct H as (caps' & g' & s' & Hs1 & Hc & Hk). exists caps', g', s'. auto.
Qed.

Lemma re_match_sub pat s caps n :
  re_match pat s = Some (caps, n) ->
  Forall2 seq_ok (groups_of pat) caps
  /\ subseq (concat caps) (firstn n s) /\ n <= length s.
Proof.
  unfold re_match. intros H. apply m_toks_sub in H.
  destruct H as (caps' & g & s' & -> & Hc & Hsub & [= <- <-]). cbn [app].
  rewrite length_app.
  replace (length g + length s' - length s') with (length g + 0) by lia.
  rewrite firstn_app_2. cbn [firstn]. rewrite app_nil_r.
  split; [exact Hc|]. split; [exact Hsub | lia].
Qed.

Lemma search_from_sub pat : forall s i b e caps,
  search_from pat s i = Some (b, e, caps) ->
  Forall2 seq_ok (groups_of pat) caps
  /\ i <= e /\ subseq (concat caps) (firstn (e - i) s).
Proof.
  induction s as [|c s IH]; cbn [search_from]; intros i b e caps.
  - destruct (re_match pat []) as [[caps0 n]|] eqn:E; [|discriminate].
    intros [= <- <- <-]. apply re_match_sub in E. destruct E as (Hc & Hsub & Hn).
    split; [exact Hc|]. split; [lia|].
    now replace (i + n - i) with n by lia.
  - destruct (re_match pat (c :: s)) as [[caps0 n]|] eqn:E.
    + intros [= <- <- <-]. apply re_match_sub in E. destruct E as (Hc & Hsub & Hn).
      split; [exact Hc|]. split; [lia|].
      now replace (i + n - i) with n by lia.
    + intros H. apply IH in H. destruct H as (Hc & Hi & Hsub).
      split; [exact Hc|]. split; [lia|].
      replace (e - i) with (S (e - S i)) by lia. cbn [firstn]. now constructor.
Qed.

Lemma re_search_sub pat s b e caps :
  re_search pat s = Some (b, e, caps) ->
  Forall2 seq_ok (groups_of pat) caps /\ subseq (concat caps) (firstn e s).
Proof.
  intros H. apply search_from_sub in H. destruct H as (Hc & _ & Hsub).
  rewrite Nat.sub_0_r in Hsub. now split.
Qed.

Lemma seq_ok_one_atom a g :
  seq_ok [a] g ->
  a_lo a <= length g
  /\ match a_hi a with Some m => length g <= m | None => True end.
Proof.
  intros H. inversion H as [|? ? g1 g2 (_ & Hlo & Hhi) Hr]; subst.
  inversion Hr; subst. rewrite app_nil_r. now split.
Qed.

Lemma try_datetime_parts y M d h m s r :
  try_datetime y M d h m s = Some r -> snd r = (y, M, d, h, m, s).
Proof.
  unfold try_datetime. destruct (mk_datetime y M d h m s); [|discriminate].
  now intros [= <-].
Qed.

Lemma read_from_mono a b p : subseq a b -> read_from a p -> read_from b p.
Proof.
  intros Hab (gs & Hs & Hv & Hw). exists gs.
  split; [now apply (subseq_trans _ a) | now split].
Qed.

Lemma hour_width hb g :
  hb = D2 \/ hb = [rep is_digit 1 2] -> seq_ok hb g ->
  1 <= length g <= 2 /\ forallb is_digit g = true.
Proof.
  intros [-> | ->] H.
  - split; [apply seq_ok_one_atom in H; cbn in H; lia|].
    eapply seq_ok_digits; [apply digit_atoms_D2 | exact H].
  - split; [apply seq_ok_one_atom in H; cbn in H; lia|].
    eapply seq_ok_digits; [apply digit_atoms_hour | exact H].
Qed.

Lemma six_caps_read hb caps u r :
  Forall2 seq_ok [YEAR; D2; D2; hb; D2; D2] caps ->
  hb = D2 \/ hb = [rep is_digit 1 2] ->
  subseq (concat caps) u ->
  fields_of_groups caps = Return (Some r) ->
  read_from (filter is_digit u) (snd r).
Proof.
  intros Hc Hhb Hsub.
  inversion Hc as [|? c1 ? l1 H1 T1]; subst; clear Hc.
  inversion T1 as [|? c2 ? l2 H2 T2]; subst; clear T1.
  inversion T2 as [|? c3 ? l3 H3 T3]; subst; clear T2.
  inversion T3 as [|? c4 ? l4 H4 T4]; subst; clear T3.
  inversion T4 as [|? c5 ? l5 H5 T5]; subst; clear T4.
  inversion T5 as [|? c6 ? l6 H6 T6]; subst; clear T5.
  inversion T6; subst; clear T6.
  unfold fields_of_groups, group. cbn [nth Nat.sub].
  destruct (int_of c1) as [y|] eqn:E1; cbn [bind]; [|discriminate].
  destruct (int_of c2) as [M|] eqn:E2; cbn [bind]; [|discriminate].
  destruct (int_of c3) as [d|] eqn:E3; cbn [bind]; [|discriminate].
  destruct (int_of c4) as [h|] eqn:E4; cbn [bind]; [|discriminate].
  destruct (int_of c5) as [m|] eqn:E5; cbn [bind]; [|discriminate].
  destruct (int_of c6) as [s|] eqn:E6; cbn [bind]; [|discriminate].
  intros [= H]. rewrite (try_datetime_parts _ _ _ _ _ _ _ H).
  pose proof (seq_ok_digits _ _ digit_atoms_YEAR H1) as D1.
  pose proof (seq_ok_digits _ _ digit_atoms_D2 H2) as D2'.
  pose proof (seq_ok_digits _ _ digit_atoms_D2 H3) as D3.
  destruct (hour_width _ _ Hhb H4) as [W4 D4].
  pose proof (seq_ok_digits _ _ digit_atoms_D2 H5) as D5.
  pose proof (seq_ok_digits _ _ digit_atoms_D2 H6) as D6.
  exists [c1; c2; c3; c4; c5; c6]. split; [|split].
  - rewrite <- (filter_all is_digit (concat [c1; c2; c3; c4; c5; c6])).
    + now apply subseq_filter.
    + cbn [concat]. rewrite !forallb_app, D1, D2', D3, D4, D5, D6. reflexivity.
  - cbn [fields fld1 fld2 fld3 fld4 fld5 fld6]. repeat constructor; assumption.
  - destruct (year_capture c1 H1) as (a & b & -> & _).
    apply seq_ok_one_atom in H2, H3, H5, H6. cbn in H2, H3, H5, H6.
    unfold field_widths.
    repeat (apply Forall2_cons; [cbn [fst snd length]; lia|]). constructor.
Qed.

Lemma parse_with_read pat hb t r :
  groups_of pat = [YEAR; D2; D2; hb; D2; D2] ->
  hb = D2 \/ hb = [rep is_digit 1 2] ->
  parse_with pat t = Return (Some r) ->
  read_from (filter is_digit t) (snd r).
Proof.
  intros Hp Hhb. unfold parse_with.
  destruct (re_search pat t) as [[[b e] caps]|] eqn:E; [|discriminate].
  apply re_search_sub in E. destruct E as [Hc Hsub]. rewrite Hp in Hc.
  apply (six_caps_read hb); [exact Hc | exact Hhb|].
  apply (subseq_trans _ _ _ Hsub), subseq_firstn.
Qed.

Lemma parse_anchored_read t r :
  parse_anchored t = Return (Some r) -> read_from (filter is_digit t) (snd r).
Proof.
  unfold parse_anchored.
  destruct (re_search DATE_ANCHOR t) as [[[b e] dm]|] eqn:E; [|discriminate].
  apply re_search_sub in E. destruct E as [Hc Hsub].
  unfold DATE_ANCHOR in Hc. cbn [groups_of] in Hc.
  inversion Hc as [|? c1 ? l1 H1 T1]; subst; clear Hc.
  inversion T1 as [|? c2 ? l2 H2 T2]; subst; clear T1.
  inversion T2 as [|? c3 ? l3 H3 T3]; subst; clear T2.
  inversion T3; subst; clear T3.
  unfold group. cbn [nth Nat.sub].
  destruct (int_of c1) as [y|] eqn:E1; cbn [bind]; [|discriminate].
  destruct (int_of c2) as [M|] eqn:E2; cbn [bind]; [|discriminate].
  destruct (int_of c3) as [d|] eqn:E3; cbn [bind]; [|discriminate].
  destruct (re_search COLON_TIME (skipn e t)) as [[[b' e'] mt]|] eqn:E';
    [|discriminate].
  apply re_search_sub in E'. destruct E' as [Hc' Hsub'].
  unfold COLON_TIME in Hc'. cbn [groups_of] in Hc'.
  inversion Hc' as [|? c4 ? l4 H4 T4]; subst; clear Hc'.
  inversion T4 as [|? c5 ? l5 H5 T5]; subst; clear T4.
  inversion T5 as [|? c6 ? l6 H6 T6]; subst; clear T5.
  inversion T6; subst; clear T6.
  cbn [nth].
  destruct (int_of c4) as [h|] eqn:E4; cbn [bind]; [|discriminate].
  destruct (int_of c5) as [m|] eqn:E5; cbn [bind]; [|discriminate].
  destruct (int_of c6) as [s|] eqn:E6; cbn [bind]; [|discriminate].
  intros H.
  apply (six_caps_read [rep is_digit 1 2] [c1; c2; c3; c4; c5; c6]).
  - repeat constructor; assumption.
  - now right.
  - change [c1; c2; c3; c4; c5; c6] with ([c1; c2; c3] ++ [c4; c5; c6]).
    rewrite concat_app, <- (firstn_skipn e t).
    apply subseq_app; [exact Hsub|].
    apply (subseq_trans _ _ _ Hsub'), subseq_firstn.
  - unfold fields_of_groups, group. cbn [nth Nat.sub].
    rewrite E1, E2, E3, E4, E5, E6. cbn [bind]. exact H.
Qed.

Lemma _pairify_adjacent d1 d2 :
  is_digit d1 = true -> is_digit d2 = true ->
  _pairify [d1; d2] = int_of [d1; d2].
Proof. intros H1 H2. unfold _pairify, PAIRIFY. re_eval. reflexivity. Qed.

Lemma _pairify_split d1 x d2 :
  is_digit d1 = true -> is_digit x = false -> is_digit d2 = true ->
  _pairify [d1; x; d2] = int_of [d1; d2].
Proof.
  intros H1 Hx H2. unfold _pairify, PAIRIFY.
  destruct (is_space x) eqn:Hs; re_eval; reflexivity.
Qed.

Lemma pair_read g v :
  seq_ok [one is_digit; rep non_digit 0 1; one is_digit] g ->
  _pairify g = Return v ->
  exists d1 d2, filter is_digit g = [d1; d2] /\ int_of [d1; d2] = Return v.
Proof.
  intros H Hv.
  inversion H as [|? ? g1 r1 (H1 & L1 & U1) Hr1]; subst; clear H.
  inversion Hr1 as [|? ? g2 r2 (H2 & L2 & U2) Hr2]; subst; clear Hr1.
  inversion Hr2 as [|? ? g3 r3 (H3 & L3 & U3) Hr3]; subst; clear Hr2.
  inversion Hr3; subst; clear Hr3.
  revert Hv. cbn in H1, L1, U1, H2, L2, U2, H3, L3, U3.
  destruct g1 as [|d1 [|? ?]]; cbn [length] in L1, U1; try lia.
  destruct g3 as [|d2 [|? ?]]; cbn [length] in L3, U3; try lia.
  cbn [forallb] in H1, H3. rewrite andb_true_r in H1, H3.
  destruct g2 as [|x [|? ?]]; cbn [length] in L2, U2; try lia;
    cbn [app filter]; intros Hv.
  - rewrite _pairify_adjacent in Hv by assumption.
    exists d1, d2. rewrite H1, H3. now split.
  - cbn [forallb] in H2. rewrite andb_true_r in H2.
    unfold non_digit in H2. apply negb_true_iff in H2.
    rewrite _pairify_split in Hv by assumption.
    exists d1, d2. rewrite H1, H2, H3. now split.
Qed.

Lemma grab_pairs_read t n : forall idx vs,
  grab_pairs t n idx = Return (Some vs) ->
  exists gs,
    subseq (concat gs) (filter is_digit (skipn idx t))
    /\ Forall2 (fun g v => int_of g = Return v) gs vs
    /\ Forall (fun g => length g = 2) gs.
Proof.
  induction n as [|n IH]; intros idx vs; cbn [grab_pairs].
  - intros [= <-]. exists []. split; [apply subseq_nil_l|]. split; constructor.
  - unfold next_pair.
    destruct (re_search PAIR (skipn idx t)) as [[[b e] caps]|] eqn:E;
      cbn [bind]; [|discriminate].
    apply re_search_sub in E. destruct E as [Hc Hsub].
    unfold PAIR in Hc. cbn [groups_of] in Hc.
    inversion Hc as [|? g ? l1 Hg T1]; subst; clear Hc. inversion T1; subst; clear T1.
    unfold group. cbn [nth Nat.sub].
    destruct (_pairify g) as [val|] eqn:Ep; cbn [bind]; [|discriminate].
    destruct (grab_pairs t n (idx + e)) as [[vs'|]|] eqn:Er;
      cbn [bind option_map]; try discriminate.
    intros [= <-].
    destruct (IH _ _ Er) as (gs & Hs & Hv & Hw).
    destruct (pair_read g val Hg Ep) as (d1 & d2 & Hf & Hi).
    exists ([d1; d2] :: gs). split; [|split].
    + cbn [concat]. rewrite <- (firstn_skipn e (skipn idx t)), filter_app.
      apply subseq_app.
      * rewrite <- Hf. apply subseq_filter.
        cbn [concat] in Hsub. now rewrite app_nil_r in Hsub.
      * rewrite skipn_skipn. now rewrite (Nat.add_comm e idx).
    + now constructor.
    + now constructor.
Qed.

Lemma _grab_fields_loose_read t r :
  _grab_fields_loose t = Return (Some r) -> read_from (filter is_digit t) (snd r).
Proof.
  unfold _grab_fields_loose.
  destruct (re_search YEAR_ONLY t) as [[[b e] caps]|] eqn:E; [|discriminate].
  apply re_search_sub in E. destruct E as [Hc Hsub].
  unfold YEAR_ONLY in Hc. cbn [groups_of] in Hc.
  inversion Hc as [|? gy ? l1 Hg T1]; subst; clear Hc. inversion T1; subst; clear T1.
  unfold group. cbn [nth Nat.sub].
  destruct (int_of gy) as [y|] eqn:Ey; cbn [bind]; [|discriminate].
  destruct (grab_pairs t 5 e) as [fs|] eqn:Eg; cbn [bind]; [|discriminate].
  destruct fs as [[|M [|d [|h [|m [|s [|? ?]]]]]]|]; try discriminate.
  intros [= H]. rewrite (try_datetime_parts _ _ _ _ _ _ _ H).
  destruct (grab_pairs_read _ _ _ _ Eg) as (gs & Hs & Hv & Hw).
  pose proof (seq_ok_digits _ _ digit_atoms_YEAR Hg) as Dy.
  exists (gy :: gs). split; [|split].
  - cbn [concat]. rewrite <- (firstn_skipn e t), filter_app.
    apply subseq_app; [|exact Hs].
    rewrite <- (filter_all is_digit gy Dy). apply subseq_filter.
    cbn [concat] in Hsub. now rewrite app_nil_r in Hsub.
  - cbn [fields fld1 fld2 fld3 fld4 fld5 fld6]. now constructor.
  - destruct (year_capture gy Hg) as (y3 & y4 & -> & _).
    repeat match goal with
           | H : Forall2 _ _ (_ :: _) |- _ => inversion H; subst; clear H
           | H : Forall2 _ _ [] |- _ => inversion H; subst; clear H
           end.
    repeat match goal with
           | H : Forall _ (_ :: _) |- _ =>
               let L := fresh "L" in
               apply Forall_cons_iff in H; destruct H as [L H]
           end.
    unfold field_widths.
    repeat (apply Forall2_cons; [cbn [fst snd length]; lia|]). constructor.
Qed.

Lemma parse_strict_read pats t r :
  Forall (fun pat => exists hb, groups_of pat = [YEAR; D2; D2; hb; D2; D2]
                                /\ (hb = D2 \/ hb = [rep is_digit 1 2])) pats ->
  parse_strict pats t = Return (Some r) -> read_from (filter is_digit t) (snd r).
Proof.
  induction 1 as [|pat pats (hb & Hp & Hhb) Hps IH]; cbn [parse_strict]; [discriminate|].
  destruct (parse_with pat t) as [[r'|]|] eqn:E; try discriminate; [|exact IH].
  intros [= <-]. eapply parse_with_read; eauto.
Qed.

Lemma repaired_subseq s t : repaired s t -> subseq t s.
Proof.
  induction 1; [constructor | now constructor |].
  apply subseq_take, subseq_skip, subseq_take, subseq_take. assumption.
Qed.

Lemma parse_timestamp_flex_read raw r :
  parse_timestamp_flex raw = Return (Some r) ->
  read_from (filter is_digit (map confusable raw)) (snd r).
Proof.
  intros H.
  apply (read_from_mono
           (filter is_digit (repair_time_triplets (normalize_ocr raw)))).
  { rewrite <- normalize_ocr_digits. apply subseq_filter, repaired_subseq.
    apply (repair_time_triplets_repaired (length (normalize_ocr raw))). lia. }
  revert H. unfold parse_timestamp_flex. destruct raw as [|c raw]; [discriminate|].
  set (t := repair_time_triplets (normalize_ocr (c :: raw))).
  destruct (parse_anchored t) as [[r0|]|] eqn:E0; try discriminate.
  { intros [= <-]. now apply parse_anchored_read. }
  destruct (parse_with DATE_THEN_TIME_1OR2H t) as [[r1|]|] eqn:E1; try discriminate.
  { intros [= <-].
    apply (parse_with_read DATE_THEN_TIME_1OR2H [rep is_digit 1 2]);
      [reflexivity | now right | exact E1]. }
  destruct (_grab_fields_loose t) as [[r2|]|] eqn:E2; try discriminate.
  { intros [= <-]. now apply _grab_fields_loose_read. }
  destruct (parse_with FLEX_PAT t) as [[r3|]|] eqn:E3; try discriminate.
  { intros [= <-].
    apply (parse_with_read FLEX_PAT [rep is_digit 1 2]);
      [reflexivity | now right | exact E3]. }
  apply parse_strict_read. unfold TS_PATTERNS.
  repeat constructor; exists D2; (split; [reflexivity | now left]).
Qed.

(** X20.  The parser invents no digit: the six fields of a parse result
    are the values of six digit strings (four digits for the year, one or
    two for the hour, two for the others) that stand, in this order, in the
    digits of the text, once the letters O, o, I, l, S, B are read as
    digits.  A text with fewer than 13 such characters has no parse. *)
Theorem parse_timestamp_flex_reads_digits (raw : str) (d : datetime) (p : parts) :
  parse_timestamp_flex raw = Return (Some (d, p)) ->
  read_from (filter is_digit (map confusable raw)) p
  /\ 13 <= length (filter is_digit (map confusable raw)).
Proof.
  intros H. apply parse_timestamp_flex_read in H. cbn [snd] in H.
  split; [exact H|]. destruct H as (gs & Hs & _ & Hw).
  apply subseq_length in Hs. unfold field_widths in Hw.
  repeat match goal with
         | H : Forall2 _ _ (_ :: _) |- _ => inversion H; subst; clear H
         | H : Forall2 _ _ [] |- _ => inversion H; subst; clear H
         end.
  cbn [concat] in Hs. rewrite !length_app in Hs. cbn [fst snd length] in *. lia.
Qed.

Lemma parse_timestamp_flex_reads_digits_witness :
  read_from (filter is_digit (map confusable (lit "2O24-08-01 6:31:27")))
            (2024, 8, 1, 6, 31, 27)%Z
  /\ 13 <= length (filter is_digit (map confusable (lit "2O24-08-01 6:31:27"))).
Proof.
  apply (parse_timestamp_flex_reads_digits (lit "2O24-08-01 6:31:27")
           (DT 2024 8 1 6 31 27)).
  vm_compute. reflexivity.
Defined.

(** ** A weighted majority wins the vote *)











Lemma unpreferred_no_elite all_cands elite_margin :
  (forall c, In c all_cands -> ~ preferred c) ->
  choose_elite_candidate all_cands elite_margin = None.
Proof.
  intros H. rewrite choose_elite_candidate_unfold.
  destruct (sorted heavier_first all_cands) as [|top ranked'] eqn:E; [reflexivity|].
  cbn zeta.
  assert (Hin : In top all_cands).
  { apply (sorted_in heavier_first). rewrite E. now left. }
  destruct (str_mem (c_roi top) PREFERRED_ROIS) eqn:Hr; [|reflexivity].
  destruct (str_mem (c_var top) PREFERRED_VARS) eqn:Hv; [|reflexivity].
  exfalso. apply (H top Hin). split; now apply str_mem_In.
Qed.

(** X22.  The elite margin only matters through preferred candidates: when
    no candidate of the image comes from a preferred region read with a
    preferred variant, [process_image] returns the same result for every
    margin. *)
Theorem process_image_margin_irrelevant (img : image) (m1 m2 : Q)
  (all_cands : list Candidate) :
  collect_all img ROIS = Return all_cands ->
  (forall c, In c all_cands -> ~ preferred c) ->
  process_image (Some img) m1 = process_image (Some img) m2.
Proof.
  intros Hcs H. unfold process_image. rewrite Hcs. cbn [bind]. unfold select.
  destruct all_cands as [|c0 cs]; [reflexivity|].
  now rewrite !(unpreferred_no_elite _ _ H).
Qed.

Lemma process_image_margin_irrelevant_witness :
  process_image (Some weak_image) 0 = process_image (Some weak_image) (8 # 10).
Proof.
  apply (process_image_margin_irrelevant weak_image 0 (8 # 10) weak_cands).
  - vm_compute. reflexivity.
  - intros c Hc [Hr _]. unfold weak_cands in Hc.
    repeat (destruct Hc as [<- | Hc];
            [cbn in Hr; repeat (destruct Hr as [Hr | Hr]; [discriminate Hr|]);
             destruct Hr|]).
    destruct Hc.
Defined.

(** ** The vote depends on the order of the candidates *)

(** X23.  The per-field vote depends on the order in which the candidates
    are collected, because each addition of the tally is rounded.  The four
    candidates of [order_image] weigh 5.6 for the second 27 and 0.8,
    2.8000000000000003 and 2.0 for the second 28: added in this order the
    three make 5.6000000000000005 and 28 wins, added with the last two
    exchanged they make 5.6 and 27 wins on the tie. *)
Theorem vote_order_dependent :
  Binary64.collect_all order_image ROIS = Return order_cands
  /\ Permutation order_cands reordered_cands
  /\ Binary64.vote columns order_cands = Some [2024; 8; 1; 6; 31; 28]%Z
  /\ Binary64.vote columns reordered_cands = Some [2024; 8; 1; 6; 31; 27]%Z.
Proof.
  split; [vm_compute; reflexivity|]. split.
  - unfold order_cands, reordered_cands. do 2 apply perm_skip. apply perm_swap.
  - split; vm_compute; reflexivity.
Qed.
